(** * Credit KPI pipeline of WakandaSolar_CreditAnalysis_dlight.py

    A shallow embedding of the KPI computation of [main]: the schedule of
    expected payments, the matched trend table, collection and repayment
    rates, portfolio at risk, the vintage filter, the vintage and product
    tables, first payment default, the cash-flow table and the discounted
    valuation.

    Conventions of the embedding.
    - A table is a list of records, in row order; a merge, a filter and a
      [groupby] are the list functions of the section on generic table
      operations.  Where the names of the columns decide what the code
      does (the merges that carry [company]), tables are also modelled on
      the column level, see [Frame].
    - A pandas [Timestamp] is a calendar date (no time of day); a monthly
      [Period] is its ordinal, the number of months since January 1970.
      The column [month] of the schedule holds [m.to_timestamp()], the
      first day of a month; it is kept as the period ordinal and turned
      into a date with [to_timestamp] where the code does date arithmetic.
    - Amounts are exact rationals ([Q]); [round2] is rounding to two
      decimals, ties to even.  Binary rounding error of float64 is not
      modelled: the general statements give a rounded amount as a whole
      number of cents within half a cent of the exact amount, and a
      comparison of amounts on the amounts the rows hold.  What float
      division does at a zero denominator is: see [fval] and [fdiv].  The
      valuation is stated over the real numbers.
    - A null of a column (NaN, NaT, None) is [None].  The keys
      [contract_id] and [company] of a contract and the amounts are not
      null. *)

From Stdlib Require Import ZArith QArith Qround List String Bool Lia Lra ZifyBool.
From Stdlib Require Import Sorting.Mergesort Sorting.Sorted Sorting.Permutation.
From Stdlib Require Import Reals Rpower.
From Stdlib Require Lqa.
Import ListNotations.

Local Open Scope Z_scope.

(* ------------------------------------------------------------------ *)
(** ** Calendar *)

Module Calendar.

Record date := mkDate { year : Z; month : Z; day : Z }.

Definition date_eqb (a b : date) : bool :=
  (year a =? year b) && (month a =? month b) && (day a =? day b).

Definition is_leap (y : Z) : bool :=
  ((y mod 4 =? 0) && negb (y mod 100 =? 0)) || (y mod 400 =? 0).

Definition days_in_month (y m : Z) : Z :=
  if m =? 2 then (if is_leap y then 29 else 28)
  else if (m =? 4) || (m =? 6) || (m =? 9) || (m =? 11) then 30
  else 31.

Definition valid_date (d : date) : bool :=
  (1 <=? month d) && (month d <=? 12) &&
  (1 <=? day d) && (day d <=? days_in_month (year d) (month d)).

(** Day number of a date, days since 1970-01-01 (proleptic Gregorian
    calendar): what a [Timestamp] holds at day granularity. *)
Definition days_from_civil (d : date) : Z :=
  let y := if month d <=? 2 then year d - 1 else year d in
  let era := y / 400 in
  let yoe := y - era * 400 in
  let mp := if month d >? 2 then month d - 3 else month d + 9 in
  let doy := (153 * mp + 2) / 5 + day d - 1 in
  let doe := yoe * 365 + yoe / 4 - yoe / 100 + doy in
  era * 146097 + doe - 719468.

Definition civil_from_days (z : Z) : date :=
  let z := z + 719468 in
  let era := z / 146097 in
  let doe := z - era * 146097 in
  let yoe := (doe - doe / 1460 + doe / 36524 - doe / 146096) / 365 in
  let y := yoe + era * 400 in
  let doy := doe - (365 * yoe + yoe / 4 - yoe / 100) in
  let mp := (5 * doy + 2) / 153 in
  let d := doy - (153 * mp + 2) / 5 + 1 in
  let m := if mp <? 10 then mp + 3 else mp - 9 in
  mkDate (if m <=? 2 then y + 1 else y) m d.

(** Day number of the first of March of year [y], less 1: the part of
    [days_from_civil] that depends on the year alone. *)
Definition year_start (y : Z) : Z :=
  let era := y / 400 in
  let yoe := y - era * 400 in
  era * 146097 + yoe * 365 + yoe / 4 - yoe / 100 - 719468.

(** [ts + pd.to_timedelta(n, unit='D')] and [ts + pd.Timedelta(days=n)]. *)
Definition add_days (d : date) (n : Z) : date :=
  civil_from_days (days_from_civil d + n).

(** [(a - b).days] *)
Definition days_between (a b : date) : Z :=
  days_from_civil a - days_from_civil b.

Definition date_leb (a b : date) : bool :=
  days_from_civil a <=? days_from_civil b.

(** Monthly periods: [ts.to_period('M')], its ordinal. *)
Definition period := Z.

Definition to_period (d : date) : period :=
  (year d - 1970) * 12 + (month d - 1).

Definition period_year (p : period) : Z := 1970 + p / 12.
Definition period_month (p : period) : Z := p mod 12 + 1.

(** [p.to_timestamp()]: the first day of the month. *)
Definition to_timestamp (p : period) : date :=
  mkDate (period_year p) (period_month p) 1.

(** [p.days_in_month] *)
Definition period_days_in_month (p : period) : Z :=
  days_in_month (period_year p) (period_month p).

(** [pd.period_range(s, e, freq='M')]: every month from [s] to [e], both
    included; empty when [e] is before [s]. *)
Definition period_range (s e : period) : list period :=
  map (fun k => s + Z.of_nat k) (seq 0 (Z.to_nat (e - s + 1))).

(** [ts + pd.offsets.MonthBegin(n)], as pandas computes it:
    [roll_convention] on the day of the month against the anchor day 1,
    then [shift_month(ts, n, 'start')]. *)
Definition roll_convention (other_day n compare_day : Z) : Z :=
  if (0 <? n) && (other_day <? compare_day) then n - 1
  else if (n <=? 0) && (other_day >? compare_day) then n + 1
  else n.

Definition shift_month_start (d : date) (months : Z) : date :=
  let dy := (month d + months) / 12 in
  let m := (month d + months) mod 12 in
  let dy' := if m =? 0 then dy - 1 else dy in
  let m' := if m =? 0 then 12 else m in
  mkDate (year d + dy') m' 1.

Definition month_begin (n : Z) (d : date) : date :=
  shift_month_start d (roll_convention (day d) n 1).

(** [ts.replace(day=1)] *)
Definition replace_day1 (d : date) : date := mkDate (year d) (month d) 1.

End Calendar.
Import Calendar.

(* ------------------------------------------------------------------ *)
(** ** Amounts *)

Local Open Scope Q_scope.

(** Nearest integer, ties to even: [np.rint]. *)
Definition rint (q : Q) : Z :=
  let f := Qfloor q in
  match Qcompare (q - inject_Z f) (1 # 2) with
  | Lt => f
  | Gt => (f + 1)%Z
  | Eq => if Z.even f then f else (f + 1)%Z
  end.

(** [round(x, 2)] and [Series.round(2)], on the exact amount.  The program
    rounds the float64 nearest to the amount: where the amount lies
    halfway between two cents it may take the other cent. *)
Definition round2 (q : Q) : Q := rint (q * 100) # 100.

Definition Qsum (l : list Q) : Q := fold_right Qplus 0 l.

(** A float64 that may have left the finite numbers: the result of a
    division.  [x / 0] is NaN for [x = 0] and an infinity otherwise. *)
Inductive fval : Type :=
| Fin (q : Q)
| PInf
| NInf
| NaN.

Definition fdiv (a b : Q) : fval :=
  if Qeq_bool b 0 then
    match Qcompare a 0 with
    | Eq => NaN
    | Gt => PInf
    | Lt => NInf
    end
  else Fin (a / b).

Definition fmul (x : fval) (k : Q) : fval :=
  match x with
  | Fin q => Fin (q * k)
  | other => other
  end.

Definition fround2 (x : fval) : fval :=
  match x with
  | Fin q => Fin (round2 q)
  | other => other
  end.

Definition is_finite (x : fval) : bool :=
  match x with Fin _ => true | _ => false end.

Definition is_zero (x : fval) : bool :=
  match x with Fin q => Qeq_bool q 0 | _ => false end.

Definition Qltb (a b : Q) : bool := negb (Qle_bool b a).

(* ------------------------------------------------------------------ *)
(** ** Generic table operations *)

Section Tables.
Context {A B C K : Type}.

(** [Series.unique()] and the keys of a [groupby]: the distinct values,
    at their first occurrence. *)
Fixpoint unique (eqb : K -> K -> bool) (l : list K) : list K :=
  match l with
  | [] => []
  | x :: rest => x :: filter (fun y => negb (eqb x y)) (unique eqb rest)
  end.

(** [pd.merge(left, right, how='left')]: every left row once per matching
    right row, in left order; once with nulls when nothing matches. *)
Definition merge_left (matchb : A -> B -> bool)
    (both : A -> B -> C) (left_only : A -> C)
    (left : list A) (right : list B) : list C :=
  flat_map (fun a =>
              match filter (matchb a) right with
              | [] => [left_only a]
              | ms => map (both a) ms
              end) left.

(** What a left merge makes of a left row that matches at most once. *)
Definition merged_row (matchb : A -> B -> bool)
    (both : A -> B -> C) (left_only : A -> C) (right : list B) (a : A) : C :=
  match filter (matchb a) right with
  | [] => left_only a
  | b :: _ => both a b
  end.

(** [how='inner'] *)
Definition merge_inner (matchb : A -> B -> bool) (both : A -> B -> C)
    (left : list A) (right : list B) : list C :=
  flat_map (fun a => map (both a) (filter (matchb a) right)) left.

(** [df.groupby(keys)[col].sum()]: one row per distinct key, the sum of
    the column over the rows of that key.  The groups stand in the order
    of the first occurrence of their key; pandas orders them by key, which
    no value computed below depends on but the positions of line 347, where
    the two orders are the same. *)
Definition groupby_sum (eqb : K -> K -> bool) (key : A -> K) (val : A -> Q)
    (rows : list A) : list (K * Q) :=
  map (fun k => (k, Qsum (map val (filter (fun r => eqb k (key r)) rows))))
      (unique eqb (map key rows)).

(** [df.groupby(keys)[col].cumsum()]: the running sum within the rows of
    the same key, in table order. *)
Fixpoint group_cumsum (eqb : K -> K -> bool) (key : A -> K) (val : A -> Q)
    (before rows : list A) : list Q :=
  match rows with
  | [] => []
  | r :: rest =>
      (Qsum (map val (filter (fun b => eqb (key r) (key b)) before)) + val r)
        :: group_cumsum eqb key val (before ++ [r]) rest
  end.
End Tables.

(** Keys that may hold a null are dropped by [groupby]. *)
Definition somes {A : Type} (l : list (option A)) : list A :=
  flat_map (fun o => match o with Some a => [a] | None => [] end) l.

Definition fillna0 (o : option Q) : Q :=
  match o with Some q => q | None => 0 end.

(* ------------------------------------------------------------------ *)
(** ** Input records, after the cleaning of section 2 *)

Module Contract.
Record t := mk {
  contract_id : Z;
  company : string;
  contract_type : string;
  registration_date : option date;      (* NaT is None *)
  contract_tenor_days : option Z;       (* NaN is None *)
  daily_payment_amount_usd : Q;
  down_payment_usd : Q;
  contract_value_usd : Q;
  baseunit_productname : string;
  product_family : string
}.
End Contract.

Module Payment.
Record t := mk {
  contract_id : Z;
  pay_month : option date;
  total_paid : Q                         (* after fillna(0) *)
}.
End Payment.

(** [contracts_df.drop_duplicates(subset=['contract_id'])]: the first row of
    every contract_id is kept. *)
Fixpoint drop_duplicates (l : list Contract.t) : list Contract.t :=
  match l with
  | [] => []
  | c :: rest =>
      c :: filter (fun c' => negb (Contract.contract_id c =? Contract.contract_id c')%Z)
             (drop_duplicates rest)
  end.

(* ------------------------------------------------------------------ *)
(** ** Section 5: company onto the payments *)

Module PaymentC.
Record t := mk {
  contract_id : Z;
  pay_month : option date;
  total_paid : Q;
  company : option string
}.
(** [pay_month.dt.to_period('M').dt.to_timestamp()] *)
Definition month (p : t) : option period := option_map to_period (pay_month p).
End PaymentC.

(** Lines 64 to 68.  The sort of line 61 before it changes no value
    computed from the payments and is left out. *)
Definition payments_add_company (contracts : list Contract.t)
    (payments : list Payment.t) : list PaymentC.t :=
  merge_left
    (fun p c => (Payment.contract_id p =? Contract.contract_id c)%Z)
    (fun p c => PaymentC.mk (Payment.contract_id p) (Payment.pay_month p)
                  (Payment.total_paid p) (Some (Contract.company c)))
    (fun p => PaymentC.mk (Payment.contract_id p) (Payment.pay_month p)
                (Payment.total_paid p) None)
    payments contracts.

(* ------------------------------------------------------------------ *)
(** ** Section 6.1: expected rows, actual rows, the schedule *)

Definition start_month (c : Contract.t) : option period :=
  option_map to_period (Contract.registration_date c).

Definition end_month (c : Contract.t) : option period :=
  match Contract.registration_date c, Contract.contract_tenor_days c with
  | Some d, Some n => Some (to_period (add_days d n))
  | _, _ => None
  end.

Module Expected.
Record t := mk {
  contract_id : Z;
  company : string;
  month : period;
  expected_payment : Q
}.
End Expected.

Definition expected_rows_of (c : Contract.t) : list Expected.t :=
  match start_month c, end_month c with
  | Some s, Some e =>
      map (fun m =>
             Expected.mk (Contract.contract_id c) (Contract.company c) m
               (round2 (Contract.daily_payment_amount_usd c
                        * inject_Z (period_days_in_month m))))
          (period_range s e)
  | _, _ => []
  end.

Definition expected_rows (contracts : list Contract.t) : list Expected.t :=
  flat_map expected_rows_of contracts.

Definition row_key : Type := Z * string * period.

Definition row_key_eqb (a b : row_key) : bool :=
  let '(i, c, m) := a in
  let '(j, d, n) := b in
  (i =? j)%Z && String.eqb c d && (m =? n)%Z.

Definition actual_key (p : PaymentC.t) : option row_key :=
  match PaymentC.company p, PaymentC.month p with
  | Some c, Some m => Some (PaymentC.contract_id p, c, m)
  | _, _ => None
  end.

Definition has_key (k : row_key) (p : PaymentC.t) : bool :=
  match actual_key p with
  | Some k' => row_key_eqb k k'
  | None => false
  end.

(** [payments_df.groupby(['contract_id','company','month'])['total_paid']
    .sum()], then [.round(2)]. *)
Definition actual_df (payments_df : list PaymentC.t) : list (row_key * Q) :=
  map (fun k => (k, round2 (Qsum (map PaymentC.total_paid
                                    (filter (has_key k) payments_df)))))
      (unique row_key_eqb (somes (map actual_key payments_df))).

Module Trend.
Record t := mk {
  contract_id : Z;
  company : string;
  month : period;
  expected_payment : Q;
  total_paid : Q
}.
Definition key (r : t) : row_key := (contract_id r, company r, month r).
End Trend.

Definition expected_key (e : Expected.t) : row_key :=
  (Expected.contract_id e, Expected.company e, Expected.month e).

Definition trend_of (e : Expected.t) (paid : option Q) : Trend.t :=
  Trend.mk (Expected.contract_id e) (Expected.company e) (Expected.month e)
    (Expected.expected_payment e) (round2 (fillna0 paid)).

(** The ScheduleEntry table: [pd.merge(expected_df, actual_df, how='left')]
    with [total_paid.fillna(0).round(2)], before any filter. *)
Definition schedule (contracts : list Contract.t)
    (payments_df : list PaymentC.t) : list Trend.t :=
  merge_left
    (fun e a => row_key_eqb (expected_key e) (fst a))
    (fun e a => trend_of e (Some (snd a)))
    (fun e => trend_of e None)
    (expected_rows contracts) (actual_df payments_df).

(* ------------------------------------------------------------------ *)
(** ** Section 6.2: financed contracts only *)

Definition is_financed (c : Contract.t) : bool :=
  String.eqb (Contract.contract_type c) "FINANCED".

Definition financed_contracts (contracts : list Contract.t) : list Z :=
  unique Z.eqb (map Contract.contract_id (filter is_financed contracts)).

Definition isin (x : Z) (l : list Z) : bool := existsb (Z.eqb x) l.

Definition trend_df (contracts : list Contract.t)
    (payments_df : list PaymentC.t) : list Trend.t :=
  filter (fun r => isin (Trend.contract_id r) (financed_contracts contracts))
         (schedule contracts payments_df).

(* ------------------------------------------------------------------ *)
(** ** Sections 6.2 and 6.3: collection rate and repayment rate *)

Definition cm_key : Type := string * period.

Definition cm_key_eqb (a b : cm_key) : bool :=
  String.eqb (fst a) (fst b) && (snd a =? snd b)%Z.

Definition trend_cm_key (r : Trend.t) : cm_key :=
  (Trend.company r, Trend.month r).

Module Summary.
Record t := mk {
  company : string;
  month : period;
  expected_payment : Q;
  total_paid : Q;
  collection_rate : fval
}.
End Summary.

(** The reporting horizon [pd.Timestamp('2025-12-31')]. *)
Definition reporting_horizon : date := mkDate 2025 12 31.

Definition summary_of_group (trend : list Trend.t) (k : cm_key) : Summary.t :=
  let g := filter (fun r => cm_key_eqb k (trend_cm_key r)) trend in
  let expected_payment := Qsum (map Trend.expected_payment g) in
  let total_paid := Qsum (map Trend.total_paid g) in
  Summary.mk (fst k) (snd k)
    (round2 expected_payment) (round2 total_paid)
    (fround2 (fmul (fdiv total_paid expected_payment) 100)).

(** [trend_summary] at the end of section 6.2 (line 110). *)
Definition trend_summary (trend : list Trend.t) : list Summary.t :=
  filter (fun s => date_leb (to_timestamp (Summary.month s)) reporting_horizon)
    (map (summary_of_group trend)
         (unique cm_key_eqb (map trend_cm_key trend))).

Definition summary_leb (a b : Summary.t) : bool :=
  if String.eqb (Summary.company a) (Summary.company b)
  then (Summary.month a <=? Summary.month b)%Z
  else String.leb (Summary.company a) (Summary.company b).

Lemma summary_leb_total a b : summary_leb a b = true \/ summary_leb b a = true.
Proof.
  unfold summary_leb. rewrite (String.eqb_sym (Summary.company b)).
  destruct (String.eqb (Summary.company a) (Summary.company b)).
  - destruct (Z.leb_spec (Summary.month a) (Summary.month b)); [now left|].
    right. apply Z.leb_le. lia.
  - apply String.leb_total.
Qed.

(** The order of [sort_values(['company', 'month'])]. *)
Module SummaryOrder <: Orders.TotalLeBool.
Definition t := Summary.t.
Definition leb := summary_leb.
Definition leb_total := summary_leb_total.
End SummaryOrder.

Module SummarySort := Sort SummaryOrder.

Module Repayment.
Record t := mk {
  row : Summary.t;
  cum_total_paid : Q;
  cum_expected_payment : Q;
  repayment_rate : fval
}.
End Repayment.

(** Section 6.3: sorted by company and month, cumulative sums per company,
    their ratio in percent. *)
Definition repayment_trend (trend : list Trend.t) : list Repayment.t :=
  let sorted := SummarySort.sort (trend_summary trend) in
  let cum_total_paid :=
    group_cumsum String.eqb Summary.company Summary.total_paid [] sorted in
  let cum_expected_payment :=
    group_cumsum String.eqb Summary.company Summary.expected_payment [] sorted in
  map (fun x =>
         let '(s, cp, ce) := x in
         Repayment.mk s cp ce (fround2 (fmul (fdiv cp ce) 100)))
      (combine (combine sorted cum_total_paid) cum_expected_payment).

(* ------------------------------------------------------------------ *)
(** ** Section 6.4: portfolio at risk *)

Definition trend_leb (a b : Trend.t) : bool :=
  if (Trend.contract_id a =? Trend.contract_id b)%Z
  then (Trend.month a <=? Trend.month b)%Z
  else (Trend.contract_id a <=? Trend.contract_id b)%Z.

Lemma trend_leb_total a b : trend_leb a b = true \/ trend_leb b a = true.
Proof.
  unfold trend_leb. rewrite (Z.eqb_sym (Trend.contract_id b)).
  destruct (Z.eqb_spec (Trend.contract_id a) (Trend.contract_id b)).
  - destruct (Z.leb_spec (Trend.month a) (Trend.month b)); [now left|].
    right. apply Z.leb_le. lia.
  - destruct (Z.leb_spec (Trend.contract_id a) (Trend.contract_id b));
      [now left|]. right. apply Z.leb_le. lia.
Qed.

(** The order of [sort_values(['contract_id', 'month'])]. *)
Module TrendOrder <: Orders.TotalLeBool.
Definition t := Trend.t.
Definition leb := trend_leb.
Definition leb_total := trend_leb_total.
End TrendOrder.

Module TrendSort := Sort TrendOrder.

(** [trend_df['total_paid'] < trend_df['expected_payment']] *)
Definition missed_payment (r : Trend.t) : bool :=
  Qltb (Trend.total_paid r) (Trend.expected_payment r).

(** [df.loc[idx, col] = v] on a column held as a list; the row labels of
    the sorted table are unique, its positions stand for them. *)
Fixpoint update {A : Type} (idx : nat) (v : A) (col : list A) : list A :=
  match col, idx with
  | [], _ => []
  | _ :: rest, O => v :: rest
  | x :: rest, S i => x :: update i v rest
  end.

(** [trend_df[trend_df['contract_id'] == contract].index] *)
Definition index_of_contract (contract : Z) (rows : list Trend.t) : list nat :=
  map fst
      (filter (fun ir => (Trend.contract_id (snd ir) =? contract)%Z)
              (combine (seq 0 (List.length rows)) rows)).

(** The inner loop of lines 125 to 130, from the counter [missed]. *)
Fixpoint walk (missed_col : list bool) (idxs : list nat) (missed : Z)
    (consec_missed : list Z) : list Z :=
  match idxs with
  | [] => consec_missed
  | idx :: rest =>
      let missed' := if nth idx missed_col false then (missed + 1)%Z else 0%Z in
      walk missed_col rest missed' (update idx missed' consec_missed)
  end.

(** Lines 122 to 130 on the sorted table: the column [consec_missed]. *)
Definition consec_missed (rows : list Trend.t) : list Z :=
  fold_left
    (fun col contract =>
       walk (map missed_payment rows) (index_of_contract contract rows) 0%Z col)
    (unique Z.eqb (map Trend.contract_id rows))
    (repeat 0%Z (List.length rows)).

Inductive PAR_bucket : Type := Current | PAR30 | PAR60 | PAR90 | PAR120.

Definition PAR_bucket_eqb (a b : PAR_bucket) : bool :=
  match a, b with
  | Current, Current | PAR30, PAR30 | PAR60, PAR60
  | PAR90, PAR90 | PAR120, PAR120 => true
  | _, _ => false
  end.

Definition par_bucket (months : Z) : PAR_bucket :=
  if (months >=? 4)%Z then PAR120
  else if (months =? 3)%Z then PAR90
  else if (months =? 2)%Z then PAR60
  else if (months =? 1)%Z then PAR30
  else Current.

Module Par.
Record t := mk {
  row : Trend.t;
  consec_missed : Z;
  PAR_bucket : PAR_bucket
}.
End Par.

(** [trend_df] after line 144. *)
Definition par_df (trend : list Trend.t) : list Par.t :=
  let sorted := TrendSort.sort trend in
  map (fun x => Par.mk (fst x) (snd x) (par_bucket (snd x)))
      (combine sorted (consec_missed sorted)).

(** A cell of [par_pivot]: the summed [expected_payment] of a company, a
    month and a bucket; 0 where the group is empty ([fill_value=0], and the
    columns added by lines 154 to 160). *)
Definition par_amount (par : list Par.t) (k : cm_key) (b : PAR_bucket) : Q :=
  Qsum (map (fun p => Trend.expected_payment (Par.row p))
            (filter (fun p => cm_key_eqb k (trend_cm_key (Par.row p))
                              && PAR_bucket_eqb b (Par.PAR_bucket p)) par)).

Definition par_buckets : list PAR_bucket := [PAR30; PAR60; PAR90; PAR120; Current].

(** [np.where(Total_PAR > 0, (bucket / Total_PAR) * 100, 0).round(2)] *)
Definition par_pct (amount Total_PAR : Q) : fval :=
  fround2 (if Qltb 0 Total_PAR then fmul (fdiv amount Total_PAR) 100 else Fin 0).

Module ParPivot.
Record t := mk {
  company : string;
  month : period;
  amount : PAR_bucket -> Q;
  Total_PAR : Q;
  pct : PAR_bucket -> fval
}.
End ParPivot.

(** [payments_df['pay_month'].max()], nulls skipped; null when there is no
    date at all. *)
Definition max_date (l : list (option date)) : option date :=
  fold_left (fun acc o =>
               match acc, o with
               | None, _ => o
               | Some _, None => acc
               | Some a, Some d => if date_leb a d then Some d else acc
               end) l None.

(** A comparison with NaT is false. *)
Definition leb_opt_date (d : date) (o : option date) : bool :=
  match o with Some m => date_leb d m | None => false end.

Definition par_pivot (trend : list Trend.t) (payments_df : list PaymentC.t)
  : list ParPivot.t :=
  let par := par_df trend in
  let max_month := max_date (map PaymentC.pay_month payments_df) in
  map (fun k =>
         let amount := par_amount par k in
         let Total_PAR := Qsum (map amount par_buckets) in
         ParPivot.mk (fst k) (snd k) amount Total_PAR
           (fun b => par_pct (amount b) Total_PAR))
      (filter (fun k => leb_opt_date (to_timestamp (snd k)) max_month)
              (unique cm_key_eqb (map trend_cm_key trend))).

(* ------------------------------------------------------------------ *)
(** ** Section 6.6: vintage columns and the months-on-book filter *)

Module Vintage.
Record t := mk {
  row : Trend.t;                        (* its company is company_x *)
  vintage : option period;
  registration_date : option date;
  contract_tenor_days : option Z;
  company : option string;              (* re-joined at lines 186 to 192 *)
  months_on_book : option Z;
  tenor_months : option Z
}.
End Vintage.

(** [((month - registration_date).dt.days // 30)] *)
Definition months_on_book (m : period) (reg : option date) : option Z :=
  option_map (fun d => (days_between (to_timestamp m) d / 30)%Z) reg.

(** [(contract_tenor_days // 30)] *)
Definition tenor_months (tenor : option Z) : option Z :=
  option_map (fun n => (n / 30)%Z) tenor.

Definition vintage_of (r : Trend.t) (c : option Contract.t) : Vintage.t :=
  let reg := match c with Some c => Contract.registration_date c | None => None end in
  let tenor := match c with Some c => Contract.contract_tenor_days c | None => None end in
  Vintage.mk r (option_map to_period reg) reg tenor
    (option_map Contract.company c)
    (months_on_book (Trend.month r) reg) (tenor_months tenor).

(** Lines 179 to 195.  Both sides of the merge of line 179 have a column
    [company], so the merged table has [company_x] and [company_y] and no
    [company]; the guard of line 186 joins [company] again from the
    contracts.  The column-level model of this is [Frame] below. *)
Definition vintage_merge (contracts : list Contract.t) (trend : list Trend.t)
  : list Vintage.t :=
  merge_left
    (fun r c => (Trend.contract_id r =? Contract.contract_id c)%Z)
    (fun r c => vintage_of r (Some c))
    (fun r => vintage_of r None)
    (TrendSort.sort trend) contracts.

(** The filter of line 196; a comparison with a null is false. *)
Definition on_book (v : Vintage.t) : bool :=
  match Vintage.months_on_book v, Vintage.tenor_months v with
  | Some mob, Some tm => (mob >=? 0)%Z && (mob <=? tm)%Z
  | _, _ => false
  end.

(** [trend_df] from line 196 on. *)
Definition vintage_df (contracts : list Contract.t) (trend : list Trend.t)
  : list Vintage.t :=
  filter on_book (vintage_merge contracts trend).

(* ------------------------------------------------------------------ *)
(** ** Section 6.8 and 6.9: first payment default *)

Definition FPD_CUTOFF_DAY : Z := 5.

Definition get_fpd_month (reg_date : option date) : option date :=
  match reg_date with
  | None => None
  | Some d =>
      if (day d <=? FPD_CUTOFF_DAY)%Z
      then Some (replace_day1 (month_begin 1 d))
      else Some (replace_day1 (month_begin 2 d))
  end.

Definition fpd_month (c : Contract.t) : option date :=
  get_fpd_month (Contract.registration_date c).

Definition financed (contracts : list Contract.t) : list Contract.t :=
  filter is_financed contracts.

Definition opt_string_is (o : option string) (s : string) : bool :=
  match o with Some x => String.eqb x s | None => false end.

Definition opt_date_is (o : option date) (d : date) : bool :=
  match o with Some x => date_eqb x d | None => false end.

(** [pay_month_only == fpd_month] on a row of the inner merge of line 236. *)
Definition paid_in_fpd_month (p : PaymentC.t) (c : Contract.t) : bool :=
  match option_map to_timestamp (PaymentC.month p), fpd_month c with
  | Some m, Some f => date_eqb m f
  | _, _ => false
  end.

(** Lines 236 to 241: the payments joined to their financed contract on
    [contract_id] and [company], those of the FPD month kept. *)
Definition fpd_payments (contracts : list Contract.t)
    (payments_df : list PaymentC.t) : list (PaymentC.t * Contract.t) :=
  filter (fun pc => paid_in_fpd_month (fst pc) (snd pc))
    (merge_inner
       (fun p c => (PaymentC.contract_id p =? Contract.contract_id c)%Z
                   && opt_string_is (PaymentC.company p) (Contract.company c))
       pair payments_df (financed contracts)).

(** Line 243: [fpd_total_paid] per contract. *)
Definition fpd_paid (contracts : list Contract.t)
    (payments_df : list PaymentC.t) : list (Z * Q) :=
  groupby_sum Z.eqb
    (fun pc => PaymentC.contract_id (fst pc))
    (fun pc => PaymentC.total_paid (fst pc))
    (fpd_payments contracts payments_df).

Module FpdExpected.
Record t := mk {
  contract_id : Z;
  expected_payment : Q;
  company : option string;
  registration_date : option date;
  fpd_month : date
}.
End FpdExpected.

(** Lines 245 to 255: the schedule rows, as filtered by line 196, that sit
    at the FPD month of their financed contract. *)
Definition fpd_expected (contracts : list Contract.t) (vdf : list Vintage.t)
  : list FpdExpected.t :=
  merge_inner
    (fun v c => (Trend.contract_id (Vintage.row v) =? Contract.contract_id c)%Z
                && opt_string_is (Vintage.company v) (Contract.company c)
                && opt_date_is (fpd_month c)
                     (to_timestamp (Trend.month (Vintage.row v))))
    (fun v c => FpdExpected.mk (Trend.contract_id (Vintage.row v))
                  (Trend.expected_payment (Vintage.row v))
                  (Vintage.company v) (Vintage.registration_date v)
                  (to_timestamp (Trend.month (Vintage.row v))))
    vdf (financed contracts).

Module Fpd.
Record t := mk {
  contract_id : Z;
  expected_payment : Q;
  company : option string;
  registration_date : option date;
  fpd_month : date;
  fpd_total_paid : Q;
  FPD_flag : bool;
  FPD_zero_flag : bool
}.
Definition reg_month (r : t) : option period :=
  option_map to_period (registration_date r).
End Fpd.

Definition fpd_of (e : FpdExpected.t) (paid : option Q) : Fpd.t :=
  let fpd_total_paid := fillna0 paid in
  Fpd.mk (FpdExpected.contract_id e) (FpdExpected.expected_payment e)
    (FpdExpected.company e) (FpdExpected.registration_date e)
    (FpdExpected.fpd_month e) fpd_total_paid
    (Qltb fpd_total_paid (FpdExpected.expected_payment e))
    (Qeq_bool fpd_total_paid 0).

(** Lines 257 to 259 and 270. *)
Definition fpd_final_of (contracts : list Contract.t)
    (payments_df : list PaymentC.t) (vdf : list Vintage.t) : list Fpd.t :=
  merge_left
    (fun e p => (FpdExpected.contract_id e =? fst p)%Z)
    (fun e p => fpd_of e (Some (snd p)))
    (fun e => fpd_of e None)
    (fpd_expected contracts vdf) (fpd_paid contracts payments_df).

Definition fpd_key : Type := string * period * date.

Definition fpd_key_eqb (a b : fpd_key) : bool :=
  let '(c, r, f) := a in
  let '(d, s, g) := b in
  String.eqb c d && (r =? s)%Z && date_eqb f g.

Definition fpd_key_of (r : Fpd.t) : option fpd_key :=
  match Fpd.company r, Fpd.reg_month r with
  | Some c, Some m => Some (c, m, Fpd.fpd_month r)
  | _, _ => None
  end.

Definition in_fpd_group (k : fpd_key) (r : Fpd.t) : bool :=
  match fpd_key_of r with
  | Some k' => fpd_key_eqb k k'
  | None => false
  end.

(** The sum of a column of booleans. *)
Definition count_true {A : Type} (f : A -> bool) (l : list A) : Z :=
  Z.of_nat (List.length (filter f l)).

Module FpdRate.
Record t := mk {
  company : string;
  reg_month : period;
  fpd_month : date;
  contracts : Z;
  FPD_count : Z;
  FPD_rate : fval;
  FPD_zero_count : Z;
  FPD_zero_rate : fval
}.
End FpdRate.

Definition rate (count contracts : Z) : fval :=
  fround2 (fmul (fdiv (inject_Z count) (inject_Z contracts)) 100).

(** Lines 262 to 277. *)
Definition FPD_rate_trend_of (fpd_final : list Fpd.t) : list FpdRate.t :=
  map (fun k =>
         let g := filter (in_fpd_group k) fpd_final in
         let contracts := Z.of_nat (List.length g) in
         let FPD_count := count_true Fpd.FPD_flag g in
         let FPD_zero_count := count_true Fpd.FPD_zero_flag g in
         let '(c, r, f) := k in
         FpdRate.mk c r f contracts FPD_count (rate FPD_count contracts)
           FPD_zero_count (rate FPD_zero_count contracts))
      (unique fpd_key_eqb (somes (map fpd_key_of fpd_final))).

(* ------------------------------------------------------------------ *)
(** ** Sections 7.2 and 7.3: the inflows of the cash-flow table *)

Module Product.
Record t := mk {
  row : Vintage.t;
  baseunit_productname : option string;
  product_family : option string
}.
End Product.

(** Line 207: the product columns joined onto [trend_df]. *)
Definition product_df (contracts : list Contract.t) (vdf : list Vintage.t)
  : list Product.t :=
  merge_left
    (fun v c => (Trend.contract_id (Vintage.row v) =? Contract.contract_id c)%Z)
    (fun v c => Product.mk v (Some (Contract.baseunit_productname c))
                  (Some (Contract.product_family c)))
    (fun v => Product.mk v None None)
    vdf contracts.

Definition flow_key : Type := string * string * string * period.

Definition flow_key_eqb (a b : flow_key) : bool :=
  let '(c, f, n, m) := a in
  let '(c', f', n', m') := b in
  String.eqb c c' && String.eqb f f' && String.eqb n n' && (m =? m')%Z.

Definition flow_key_of (p : Product.t) : option flow_key :=
  match Vintage.company (Product.row p), Product.product_family p,
        Product.baseunit_productname p with
  | Some c, Some f, Some n =>
      Some (c, f, n, Trend.month (Vintage.row (Product.row p)))
  | _, _, _ => None
  end.

Definition in_flow_group (k : flow_key) (p : Product.t) : bool :=
  match flow_key_of p with
  | Some k' => flow_key_eqb k k'
  | None => false
  end.

Definition inflows_of (val : Trend.t -> Q) (pdf : list Product.t)
  : list (flow_key * Q) :=
  map (fun k => (k, Qsum (map (fun p => val (Vintage.row (Product.row p)))
                              (filter (in_flow_group k) pdf))))
      (unique flow_key_eqb (somes (map flow_key_of pdf))).

(* ------------------------------------------------------------------ *)
(** ** Section 8: projection and valuation *)

Definition projection_start : date := mkDate 2025 8 1.

(** [pd.date_range(projection_start, periods=12, freq='MS')] *)
Definition projection_months : list date :=
  map (fun k => to_timestamp (to_period projection_start + Z.of_nat k)%Z)
      (seq 0 12).

Module Projection.
Record t := mk {
  month : date;
  contract_id : Z;
  company : string;
  expected_payment : Q
}.
End Projection.

(** [reg_date <= month <= end_date], false at a null. *)
Definition active (c : Contract.t) (month : date) : bool :=
  match Contract.registration_date c, Contract.contract_tenor_days c with
  | Some reg_date, Some tenor_days =>
      date_leb reg_date month && date_leb month (add_days reg_date tenor_days)
  | _, _ => false
  end.

Definition projection_rows (contracts : list Contract.t) : list Projection.t :=
  flat_map
    (fun month =>
       flat_map
         (fun c =>
            if active c month
            then [Projection.mk month (Contract.contract_id c) (Contract.company c)
                    (Contract.daily_payment_amount_usd c
                     * inject_Z (days_in_month (year month) (Calendar.month month)))]
            else [])
         contracts)
    projection_months.

(** [projection_df.groupby('month')['expected_payment'].sum()], rounded.
    The rows are produced month after month, so the first occurrences of
    the months are in calendar order, the order of the groups.  When no
    contract is active in any month of the window [projection_df] has no
    column and line 341 raises; the table is empty here. *)
Definition monthly_projection (contracts : list Contract.t) : list (date * Q) :=
  map (fun kv => (fst kv, round2 (snd kv)))
      (groupby_sum date_eqb Projection.month Projection.expected_payment
         (projection_rows contracts)).

Local Open Scope R_scope.

(** The valuation is stated over the real numbers; float64 rounding is not
    modelled. *)
Definition discount_rate : R := 15 / 100.

Definition monthly_discount : R := Rpower (1 + discount_rate) (1 / 12) - 1.

(** [(1 + monthly_discount) ** -i] *)
Definition discount_factor (i : nat) : R := Rpower (1 + monthly_discount) (- INR i).

Module Discounted.
Record t := mk {
  month : date;
  expected_payment : Q;
  discount_factor : R;
  discounted_cashflow : R
}.
End Discounted.

(** Lines 347 and 348: the factor of a row is given by its position,
    [range(1, len(monthly_projection) + 1)]. *)
Definition discounted (projection : list (date * Q)) : list Discounted.t :=
  map (fun x =>
         let '((m, e), i) := x in
         Discounted.mk m e (discount_factor i) (Q2R e * discount_factor i))
      (combine projection (seq 1 (List.length projection))).

Definition Rsum (l : list R) : R := fold_right Rplus 0 l.

Definition portfolio_value (contracts : list Contract.t) : R :=
  Rsum (map Discounted.discounted_cashflow
            (discounted (monthly_projection contracts))).

Local Close Scope R_scope.

(* ------------------------------------------------------------------ *)
(** ** Column-level tables: what the merges do to column names *)

Module Frame.

Inductive cell : Type :=
| Null
| Int (z : Z)
| Str (s : string)
| Num (q : Q)
| Day (d : date)
| Flag (b : bool).

(** Equality of merge keys; pandas matches a null key with a null key. *)
Definition cell_eqb (a b : cell) : bool :=
  match a, b with
  | Null, Null => true
  | Int x, Int y => (x =? y)%Z
  | Str x, Str y => String.eqb x y
  | Num x, Num y => Qeq_bool x y
  | Day x, Day y => date_eqb x y
  | Flag x, Flag y => Bool.eqb x y
  | _, _ => false
  end.

Definition is_null (c : cell) : bool :=
  match c with Null => true | _ => false end.

Record t := mk { columns : list string; rows : list (list cell) }.

Definition mem (name : string) (cols : list string) : bool :=
  existsb (String.eqb name) cols.

(** [name in df.columns] *)
Definition has_column (name : string) (f : t) : bool := mem name (columns f).

Fixpoint position (name : string) (cols : list string) : option nat :=
  match cols with
  | [] => None
  | c :: rest =>
      if String.eqb name c then Some O else option_map S (position name rest)
  end.

Definition get (cols : list string) (name : string) (r : list cell) : cell :=
  match position name cols with
  | Some i => nth i r Null
  | None => Null
  end.

(** [df[name]] *)
Definition column (name : string) (f : t) : list cell :=
  map (get (columns f) name) (rows f).

(** [df[cols]] *)
Definition select (cols : list string) (f : t) : t :=
  mk cols (map (fun r => map (fun c => get (columns f) c r) cols) (rows f)).

(** [df.drop(columns=cols, errors='ignore')] *)
Definition drop (cols : list string) (f : t) : t :=
  select (filter (fun c => negb (mem c cols)) (columns f)) f.

(** [df[name].isnull().all()] *)
Definition all_null (name : string) (f : t) : bool :=
  forallb is_null (column name f).

(** [left.merge(right, on=key, how='left')]: a column other than the key
    that both sides have is renamed with the suffixes [_x] and [_y]. *)
Definition merge_on (key : string) (left right : t) : t :=
  let lcols := columns left in
  let rcols := filter (fun c => negb (String.eqb c key)) (columns right) in
  let lname c :=
    if negb (String.eqb c key) && mem c rcols then (c ++ "_x")%string else c in
  let rname c := if mem c lcols then (c ++ "_y")%string else c in
  mk (map lname lcols ++ map rname rcols)
     (flat_map
        (fun lr =>
           let k := get lcols key lr in
           match filter (fun rr => cell_eqb k (get (columns right) key rr))
                        (rows right) with
           | [] => [lr ++ map (fun _ => Null) rcols]
           | ms => map (fun rr => lr ++ map (fun c => get (columns right) c rr) rcols) ms
           end)
        (rows left)).

End Frame.

Definition opt_cell {A : Type} (f : A -> Frame.cell) (o : option A) : Frame.cell :=
  match o with Some a => f a | None => Frame.Null end.

Definition period_cell (p : period) : Frame.cell := Frame.Day (to_timestamp p).

Definition PAR_bucket_name (b : PAR_bucket) : string :=
  match b with
  | Current => "Current"
  | PAR30 => "PAR30"
  | PAR60 => "PAR60"
  | PAR90 => "PAR90"
  | PAR120 => "PAR120"
  end.

(** The columns of [contracts_df] that the merges read ([vintage] is there
    from line 178 on). *)
Definition contracts_frame (contracts : list Contract.t) : Frame.t :=
  Frame.mk
    ["contract_id"; "company"; "contract_type"; "registration_date";
     "contract_tenor_days"; "daily_payment_amount_usd"; "vintage"]%string
    (map (fun c =>
            [Frame.Int (Contract.contract_id c);
             Frame.Str (Contract.company c);
             Frame.Str (Contract.contract_type c);
             opt_cell Frame.Day (Contract.registration_date c);
             opt_cell Frame.Int (Contract.contract_tenor_days c);
             Frame.Num (Contract.daily_payment_amount_usd c);
             opt_cell period_cell (option_map to_period (Contract.registration_date c))])
         contracts).

Definition payments_frame (payments : list Payment.t) : Frame.t :=
  Frame.mk ["contract_id"; "pay_month"; "total_paid"]%string
    (map (fun p =>
            [Frame.Int (Payment.contract_id p);
             opt_cell Frame.Day (Payment.pay_month p);
             Frame.Num (Payment.total_paid p)])
         payments).

Definition par_cells (p : Par.t) : list Frame.cell :=
  let r := Par.row p in
  [Frame.Int (Trend.contract_id r);
   Frame.Str (Trend.company r);
   period_cell (Trend.month r);
   Frame.Num (Trend.expected_payment r);
   Frame.Num (Trend.total_paid r);
   Frame.Flag (missed_payment r);
   Frame.Int (Par.consec_missed p);
   Frame.Str (PAR_bucket_name (Par.PAR_bucket p))].

(** [trend_df] as it stands at line 178. *)
Definition trend_frame (par : list Par.t) : Frame.t :=
  Frame.mk
    ["contract_id"; "company"; "month"; "expected_payment"; "total_paid";
     "missed_payment"; "consec_missed"; "PAR_bucket"]%string
    (map par_cells par).

(** The cells that the merge of line 179 appends to a row of the schedule:
    those of the contract of the row, nulls when there is none. *)
Definition vintage_cells (c : option Contract.t) : list Frame.cell :=
  let reg := match c with
             | Some c => Contract.registration_date c
             | None => None
             end in
  let tenor := match c with
               | Some c => Contract.contract_tenor_days c
               | None => None
               end in
  [opt_cell period_cell (option_map to_period reg);
   opt_cell Frame.Day reg;
   opt_cell Frame.Int tenor;
   opt_cell Frame.Str (option_map Contract.company c)].

(** The merges that carry [company], each recorded with the table it is
    assigned to and the columns taken from [contracts_df]. *)
Inductive event : Type :=
| Merged (target : string) (right_columns : list string).

Definition merges_into (target : string) (log : list event) : nat :=
  List.length (filter (fun e => match e with Merged t _ => String.eqb t target end) log).

Definition company_columns : list string := ["contract_id"; "company"]%string.

Definition vintage_columns : list string :=
  ["contract_id"; "vintage"; "registration_date"; "contract_tenor_days";
   "company"]%string.

(** Lines 64 to 68. *)
Definition add_company_to_payments (contracts_df payments_df : Frame.t)
  : Frame.t * list event :=
  (Frame.merge_on "contract_id" payments_df (Frame.select company_columns contracts_df),
   [Merged "payments_df" company_columns]).

(** Lines 179 to 183. *)
Definition merge_vintage (contracts_df trend_df : Frame.t) : Frame.t * list event :=
  (Frame.merge_on "contract_id" trend_df (Frame.select vintage_columns contracts_df),
   [Merged "trend_df" vintage_columns]).

(** The condition of line 186.  Python's [or] does not read the column
    when it is absent; [Frame.all_null] of an absent column is true, so the
    disjunction has the same value. *)
Definition company_missing (trend_df : Frame.t) : bool :=
  negb (Frame.has_column "company" trend_df) || Frame.all_null "company" trend_df.

(** Lines 186 to 192. *)
Definition guarantee_company (contracts_df trend_df : Frame.t)
  : Frame.t * list event :=
  if company_missing trend_df
  then (Frame.merge_on "contract_id" (Frame.drop ["company"%string] trend_df)
          (Frame.select company_columns contracts_df),
        [Merged "trend_df" company_columns])
  else (trend_df, []).

(* ------------------------------------------------------------------ *)
(** ** The run of [main] on the cleaned inputs *)

Section Main.
Variable raw_contracts : list Contract.t.
Variable payments : list Payment.t.

(** Line 38. *)
Definition contracts_df : list Contract.t := drop_duplicates raw_contracts.

(** Lines 64 to 68. *)
Definition payments_df : list PaymentC.t :=
  payments_add_company contracts_df payments.

(** Lines 76 to 95: [trend_df] before the filter of line 99. *)
Definition ScheduleEntry : list Trend.t := schedule contracts_df payments_df.

(** Line 99. *)
Definition financed_trend : list Trend.t := trend_df contracts_df payments_df.

Definition Collection_Rate_Trend : list Summary.t := trend_summary financed_trend.

Definition Repayment_Rate_Trend : list Repayment.t := repayment_trend financed_trend.

Definition PAR_rows : list Par.t := par_df financed_trend.

Definition PAR_Trend : list ParPivot.t := par_pivot financed_trend payments_df.

(** [trend_df] after line 196. *)
Definition vintage_trend : list Vintage.t := vintage_df contracts_df financed_trend.

Definition fpd_final : list Fpd.t :=
  fpd_final_of contracts_df payments_df vintage_trend.

Definition FPD_Rate_Trend : list FpdRate.t := FPD_rate_trend_of fpd_final.

(** [trend_df] at lines 295 and 302. *)
Definition cash_flow_rows : list Product.t := product_df contracts_df vintage_trend.

Definition expected_inflows : list (flow_key * Q) :=
  inflows_of Trend.expected_payment cash_flow_rows.

Definition actual_inflows : list (flow_key * Q) :=
  inflows_of Trend.total_paid cash_flow_rows.

Definition Portfolio_Value : R := portfolio_value contracts_df.

(** The three merges that carry [company], on the column level: the
    payments with their company, the schedule after line 192, and the
    merges performed. *)
Definition company_merges : Frame.t * Frame.t * list event :=
  let C := contracts_frame contracts_df in
  let '(P, log1) := add_company_to_payments C (payments_frame payments) in
  let '(T1, log2) := merge_vintage C (trend_frame PAR_rows) in
  let '(T2, log3) := guarantee_company C T1 in
  (P, T2, log1 ++ log2 ++ log3).
End Main.

(* ------------------------------------------------------------------ *)
(** ** Vocabulary of the statements *)

(** The rows of one contract, in table order. *)
Definition rows_of_contract (contract : Z) (rows : list Trend.t) : list Trend.t :=
  filter (fun r => (Trend.contract_id r =? contract)%Z) rows.

Definition par_rows_of_contract (contract : Z) (rows : list Par.t) : list Par.t :=
  filter (fun p => (Trend.contract_id (Par.row p) =? contract)%Z) rows.

(** The month met its expected payment. *)
Definition payment_met (r : Trend.t) : bool :=
  Qle_bool (Trend.expected_payment r) (Trend.total_paid r).

(** The counter as the specification words it: back to 0 on a month that
    meets the expected payment, one more otherwise. *)
Fixpoint spec_miss_counter (missed : Z) (met : list bool) : list Z :=
  match met with
  | [] => []
  | b :: rest =>
      let missed' := if b then 0%Z else (missed + 1)%Z in
      missed' :: spec_miss_counter missed' rest
  end.

(** The bucket table of the specification. *)
Definition spec_bucket (counter : Z) : PAR_bucket :=
  match Z.to_nat counter with
  | 0%nat => Current
  | 1%nat => PAR30
  | 2%nat => PAR60
  | 3%nat => PAR90
  | _ => PAR120
  end.

(** The contract of the example of the specification: 10 a day, registered
    on 2024-01-01, for 90 days. *)
Definition example_contract : Contract.t :=
  Contract.mk 1 "WakandaSolar" "FINANCED" (Some (mkDate 2024 1 1)) (Some 90%Z)
    10 0 0 "lamp" "solar".

Definition january_2024 : period := to_period (mkDate 2024 1 1).
Definition march_2024 : period := to_period (mkDate 2024 3 1).
Definition april_2024 : period := to_period (mkDate 2024 4 1).

Definition example_payments : list Payment.t :=
  [ Payment.mk 1 (Some (mkDate 2024 1 15)) 100;
    Payment.mk 1 (Some (mkDate 2024 2 10)) 290 ].

(** A financed contract whose daily amount is 0, and a payment record of it
    that carries no amount. *)
Definition zero_daily_contract : Contract.t :=
  Contract.mk 2 "WakandaSolar" "FINANCED" (Some (mkDate 2024 1 1)) (Some 90%Z)
    0 0 0 "lamp" "solar".

Definition zero_daily_payments : list Payment.t :=
  [ Payment.mk 2 (Some (mkDate 2024 3 15)) 0 ].

(** A contract that is not financed, with one payment. *)
Definition cash_contract : Contract.t :=
  Contract.mk 3 "WakandaSolar" "CASH" (Some (mkDate 2024 1 1)) (Some 90%Z)
    10 0 300 "lamp" "solar".

Definition cash_payments : list Payment.t :=
  [ Payment.mk 3 (Some (mkDate 2024 1 15)) 100 ].

(** The contract of a contract_id, after deduplication. *)
Definition lookup_contract (contracts : list Contract.t) (id : Z) : option Contract.t :=
  match filter (fun c => (id =? Contract.contract_id c)%Z) contracts with
  | [] => None
  | c :: _ => Some c
  end.

(** The FPD month as the specification words it: the next month for a
    registration day up to the 5th, the month after next otherwise. *)
Definition spec_fpd_month (reg : date) : date :=
  to_timestamp (to_period reg + (if (day reg <=? 5)%Z then 1 else 2))%Z.

(** A payment of the contract that falls in the month starting at [m]. *)
Definition pays_in_month (contract : Z) (m : date) (p : Payment.t) : bool :=
  (contract =? Payment.contract_id p)%Z
  && opt_date_is (option_map (fun d => to_timestamp (to_period d)) (Payment.pay_month p)) m.

(** The sum of the payments of a contract that fall in a month. *)
Definition paid_in_month (payments : list Payment.t) (contract : Z) (m : date) : Q :=
  Qsum (map Payment.total_paid (filter (pays_in_month contract m) payments)).

(** The rows of the filtered schedule of a contract at the month starting
    at [m]. *)
Definition schedule_rows_at (vdf : list Vintage.t) (contract : Z) (m : date)
  : list Vintage.t :=
  filter (fun v => (Trend.contract_id (Vintage.row v) =? contract)%Z
                   && date_eqb m (to_timestamp (Trend.month (Vintage.row v))))
         vdf.

Definition fpd_rows_of_contract (contract : Z) (rows : list Fpd.t) : list Fpd.t :=
  filter (fun r => (Fpd.contract_id r =? contract)%Z) rows.



(** A financed contract of 20 days, registered on 2024-01-10, with one
    payment in January: its schedule ends before its FPD month. *)
Definition short_contract : Contract.t :=
  Contract.mk 4 "WakandaSolar" "FINANCED" (Some (mkDate 2024 1 10)) (Some 20%Z)
    10 0 0 "lamp" "solar".

Definition short_payments : list Payment.t :=
  [ Payment.mk 4 (Some (mkDate 2024 1 20)) 100 ].

(** A contract registered on 2025-08-15, after the first month of the
    projection window has begun. *)
Definition late_contract : Contract.t :=
  Contract.mk 5 "WakandaSolar" "FINANCED" (Some (mkDate 2025 8 15)) (Some 90%Z)
    10 0 0 "lamp" "solar".

(** The months of the projection window in which a contract is active. *)
Definition has_active (contracts : list Contract.t) (month : date) : bool :=
  existsb (fun c => active c month) contracts.

(** The projected cash flow of a month: the daily amounts of the active
    contracts times the days of the month, summed and rounded. *)
Definition projected_cashflow (contracts : list Contract.t) (month : date) : Q :=
  round2 (Qsum (map (fun c => Contract.daily_payment_amount_usd c
                              * inject_Z (days_in_month (year month)
                                            (Calendar.month month)))
                    (filter (fun c => active c month) contracts))).

(** A payment whose contract_id is that of no contract. *)
Definition orphan_payments : list Payment.t :=
  [ Payment.mk 7 (Some (mkDate 2024 1 15)) 50 ].

(* ------------------------------------------------------------------ *)
(** ** Further columns and tables of the script *)

(** Lines 51 and 52: [registration_date + MonthBegin(1)], brought to the
    first day of its month. *)
Definition first_full_month (c : Contract.t) : option date :=
  option_map (fun d => to_timestamp (to_period (month_begin 1 d)))
             (Contract.registration_date c).

Module Cumulative.
Record t := mk {
  contract : Contract.t;
  total_paid : Q;
  cumulative_paid : Q
}.
End Cumulative.

Definition cumulative_of (c : Contract.t) (paid : option Q) : Cumulative.t :=
  let total_paid := fillna0 paid in
  Cumulative.mk c total_paid (total_paid + Contract.down_payment_usd c)%Q.

(** Lines 55 to 58: the payments summed per contract, joined onto the
    contracts; [cumulative_paid] adds the down payment. *)
Definition contracts_with_cumulative (contracts : list Contract.t)
    (payments : list Payment.t) : list Cumulative.t :=
  merge_left
    (fun c kv => (Contract.contract_id c =? fst kv)%Z)
    (fun c kv => cumulative_of c (Some (snd kv)))
    (fun c => cumulative_of c None)
    contracts
    (groupby_sum Z.eqb Payment.contract_id Payment.total_paid payments).

(** A payment of the contract dated in the month [m]. *)
Definition pays_in_period (contract : Z) (m : period) (p : Payment.t) : bool :=
  (contract =? Payment.contract_id p)%Z
  && match Payment.pay_month p with
     | Some d => (m =? to_period d)%Z
     | None => false
     end.

(** The sum of the payments of a contract dated in a month. *)
Definition paid_in_period (payments : list Payment.t) (contract : Z) (m : period) : Q :=
  Qsum (map Payment.total_paid (filter (pays_in_period contract m) payments)).

(* ------------------------------------------------------------------ *)
(** ** Sections 6.6 and 6.7: vintage analysis and product summary *)

Definition vintage_key : Type := string * period * Z.

Definition vintage_key_eqb (a b : vintage_key) : bool :=
  let '(c, v, m) := a in
  let '(d, w, n) := b in
  String.eqb c d && (v =? w)%Z && (m =? n)%Z.

Definition vintage_key_of (v : Vintage.t) : option vintage_key :=
  match Vintage.company v, Vintage.vintage v, Vintage.months_on_book v with
  | Some c, Some vi, Some m => Some (c, vi, m)
  | _, _, _ => None
  end.

Definition in_vintage_group (k : vintage_key) (v : Vintage.t) : bool :=
  match vintage_key_of v with
  | Some k' => vintage_key_eqb k k'
  | None => false
  end.

Module VintageAnalysis.
Record t := mk {
  company : string;
  vintage : period;
  months_on_book : Z;
  expected_payment : Q;
  total_paid : Q;
  collection_rate : fval
}.
End VintageAnalysis.

(** Lines 198 to 203: the sums per company, vintage and months on book,
    and their ratio in percent. *)
Definition vintage_analysis_of (vdf : list Vintage.t) : list VintageAnalysis.t :=
  map (fun k =>
         let g := filter (in_vintage_group k) vdf in
         let expected_payment :=
           Qsum (map (fun v => Trend.expected_payment (Vintage.row v)) g) in
         let total_paid :=
           Qsum (map (fun v => Trend.total_paid (Vintage.row v)) g) in
         let '(c, vi, m) := k in
         VintageAnalysis.mk c vi m expected_payment total_paid
           (fround2 (fmul (fdiv total_paid expected_payment) 100)))
      (unique vintage_key_eqb (somes (map vintage_key_of vdf))).

Definition product_key : Type := string * period * string * string.

Definition product_key_eqb (a b : product_key) : bool :=
  let '(c, m, n, f) := a in
  let '(c', m', n', f') := b in
  String.eqb c c' && (m =? m')%Z && String.eqb n n' && String.eqb f f'.

Definition product_key_of (p : Product.t) : option product_key :=
  match Vintage.company (Product.row p), Product.baseunit_productname p,
        Product.product_family p with
  | Some c, Some n, Some f =>
      Some (c, Trend.month (Vintage.row (Product.row p)), n, f)
  | _, _, _ => None
  end.

Definition in_product_group (k : product_key) (p : Product.t) : bool :=
  match product_key_of p with
  | Some k' => product_key_eqb k k'
  | None => false
  end.

Module ProductSummary.
Record t := mk {
  company : string;
  month : period;
  baseunit_productname : string;
  product_family : string;
  expected_payment : Q;
  total_paid : Q;
  collection_rate : fval
}.
End ProductSummary.

(** Lines 212 to 217, on [trend_df] after the merge of line 207: the sums
    per company, month and product, and their ratio in percent.  A row with
    a null in one of the key columns is in no group. *)
Definition product_groups (pdf : list Product.t) : list ProductSummary.t :=
  map (fun k =>
         let g := filter (in_product_group k) pdf in
         let expected_payment :=
           Qsum (map (fun p => Trend.expected_payment
                                 (Vintage.row (Product.row p))) g) in
         let total_paid :=
           Qsum (map (fun p => Trend.total_paid
                                 (Vintage.row (Product.row p))) g) in
         let '(c, m, n, f) := k in
         ProductSummary.mk c m n f expected_payment total_paid
           (fround2 (fmul (fdiv total_paid expected_payment) 100)))
      (unique product_key_eqb (somes (map product_key_of pdf))).

Definition vintage_analysis (raw_contracts : list Contract.t)
    (payments : list Payment.t) : list VintageAnalysis.t :=
  vintage_analysis_of (vintage_trend raw_contracts payments).

(** Lines 206 to 219.  [product_columns] is the test of line 206, that the
    contracts have both product columns; without them the summary is the
    empty table of line 219. *)
Definition product_summary_of (product_columns : bool) (pdf : list Product.t)
  : list ProductSummary.t :=
  if product_columns then product_groups pdf else [].

(** The contracts of this model have both product columns. *)
Definition product_summary (raw_contracts : list Contract.t)
    (payments : list Payment.t) : list ProductSummary.t :=
  product_summary_of true (cash_flow_rows raw_contracts payments).

(* ------------------------------------------------------------------ *)
(** ** The rows of a group *)

Section GroupRows.
Context {A K : Type}.

(** The rows of the group [k] of a [groupby]: those whose key is not null
    and is [k]. *)
Definition in_group (eqb : K -> K -> bool) (key : A -> option K) (k : K)
    (r : A) : bool :=
  match key r with
  | Some k' => eqb k k'
  | None => false
  end.

(** The rows that are in a group at all. *)
Definition has_group (key : A -> option K) (r : A) : bool :=
  match key r with Some _ => true | None => false end.
End GroupRows.

(* ------------------------------------------------------------------ *)
(** ** Section 7: disbursements and the cash-flow table *)

Section Outer.
Context {A B C : Type}.

(** [pd.merge(left, right, how='outer')]: the rows of the left merge, then
    the right rows that no left row matches, with nulls on the left.
    Pandas orders the result by key; line 311 sorts it by the key once
    more, and no two rows have the same key, so that the order taken here
    has no bearing on the table. *)
Definition merge_outer (matchb : A -> B -> bool)
    (both : A -> B -> C) (left_only : A -> C) (right_only : B -> C)
    (left : list A) (right : list B) : list C :=
  merge_left matchb both left_only left right
  ++ map right_only
       (filter (fun b => negb (existsb (fun a => matchb a b) left)) right).

(** The order of [sort_values] on two columns: by the first, and by the
    second among rows equal on the first. *)
Definition lex_leb (eqA lebA : A -> A -> bool) (lebB : B -> B -> bool)
    (a b : A * B) : bool :=
  if eqA (fst a) (fst b) then lebB (snd a) (snd b) else lebA (fst a) (fst b).

Lemma lex_leb_total (eqA lebA : A -> A -> bool) (lebB : B -> B -> bool) :
  (forall x y, eqA x y = true <-> x = y) ->
  (forall x y, lebA x y = true \/ lebA y x = true) ->
  (forall x y, lebB x y = true \/ lebB y x = true) ->
  forall a b, lex_leb eqA lebA lebB a b = true \/ lex_leb eqA lebA lebB b a = true.
Proof.
  intros HA HtA HtB a b. unfold lex_leb.
  destruct (eqA (fst a) (fst b)) eqn:E.
  - apply HA in E. rewrite <- E, (proj2 (HA (fst a) (fst a)) eq_refl). apply HtB.
  - destruct (eqA (fst b) (fst a)) eqn:E'; [|apply HtA].
    apply HA in E'. rewrite E', (proj2 (HA (fst a) (fst a)) eq_refl) in E.
    discriminate.
Qed.
End Outer.

(** The key of the disbursement of a contract: its company and product,
    and the month of its registration; none without a registration date. *)
Definition contract_flow_key (c : Contract.t) : option flow_key :=
  option_map (fun d => (Contract.company c, Contract.product_family c,
                        Contract.baseunit_productname c, to_period d))
             (Contract.registration_date c).

Definition in_disbursement_group (k : flow_key) (c : Contract.t) : bool :=
  match contract_flow_key c with
  | Some k' => flow_key_eqb k k'
  | None => false
  end.

(** Lines 282 to 286: the contract values per company, product and month of
    registration, over the contracts of every type. *)
Definition disbursements_of (contracts : list Contract.t) : list (flow_key * Q) :=
  map (fun k => (k, Qsum (map Contract.contract_value_usd
                              (filter (in_disbursement_group k) contracts))))
      (unique flow_key_eqb (somes (map contract_flow_key contracts))).

(** A row of [cash_flow] before [fillna(0)]. *)
Module Flow.
Record t := mk {
  key : flow_key;
  disbursed_amount : option Q;
  expected_payment : option Q;
  total_paid : option Q
}.
End Flow.

(** Line 309. *)
Definition flow_merge1 (disbursements expected_inflows : list (flow_key * Q))
  : list Flow.t :=
  merge_outer
    (fun d e => flow_key_eqb (fst d) (fst e))
    (fun d e => Flow.mk (fst d) (Some (snd d)) (Some (snd e)) None)
    (fun d => Flow.mk (fst d) (Some (snd d)) None None)
    (fun e => Flow.mk (fst e) None (Some (snd e)) None)
    disbursements expected_inflows.

(** Line 310. *)
Definition flow_merge2 (cash_flow : list Flow.t)
    (actual_inflows : list (flow_key * Q)) : list Flow.t :=
  merge_outer
    (fun x a => flow_key_eqb (Flow.key x) (fst a))
    (fun x a => Flow.mk (Flow.key x) (Flow.disbursed_amount x)
                  (Flow.expected_payment x) (Some (snd a)))
    (fun x => Flow.mk (Flow.key x) (Flow.disbursed_amount x)
                (Flow.expected_payment x) None)
    (fun a => Flow.mk (fst a) None None (Some (snd a)))
    cash_flow actual_inflows.

Definition product_t : Type := string * string * string.

Definition product_eqb (a b : product_t) : bool :=
  let '(c, f, n) := a in
  let '(c', f', n') := b in
  String.eqb c c' && String.eqb f f' && String.eqb n n'.

Definition string2_eqb (a b : string * string) : bool :=
  String.eqb (fst a) (fst b) && String.eqb (snd a) (snd b).

Lemma string2_eqb_spec a b : string2_eqb a b = true <-> a = b.
Proof.
  destruct a as [c f], b as [c' f']. unfold string2_eqb. cbn [fst snd].
  rewrite Bool.andb_true_iff, !String.eqb_eq. split.
  - intros [-> ->]. reflexivity.
  - intros E. inversion E. auto.
Qed.

Lemma product_eqb_spec a b : product_eqb a b = true <-> a = b.
Proof.
  destruct a as [[c f] n], b as [[c' f'] n']. unfold product_eqb.
  rewrite !Bool.andb_true_iff, !String.eqb_eq. split.
  - intros [[-> ->] ->]. reflexivity.
  - intros E. inversion E. auto.
Qed.

(** The order of [sort_values(['company', 'product_family',
    'baseunit_productname', 'month'])]. *)
Definition product_leb : product_t -> product_t -> bool :=
  lex_leb string2_eqb (lex_leb String.eqb String.leb String.leb) String.leb.

Definition flow_key_leb : flow_key -> flow_key -> bool :=
  lex_leb product_eqb product_leb Z.leb.

Definition flow_leb (a b : Flow.t) : bool :=
  flow_key_leb (Flow.key a) (Flow.key b).

Lemma flow_leb_total a b : flow_leb a b = true \/ flow_leb b a = true.
Proof.
  unfold flow_leb, flow_key_leb, product_leb.
  apply lex_leb_total.
  - apply product_eqb_spec.
  - apply lex_leb_total.
    + apply string2_eqb_spec.
    + apply lex_leb_total; [apply String.eqb_eq | apply String.leb_total
                            | apply String.leb_total].
    + apply String.leb_total.
  - intros x y. destruct (Z.leb_spec x y); [now left|].
    right. apply Z.leb_le. lia.
Qed.

Module FlowOrder <: Orders.TotalLeBool.
Definition t := Flow.t.
Definition leb := flow_leb.
Definition leb_total := flow_leb_total.
End FlowOrder.

Module FlowSort := Sort FlowOrder.

Module CashFlow.
Record t := mk {
  company : string;
  product_family : string;
  baseunit_productname : string;
  month : period;
  disbursed_amount : Q;
  expected_payment : Q;
  total_paid : Q;
  net_cash_flow : Q;
  cumulative_net_cash_flow : Q
}.
Definition key (r : t) : flow_key :=
  (company r, product_family r, baseunit_productname r, month r).
Definition product (r : t) : product_t :=
  (company r, product_family r, baseunit_productname r).
End CashFlow.

(** Line 314, on a row with its nulls: [total_paid - disbursed_amount]
    after [fillna(0)]. *)
Definition net_of (x : Flow.t) : Q :=
  fillna0 (Flow.total_paid x) - fillna0 (Flow.disbursed_amount x).

Definition cash_flow_row (x : Flow.t) (cumulative : Q) : CashFlow.t :=
  let '(c, f, n, m) := Flow.key x in
  CashFlow.mk c f n m
    (fillna0 (Flow.disbursed_amount x)) (fillna0 (Flow.expected_payment x))
    (fillna0 (Flow.total_paid x)) (net_of x) cumulative.

(** Lines 309 to 317. *)
Definition cash_flow_of (disbursements expected_inflows actual_inflows
                         : list (flow_key * Q)) : list CashFlow.t :=
  let sorted :=
    FlowSort.sort (flow_merge2 (flow_merge1 disbursements expected_inflows)
                     actual_inflows) in
  let cumulative :=
    group_cumsum product_eqb (fun x => fst (Flow.key x)) net_of [] sorted in
  map (fun xq => cash_flow_row (fst xq) (snd xq)) (combine sorted cumulative).

Definition disbursements (raw_contracts : list Contract.t) : list (flow_key * Q) :=
  disbursements_of (contracts_df raw_contracts).

Definition cash_flow (raw_contracts : list Contract.t)
    (payments : list Payment.t) : list CashFlow.t :=
  cash_flow_of (disbursements raw_contracts)
    (expected_inflows raw_contracts payments)
    (actual_inflows raw_contracts payments).

(** The amount of a key in a table of keys and amounts; null where the
    table has no row of the key. *)
Definition amount_of (table : list (flow_key * Q)) (k : flow_key) : option Q :=
  match filter (fun kv => flow_key_eqb k (fst kv)) table with
  | [] => None
  | kv :: _ => Some (snd kv)
  end.

(* ------------------------------------------------------------------ *)
(** * Properties *)

Local Close Scope Q_scope.
Local Open Scope Z_scope.

Ltac split_ifs :=
  repeat match goal with
         | |- context [if ?b then _ else _] => destruct b eqn:?
         end.

(** ** The calendar *)

Lemma days_from_civil_unfold y m d :
  days_from_civil (mkDate y m d)
  = year_start (if m <=? 2 then y - 1 else y)
    + (153 * (if m >? 2 then m - 3 else m + 9) + 2) / 5 + d - 1.
Proof. unfold days_from_civil, year_start; cbn [year month day]. lia. Qed.

Lemma year_start_succ y :
  year_start y - year_start (y - 1) = if is_leap y then 366 else 365.
Proof.
  unfold year_start, is_leap.
  destruct (y mod 4 =? 0) eqn:E4; destruct (y mod 100 =? 0) eqn:E100;
    destruct (y mod 400 =? 0) eqn:E400; cbn [andb orb negb];
    Z.div_mod_to_equations; lia.
Qed.

Lemma period_month_range p : 1 <= period_month p <= 12.
Proof. unfold period_month. pose proof (Z.mod_pos_bound p 12). lia. Qed.

Lemma to_period_to_timestamp p : to_period (to_timestamp p) = p.
Proof.
  unfold to_period, to_timestamp, period_year, period_month; cbn [year month day].
  pose proof (Z.div_mod p 12 ltac:(lia)). lia.
Qed.

(** A month has as many days as lie between its first day and the first
    day of the next month. *)
Lemma days_in_month_spec p :
  days_from_civil (to_timestamp (p + 1)) - days_from_civil (to_timestamp p)
  = period_days_in_month p.
Proof.
  unfold period_days_in_month, to_timestamp. rewrite !days_from_civil_unfold.
  unfold period_year, period_month, days_in_month.
  assert (Hc : (p mod 12 < 11 /\ (p + 1) mod 12 = p mod 12 + 1 /\ (p + 1) / 12 = p / 12)
            \/ (p mod 12 = 11 /\ (p + 1) mod 12 = 0 /\ (p + 1) / 12 = p / 12 + 1)).
  { Z.div_mod_to_equations. lia. }
  assert (Hm : 0 <= p mod 12 < 12) by (apply Z.mod_pos_bound; lia).
  pose proof (year_start_succ (1970 + p / 12)) as Hy.
  destruct Hc as [(H1 & H2 & H3) | (H1 & H2 & H3)]; rewrite H2, H3.
  - set (y := 1970 + p / 12) in *. clearbody y.
    set (k := p mod 12) in *. clearbody k. clear H2 H3.
    assert (Hk : k = 0 \/ k = 1 \/ k = 2 \/ k = 3 \/ k = 4 \/ k = 5 \/ k = 6
                 \/ k = 7 \/ k = 8 \/ k = 9 \/ k = 10) by lia.
    destruct Hk as [-> | [-> | [-> | [-> | [-> | [-> | [-> | [-> | [-> | [-> | ->]]]]]]]]]];
      split_ifs; try lia; try (Z.div_mod_to_equations; lia).
  - replace (1970 + (p / 12 + 1)) with (1970 + p / 12 + 1) by lia.
    set (y := 1970 + p / 12) in *. clearbody y. rewrite H1.
    split_ifs; try lia; try (Z.div_mod_to_equations; lia).
    all: replace (y + 1 - 1) with y by lia; Z.div_mod_to_equations; lia.
Qed.

Section CivilFromDays.
Variable z : Z.
Let z' := z + 719468.
Let era := z' / 146097.
Let doe := z' - era * 146097.
Let yoe := (doe - doe / 1460 + doe / 36524 - doe / 146096) / 365.
Let doy := doe - (365 * yoe + yoe / 4 - yoe / 100).
Let mp := (5 * doy + 2) / 153.

Lemma doe_range : 0 <= doe < 146097.
Proof. subst doe era. Z.div_mod_to_equations. lia. Qed.

Lemma yoe_range : 0 <= yoe < 400.
Proof. pose proof doe_range. subst yoe. Z.div_mod_to_equations; lia. Qed.

Lemma doy_range : 0 <= doy <= 365.
Proof. pose proof doe_range. subst doy yoe. Z.div_mod_to_equations; lia. Qed.

Lemma mp_range : 0 <= mp <= 11.
Proof. pose proof doy_range. subst mp. Z.div_mod_to_equations; lia. Qed.

Lemma civil_from_days_eq :
  civil_from_days z =
  mkDate (if (if mp <? 10 then mp + 3 else mp - 9) <=? 2
          then yoe + era * 400 + 1 else yoe + era * 400)
         (if mp <? 10 then mp + 3 else mp - 9)
         (doy - (153 * mp + 2) / 5 + 1).
Proof. reflexivity. Qed.

(** The date of a day number has that day number. *)
Lemma days_from_civil_from_days : days_from_civil (civil_from_days z) = z.
Proof.
  rewrite civil_from_days_eq, days_from_civil_unfold.
  pose proof yoe_range. pose proof mp_range.
  assert (Hy : (if (if mp <? 10 then mp + 3 else mp - 9) <=? 2
                then (if (if mp <? 10 then mp + 3 else mp - 9) <=? 2
                      then yoe + era * 400 + 1 else yoe + era * 400) - 1
                else if (if mp <? 10 then mp + 3 else mp - 9) <=? 2
                     then yoe + era * 400 + 1 else yoe + era * 400)
               = yoe + era * 400) by (split_ifs; lia).
  assert (Hm : (if (if mp <? 10 then mp + 3 else mp - 9) >? 2
                then (if mp <? 10 then mp + 3 else mp - 9) - 3
                else (if mp <? 10 then mp + 3 else mp - 9) + 9) = mp)
    by (split_ifs; lia).
  rewrite Hy, Hm. unfold year_start.
  assert (Hera : (yoe + era * 400) / 400 = era) by (Z.div_mod_to_equations; lia).
  rewrite Hera. replace (yoe + era * 400 - era * 400) with yoe by lia.
  subst doy doe z'. lia.
Qed.

(** It is a date of the calendar. *)
Lemma civil_from_days_valid : valid_date (civil_from_days z) = true.
Proof.
  rewrite civil_from_days_eq. unfold valid_date, days_in_month, is_leap.
  cbn [year month day]. rewrite !Bool.andb_true_iff, !Z.leb_le.
  pose proof yoe_range. pose proof mp_range. pose proof doy_range.
  assert (Hk : mp = 0 \/ mp = 1 \/ mp = 2 \/ mp = 3 \/ mp = 4 \/ mp = 5 \/ mp = 6
               \/ mp = 7 \/ mp = 8 \/ mp = 9 \/ mp = 10 \/ mp = 11) by lia.
  assert (Hmp : 153 * mp <= 5 * doy + 2 < 153 * mp + 153)
    by (subst mp; Z.div_mod_to_equations; lia).
  assert (Hleap : doy = 365 ->
                  (yoe + 1) mod 4 = 0
                  /\ ((yoe + 1) mod 100 <> 0 \/ (yoe + 1) mod 400 = 0)).
  { pose proof doe_range. subst doy yoe. intros. Z.div_mod_to_equations; lia. }
  clearbody mp doy yoe era.
  destruct Hk as [-> | [-> | [-> | [-> | [-> | [-> | [-> | [-> | [-> | [-> | [-> | ->]]]]]]]]]]];
    split_ifs; try (Z.div_mod_to_equations; lia).
  change (11 - 9 <=? 2) with true in *. cbv iota in *.
  apply Bool.orb_false_iff in Heqb1 as [Ha Hb]. apply Z.eqb_neq in Hb.
  apply Bool.andb_false_iff in Ha.
  rewrite Z.eqb_neq, Bool.negb_false_iff, Z.eqb_eq in Ha.
  destruct (Z.eq_dec doy 365) as [E|E].
  - exfalso. destruct (Hleap E) as [L4 L100]. clear Hleap.
    Z.div_mod_to_equations; lia.
  - clear Hleap Ha Hb. Z.div_mod_to_equations; lia.
Qed.
End CivilFromDays.

(** Adding [n] days moves the day number by [n]. *)
Lemma add_days_spec d n :
  days_from_civil (add_days d n) = days_from_civil d + n
  /\ valid_date (add_days d n) = true.
Proof.
  unfold add_days. split.
  - apply days_from_civil_from_days.
  - apply civil_from_days_valid.
Qed.

(** [MonthBegin(n)] with [n] positive moves to the first day of the [n]-th
    next month, wherever in the month the date is. *)
Lemma month_begin_spec n d :
  0 < n -> 1 <= month d <= 12 -> 1 <= day d ->
  replace_day1 (month_begin n d) = to_timestamp (to_period d + n).
Proof.
  intros Hn Hm Hd.
  unfold month_begin, roll_convention, replace_day1, shift_month_start,
    to_timestamp, to_period, period_year, period_month.
  replace ((0 <? n) && (day d <? 1)) with false by lia.
  replace ((n <=? 0) && (day d >? 1)) with false by lia.
  cbn [year month day]. f_equal.
  - split_ifs; Z.div_mod_to_equations; lia.
  - split_ifs; Z.div_mod_to_equations; lia.
Qed.

(** ** Lists and tables *)

Section UniqueFacts.
Context {K : Type} (eqb : K -> K -> bool).
Hypothesis eqb_spec : forall x y, eqb x y = true <-> x = y.

Lemma eqb_refl_true x : eqb x x = true.
Proof. now apply eqb_spec. Qed.

Lemma unique_In x l : In x (unique eqb l) <-> In x l.
Proof.
  induction l as [|a l IH]; cbn [unique]; [reflexivity|].
  cbn [In]. rewrite filter_In, IH. split.
  - intros [H | [H _]]; auto.
  - intros [H | H]; [now left|].
    destruct (eqb a x) eqn:E.
    + left. now apply eqb_spec.
    + right. now split.
Qed.

Lemma unique_NoDup l : NoDup (unique eqb l).
Proof.
  induction l as [|a l IH]; cbn [unique]; constructor.
  - rewrite filter_In. intros [_ H]. now rewrite eqb_refl_true in H.
  - now apply NoDup_filter.
Qed.

(** A key that occurs once selects at most one row. *)
Lemma filter_unique_key {A : Type} (key : A -> K) k (l : list A) :
  NoDup (map key l) ->
  (List.length (filter (fun a => eqb k (key a)) l) <= 1)%nat.
Proof.
  induction l as [|a l IH]; cbn [map filter]; intros Hnd; [cbn; lia|].
  inversion Hnd as [|? ? Hnotin Hnd']; subst.
  destruct (eqb k (key a)) eqn:E; [|auto].
  apply eqb_spec in E. subst k.
  replace (filter (fun a0 => eqb (key a) (key a0)) l) with (@nil A); [cbn; lia|].
  symmetry. apply List.length_zero_iff_nil.
  destruct (filter (fun a0 => eqb (key a) (key a0)) l) as [|b m] eqn:F; [reflexivity|].
  exfalso. assert (Hb : In b (filter (fun a0 => eqb (key a) (key a0)) l))
    by (rewrite F; now left).
  apply filter_In in Hb as [Hb1 Hb2]. apply eqb_spec in Hb2.
  apply Hnotin. rewrite Hb2. now apply in_map.
Qed.
End UniqueFacts.

Section MergeFacts.
Context {A B C : Type}.
Variable matchb : A -> B -> bool.
Variable both : A -> B -> C.
Variable left_only : A -> C.

Lemma merge_left_one_match left right :
  (forall a, In a left -> (List.length (filter (matchb a) right) <= 1)%nat) ->
  merge_left matchb both left_only left right
  = map (merged_row matchb both left_only right) left.
Proof.
  unfold merge_left.
  set (f := fun a => match filter (matchb a) right with
                     | [] => [left_only a]
                     | ms => map (both a) ms
                     end).
  induction left as [|a left IH]; intros H; [reflexivity|].
  cbn [flat_map map]. rewrite IH by (intros; apply H; now right).
  specialize (H a (or_introl eq_refl)). unfold f, merged_row.
  destruct (filter (matchb a) right) as [|b [|b' m]]; cbn in *; try reflexivity; lia.
Qed.

Lemma merge_left_In c left right :
  In c (merge_left matchb both left_only left right) ->
  exists a, In a left /\
            (c = left_only a /\ filter (matchb a) right = []
             \/ exists b, In b right /\ matchb a b = true /\ c = both a b).
Proof.
  unfold merge_left. rewrite in_flat_map. intros (a & Ha & Hc).
  exists a. split; [assumption|].
  destruct (filter (matchb a) right) as [|b m] eqn:F.
  - left. destruct Hc as [<- | []]. now split.
  - right. apply in_map_iff in Hc as (b' & <- & Hb').
    rewrite <- F in Hb'. apply filter_In in Hb' as [? ?]. now exists b'.
Qed.

Lemma merge_inner_In c left right :
  In c (merge_inner matchb both left right) <->
  exists a b, In a left /\ In b right /\ matchb a b = true /\ c = both a b.
Proof.
  unfold merge_inner. rewrite in_flat_map. split.
  - intros (a & Ha & Hc). apply in_map_iff in Hc as (b & <- & Hb).
    apply filter_In in Hb as [? ?]. now exists a, b.
  - intros (a & b & Ha & Hb & Hm & ->). exists a. split; [assumption|].
    apply in_map. now apply filter_In.
Qed.
End MergeFacts.

Lemma filter_map_swap {A B : Type} (f : A -> B) (p : B -> bool) (l : list A) :
  filter p (map f l) = map f (filter (fun a => p (f a)) l).
Proof.
  induction l as [|a l IH]; cbn; [reflexivity|].
  destruct (p (f a)); cbn; now rewrite IH.
Qed.

Lemma filter_none {A : Type} (p : A -> bool) (l : list A) :
  (forall a, In a l -> p a = false) -> filter p l = [].
Proof.
  induction l as [|a l IH]; intros H; cbn; [reflexivity|].
  rewrite (H a (or_introl eq_refl)). apply IH. intros; apply H; now right.
Qed.

Lemma filter_all {A : Type} (p : A -> bool) (l : list A) :
  (forall a, In a l -> p a = true) -> filter p l = l.
Proof.
  induction l as [|a l IH]; intros H; cbn; [reflexivity|].
  rewrite (H a (or_introl eq_refl)). f_equal. apply IH. intros; apply H; now right.
Qed.

(** The rows that a list of distinct contracts produces, filtered by the
    contract_id of one of them, are the rows of that one. *)
Lemma filter_flat_map_contract {R : Type} (rid : R -> Z)
    (f : Contract.t -> list R) (cs : list Contract.t) (c : Contract.t) :
  (forall c' r, In r (f c') -> rid r = Contract.contract_id c') ->
  NoDup (map Contract.contract_id cs) -> In c cs ->
  filter (fun r => rid r =? Contract.contract_id c) (flat_map f cs) = f c.
Proof.
  intros Hf. induction cs as [|a cs IH]; intros Hnd Hin; [destruct Hin|].
  cbn [flat_map]. rewrite filter_app.
  inversion Hnd as [|? ? Hnotin Hnd']; subst.
  destruct Hin as [-> | Hin].
  - rewrite filter_all, filter_none, app_nil_r; [reflexivity| |].
    + intros r Hr. apply in_flat_map in Hr as (c' & Hc' & Hr).
      apply Z.eqb_neq. rewrite (Hf _ _ Hr). intros E. apply Hnotin.
      rewrite <- E. now apply in_map.
    + intros r Hr. apply Z.eqb_eq. now apply Hf.
  - rewrite IH by assumption. rewrite filter_none; [reflexivity|].
    intros r Hr. apply Z.eqb_neq. rewrite (Hf _ _ Hr). intros E.
    apply Hnotin. rewrite E. now apply in_map.
Qed.

Lemma drop_duplicates_incl l c : In c (drop_duplicates l) -> In c l.
Proof.
  induction l as [|a l IH]; cbn [drop_duplicates]; [auto|].
  intros [<- | H]; [now left|]. apply filter_In in H as [H _]. right; auto.
Qed.

(** After line 38 a contract_id names one contract. *)
Lemma drop_duplicates_NoDup l :
  NoDup (map Contract.contract_id (drop_duplicates l)).
Proof.
  induction l as [|a l IH]; cbn [drop_duplicates map]; constructor.
  - rewrite in_map_iff. intros (c & E & H). apply filter_In in H as [_ H].
    rewrite E, Z.eqb_refl in H. discriminate.
  - clear -IH. induction (drop_duplicates l) as [|b m IHm]; cbn; [constructor|].
    inversion IH; subst.
    destruct (negb (Contract.contract_id a =? Contract.contract_id b)); cbn; auto.
    constructor; auto. rewrite in_map_iff. intros (c & E & H).
    apply filter_In in H as [H _]. apply H1. rewrite <- E. now apply in_map.
Qed.

Lemma row_key_eqb_spec (a b : row_key) : row_key_eqb a b = true <-> a = b.
Proof.
  destruct a as [[i c] m], b as [[j d] n]. unfold row_key_eqb.
  rewrite !Bool.andb_true_iff, !Z.eqb_eq, String.eqb_eq. split.
  - intros [[-> ->] ->]. reflexivity.
  - intros E. inversion E. auto.
Qed.

Lemma period_range_In s e m : In m (period_range s e) <-> s <= m <= e.
Proof.
  unfold period_range. rewrite in_map_iff. split.
  - intros (k & <- & Hk). apply in_seq in Hk. lia.
  - intros H. exists (Z.to_nat (m - s)). split; [lia|]. apply in_seq. lia.
Qed.

Lemma period_range_NoDup s e : NoDup (period_range s e).
Proof.
  unfold period_range. generalize (Z.to_nat (e - s + 1)) as n, 0%nat as k.
  induction n as [|n IH]; intros k; cbn [seq map]; constructor.
  - rewrite in_map_iff. intros (j & E & Hj). apply in_seq in Hj. lia.
  - apply IH.
Qed.

(** ** The schedule *)

Lemma actual_df_keys_NoDup pays : NoDup (map fst (actual_df pays)).
Proof.
  unfold actual_df. rewrite map_map. cbn [fst]. rewrite map_id.
  apply unique_NoDup, row_key_eqb_spec.
Qed.

(** The left merge of line 94 keeps every expected row once. *)
Lemma schedule_as_map contracts pays :
  schedule contracts pays
  = map (merged_row (fun e a => row_key_eqb (expected_key e) (fst a))
           (fun e a => trend_of e (Some (snd a)))
           (fun e => trend_of e None) (actual_df pays))
        (expected_rows contracts).
Proof.
  unfold schedule. apply merge_left_one_match. intros e _.
  apply (filter_unique_key row_key_eqb row_key_eqb_spec fst).
  apply actual_df_keys_NoDup.
Qed.

Lemma merged_trend_row pays e :
  exists paid,
    merged_row (fun e a => row_key_eqb (expected_key e) (fst a))
      (fun e a => trend_of e (Some (snd a)))
      (fun e => trend_of e None) (actual_df pays) e
    = trend_of e paid.
Proof.
  unfold merged_row.
  destruct (filter _ (actual_df pays)) as [|a m]; eauto.
Qed.

Lemma expected_rows_of_contract_id c e :
  In e (expected_rows_of c) -> Expected.contract_id e = Contract.contract_id c.
Proof.
  unfold expected_rows_of.
  destruct (start_month c), (end_month c); try (intros []).
  rewrite in_map_iff. intros (m & <- & _). reflexivity.
Qed.

Lemma schedule_rows_of_contract contracts pays c :
  NoDup (map Contract.contract_id contracts) -> In c contracts ->
  map Trend.month (rows_of_contract (Contract.contract_id c) (schedule contracts pays))
  = map Expected.month (expected_rows_of c).
Proof.
  intros Hnd Hin. unfold rows_of_contract.
  rewrite schedule_as_map, filter_map_swap, map_map.
  set (g := merged_row _ _ _ _).
  assert (Hg : forall e, Trend.contract_id (g e) = Expected.contract_id e
                         /\ Trend.month (g e) = Expected.month e).
  { intros e. destruct (merged_trend_row pays e) as [paid E].
    unfold g. rewrite E. split; reflexivity. }
  rewrite (filter_ext _ (fun e => Expected.contract_id e =? Contract.contract_id c))
    by (intros e; now rewrite (proj1 (Hg e))).
  unfold expected_rows.
  rewrite (filter_flat_map_contract Expected.contract_id expected_rows_of)
    by (auto using expected_rows_of_contract_id).
  apply map_ext. intros e. apply Hg.
Qed.

Lemma expected_rows_of_months c s e :
  start_month c = Some s -> end_month c = Some e ->
  map Expected.month (expected_rows_of c) = period_range s e.
Proof.
  intros Hs He. unfold expected_rows_of. rewrite Hs, He, map_map. cbn.
  apply map_id.
Qed.

Lemma expected_rows_of_null c :
  start_month c = None \/ end_month c = None -> expected_rows_of c = [].
Proof.
  unfold expected_rows_of. intros [-> | ->]; [reflexivity|].
  now destruct (start_month c).
Qed.



(** C9, the claim as stated fails: the tenor-end month of the example is
    not April 2024. *)
Lemma C9_end_month_is_not_april :
  end_month example_contract <> Some april_2024.
Proof. vm_compute. discriminate. Qed.

(** C9, amended. For a contract of 10 a day registered on 2024-01-01 for
    90 days, whatever its other fields, the date 90 days after registration
    is 2024-03-31, the tenor-end month is March 2024, and the schedule has
    the rows January 310.00, February 290.00 and March 310.00. *)
Theorem C9_example_ends_in_march id company ctype down value name family :
  let c := Contract.mk id company ctype (Some (mkDate 2024 1 1)) (Some 90)
             10%Q down value name family in
  add_days (mkDate 2024 1 1) 90 = mkDate 2024 3 31
  /\ end_month c = Some march_2024
  /\ map (fun e => (Expected.month e, Expected.expected_payment e))
         (expected_rows_of c)
     = [ (january_2024, (31000 # 100)%Q);
         (january_2024 + 1, (29000 # 100)%Q);
         (march_2024, (31000 # 100)%Q) ]
  /\ ((31000 # 100) == 310)%Q.
Proof.
  cbv zeta. repeat split.
Qed.

(** ** The consecutive-miss counter *)

Lemma update_length {A : Type} i (v : A) col :
  List.length (update i v col) = List.length col.
Proof.
  revert i; induction col as [|x col IH]; intros [|i]; cbn; auto.
Qed.

Lemma nth_update_eq {A : Type} i (v d : A) col :
  (i < List.length col)%nat -> nth i (update i v col) d = v.
Proof.
  revert i; induction col as [|x col IH]; intros [|i] H; cbn in *; try lia; auto.
  apply IH. lia.
Qed.

Lemma nth_update_neq {A : Type} i j (v d : A) col :
  i <> j -> nth j (update i v col) d = nth j col d.
Proof.
  revert i j; induction col as [|x col IH]; intros [|i] [|j] H; cbn; auto; try lia.
Qed.

(** The code's loop body next to the counter of the specification: a month
    is missed exactly when it did not meet its expected payment. *)
Lemma missed_payment_not_met r : missed_payment r = negb (payment_met r).
Proof. reflexivity. Qed.

(** The inner loop writes the counter at the positions it visits and
    nothing elsewhere. *)
Lemma walk_spec flags idxs : forall missed col,
  NoDup idxs -> (forall i, In i idxs -> (i < List.length col)%nat) ->
  map (fun i => nth i (walk flags idxs missed col) 0) idxs
  = spec_miss_counter missed (map (fun i => negb (nth i flags false)) idxs)
  /\ (forall j, ~ In j idxs -> nth j (walk flags idxs missed col) 0 = nth j col 0)
  /\ List.length (walk flags idxs missed col) = List.length col.
Proof.
  induction idxs as [|i idxs IH]; intros missed col Hnd Hlt; cbn [walk map].
  - repeat split.
  - inversion Hnd as [|? ? Hnotin Hnd']; subst.
    set (missed' := if nth i flags false then missed + 1 else 0).
    destruct (IH missed' (update i missed' col) Hnd') as (Hvals & Hkeep & Hlen).
    { intros j Hj. rewrite update_length. apply Hlt. now right. }
    rewrite update_length in Hlen.
    split; [|split; [|assumption]].
    + cbn [spec_miss_counter].
      replace (if negb (nth i flags false) then 0 else missed + 1) with missed'
        by (unfold missed'; now destruct (nth i flags false)).
      f_equal; [|assumption].
      rewrite (Hkeep i Hnotin). apply nth_update_eq. apply Hlt. now left.
    + intros j Hj. rewrite Hkeep by (intros H; apply Hj; now right).
      apply nth_update_neq. intros ->. apply Hj. now left.
Qed.

Section Positions.
Variable contract : Z.

Let selected (r : Trend.t) : bool := Trend.contract_id r =? contract.

Let positions_from (k : nat) (rows : list Trend.t) : list nat :=
  map fst (filter (fun ir : nat * Trend.t => selected (snd ir))
                  (combine (seq k (List.length rows)) rows)).

Lemma positions_from_cons k r rows :
  positions_from k (r :: rows)
  = (if selected r then [k] else []) ++ positions_from (S k) rows.
Proof.
  unfold positions_from. cbn [List.length seq combine filter snd].
  destruct (selected r); reflexivity.
Qed.

Lemma positions_from_bounds rows : forall k i,
  In i (positions_from k rows) ->
  (k <= i < k + List.length rows)%nat
  /\ nth (i - k) (map Trend.contract_id rows) (contract + 1) = contract.
Proof.
  induction rows as [|r rows IH]; intros k i; [intros []|].
  rewrite positions_from_cons, in_app_iff. intros [H | H].
  - unfold selected in H. destruct (Z.eqb_spec (Trend.contract_id r) contract);
      [|destruct H]. destruct H as [<- | []].
    rewrite Nat.sub_diag. cbn. split; [lia|assumption].
  - apply IH in H as [H1 H2]. cbn [List.length map]. split; [lia|].
    replace (i - k)%nat with (S (i - S k)) by lia. exact H2.
Qed.

Lemma positions_from_NoDup rows : forall k, NoDup (positions_from k rows).
Proof.
  induction rows as [|r rows IH]; intros k; [constructor|].
  rewrite positions_from_cons. destruct (selected r); cbn [app]; [|apply IH].
  constructor; [|apply IH]. intros H. apply positions_from_bounds in H. lia.
Qed.

(** A column read at the positions of the contract is the column of the
    rows of the contract. *)
Lemma positions_from_column {X : Type} (d : X) rows : forall k (xs : list X),
  List.length xs = List.length rows ->
  map snd (filter (fun x : Trend.t * X => selected (fst x)) (combine rows xs))
  = map (fun i => nth (i - k) xs d) (positions_from k rows).
Proof.
  induction rows as [|r rows IH]; intros k [|x xs] Hlen; cbn in Hlen;
    try discriminate; [reflexivity|].
  rewrite positions_from_cons, map_app. cbn [combine filter fst].
  assert (Htail : map (fun i => nth (i - k) (x :: xs) d) (positions_from (S k) rows)
                  = map (fun i => nth (i - S k) xs d) (positions_from (S k) rows)).
  { apply map_ext_in. intros i Hi. apply positions_from_bounds in Hi.
    replace (i - k)%nat with (S (i - S k)) by lia. reflexivity. }
  rewrite Htail, <- (IH (S k) xs) by lia.
  destruct (selected r); cbn [map app snd]; [|reflexivity].
  now rewrite Nat.sub_diag.
Qed.

Lemma positions_from_rows rows : forall (X : Type) (xs : list X),
  List.length xs = List.length rows ->
  map fst (filter (fun x : Trend.t * X => selected (fst x)) (combine rows xs))
  = filter selected rows.
Proof.
  induction rows as [|r rows IH]; intros X [|x xs] Hlen; cbn in Hlen;
    try discriminate; [reflexivity|].
  cbn [combine filter fst]. destruct (selected r); cbn [map fst];
    rewrite IH by lia; reflexivity.
Qed.

Lemma index_of_contract_eq rows :
  index_of_contract contract rows = positions_from 0 rows.
Proof. reflexivity. Qed.

Lemma index_of_contract_flags rows :
  map (fun i => nth i (map missed_payment rows) false)
      (index_of_contract contract rows)
  = map missed_payment (rows_of_contract contract rows).
Proof.
  rewrite index_of_contract_eq. unfold rows_of_contract. fold selected.
  rewrite <- (positions_from_rows rows bool (map missed_payment rows))
    by apply length_map.
  rewrite (map_ext (fun i => nth i (map missed_payment rows) false)
                   (fun i => nth (i - 0) (map missed_payment rows) false))
    by (intros; now rewrite Nat.sub_0_r).
  rewrite <- (positions_from_column false rows 0) by apply length_map.
  generalize 0%nat. clear. induction rows as [|r rows IH]; intros k; [reflexivity|].
  cbn [map combine filter fst]. destruct (selected r); cbn [map fst snd];
    now rewrite IH.
Qed.
End Positions.

Lemma index_of_contract_In c rows i :
  In i (index_of_contract c rows) ->
  (i < List.length rows)%nat
  /\ nth i (map Trend.contract_id rows) (c + 1) = c.
Proof.
  rewrite index_of_contract_eq. intros H.
  apply positions_from_bounds in H as [H1 H2]. rewrite Nat.sub_0_r in H2.
  split; [lia|assumption].
Qed.

Lemma index_of_contract_disjoint c c' rows i :
  c <> c' -> In i (index_of_contract c rows) -> ~ In i (index_of_contract c' rows).
Proof.
  intros Hne H H'. apply index_of_contract_In in H as [Hlt H].
  apply index_of_contract_In in H' as [_ H'].
  rewrite (nth_indep _ (c + 1) (c' + 1)) in H by (now rewrite length_map).
  congruence.
Qed.

Lemma index_of_contract_met c rows :
  map (fun i => negb (nth i (map missed_payment rows) false))
      (index_of_contract c rows)
  = map payment_met (rows_of_contract c rows).
Proof.
  rewrite <- (map_map (fun i => nth i (map missed_payment rows) false) negb).
  rewrite index_of_contract_flags, map_map. apply map_ext. intros r.
  rewrite missed_payment_not_met. apply Bool.negb_involutive.
Qed.

(** The outer loop: after all contracts are walked, the column holds at
    the positions of every walked contract its counter. *)
Lemma walk_all_spec rows : forall contracts col,
  NoDup contracts -> List.length col = List.length rows ->
  let final :=
    fold_left (fun col contract =>
                 walk (map missed_payment rows) (index_of_contract contract rows) 0 col)
              contracts col in
  (forall c, In c contracts ->
     map (fun i => nth i final 0) (index_of_contract c rows)
     = spec_miss_counter 0 (map payment_met (rows_of_contract c rows)))
  /\ (forall j, (forall c, In c contracts -> ~ In j (index_of_contract c rows)) ->
        nth j final 0 = nth j col 0)
  /\ List.length final = List.length rows.
Proof.
  induction contracts as [|a contracts IH]; intros col Hnd Hlen; cbn [fold_left].
  - repeat split; [intros c []|assumption].
  - inversion Hnd as [|? ? Hnotin Hnd']; subst.
    destruct (walk_spec (map missed_payment rows) (index_of_contract a rows) 0 col)
      as (Hvals & Hkeep & Hlen').
    { rewrite index_of_contract_eq. apply positions_from_NoDup. }
    { intros i Hi. apply index_of_contract_In in Hi. lia. }
    destruct (IH (walk (map missed_payment rows) (index_of_contract a rows) 0 col)
                Hnd' ltac:(lia)) as (IHvals & IHkeep & IHlen).
    split; [|split; [|assumption]].
    + intros c [<- | Hc]; [|now apply IHvals].
      rewrite (map_ext_in _ (fun i => nth i (walk (map missed_payment rows)
                                              (index_of_contract a rows) 0 col) 0)).
      * rewrite Hvals. f_equal. apply index_of_contract_met.
      * intros i Hi. apply IHkeep. intros c Hc.
        apply (index_of_contract_disjoint a c); [|assumption].
        intros ->. contradiction.
    + intros j Hj. rewrite IHkeep by (intros c Hc; apply Hj; now right).
      apply Hkeep. apply Hj. now left.
Qed.

Lemma consec_missed_length rows :
  List.length (consec_missed rows) = List.length rows.
Proof.
  unfold consec_missed.
  apply (walk_all_spec rows (unique Z.eqb (map Trend.contract_id rows))).
  - apply unique_NoDup, Z.eqb_eq.
  - apply repeat_length.
Qed.

(** The column [consec_missed], read at the rows of one contract in table
    order, is the counter of the specification run over these rows. *)
Lemma consec_missed_of_contract rows c :
  map (fun i => nth i (consec_missed rows) 0) (index_of_contract c rows)
  = spec_miss_counter 0 (map payment_met (rows_of_contract c rows)).
Proof.
  destruct (in_dec Z.eq_dec c (map Trend.contract_id rows)) as [Hin | Hnotin].
  - unfold consec_missed.
    apply (walk_all_spec rows (unique Z.eqb (map Trend.contract_id rows))).
    + apply unique_NoDup, Z.eqb_eq.
    + apply repeat_length.
    + now apply (unique_In Z.eqb Z.eqb_eq).
  - assert (Hidx : index_of_contract c rows = []).
    { destruct (index_of_contract c rows) as [|i m] eqn:E; [reflexivity|].
      exfalso. assert (Hi : In i (index_of_contract c rows)) by (rewrite E; now left).
      apply index_of_contract_In in Hi as [Hlt Hi]. apply Hnotin.
      rewrite <- Hi. apply nth_In. now rewrite length_map. }
    rewrite Hidx. unfold rows_of_contract. rewrite filter_none; [reflexivity|].
    intros r Hr. apply Z.eqb_neq. intros E. apply Hnotin. rewrite <- E.
    now apply in_map.
Qed.

Lemma par_df_rows trend :
  map Par.row (par_df trend) = TrendSort.sort trend.
Proof.
  unfold par_df. rewrite map_map. cbn [Par.row].
  pose proof (consec_missed_length (TrendSort.sort trend)) as Hlen.
  revert Hlen. generalize (consec_missed (TrendSort.sort trend)).
  induction (TrendSort.sort trend) as [|r rows IH]; intros [|x xs] Hlen;
    cbn in *; try discriminate; [reflexivity|].
  f_equal. apply IH. lia.
Qed.

Lemma par_rows_of_contract_rows trend c :
  map Par.row (par_rows_of_contract c (par_df trend))
  = rows_of_contract c (TrendSort.sort trend).
Proof.
  unfold par_rows_of_contract, rows_of_contract.
  rewrite <- par_df_rows, filter_map_swap. reflexivity.
Qed.

Lemma par_rows_of_contract_counter trend c :
  map Par.consec_missed (par_rows_of_contract c (par_df trend))
  = spec_miss_counter 0
      (map (fun p => payment_met (Par.row p)) (par_rows_of_contract c (par_df trend))).
Proof.
  rewrite <- (map_map Par.row payment_met), par_rows_of_contract_rows.
  rewrite <- consec_missed_of_contract.
  unfold par_rows_of_contract, par_df.
  rewrite filter_map_swap, map_map. cbn [Par.row Par.consec_missed].
  rewrite (map_ext (fun i => nth i (consec_missed (TrendSort.sort trend)) 0)
                   (fun i => nth (i - 0) (consec_missed (TrendSort.sort trend)) 0))
    by (intros; now rewrite Nat.sub_0_r).
  rewrite index_of_contract_eq.
  apply (positions_from_column c 0 (TrendSort.sort trend) 0%nat).
  apply consec_missed_length.
Qed.

Lemma spec_miss_counter_nonneg met : forall missed,
  0 <= missed -> Forall (fun n => 0 <= n) (spec_miss_counter missed met).
Proof.
  induction met as [|b met IH]; intros missed H; cbn [spec_miss_counter];
    constructor.
  - destruct b; lia.
  - apply IH. destruct b; lia.
Qed.

(** On a counter that is not negative the code's chain of comparisons is
    the bucket table. *)
Lemma par_bucket_spec n : 0 <= n -> par_bucket n = spec_bucket n.
Proof.
  intros H. unfold par_bucket, spec_bucket.
  destruct (Z.geb_spec n 4).
  - destruct (Z.to_nat n) as [|[|[|[|k]]]] eqn:E; try lia. reflexivity.
  - assert (Hn : n = 0 \/ n = 1 \/ n = 2 \/ n = 3) by lia.
    destruct Hn as [-> | [-> | [-> | ->]]]; reflexivity.
Qed.

Lemma TrendOrder_leb_trans :
  Relations_1.Transitive (fun a b => is_true (TrendOrder.leb a b)).
Proof.
  intros a b c. unfold TrendOrder.leb, trend_leb, is_true.
  destruct (Z.eqb_spec (Trend.contract_id a) (Trend.contract_id b)),
    (Z.eqb_spec (Trend.contract_id b) (Trend.contract_id c)),
    (Z.eqb_spec (Trend.contract_id a) (Trend.contract_id c)); lia.
Qed.

Lemma StronglySorted_filter {A : Type} (R : A -> A -> Prop) (p : A -> bool) l :
  StronglySorted R l -> StronglySorted R (filter p l).
Proof.
  induction 1 as [|a l Hs IH Hall]; cbn; [constructor|].
  destruct (p a); [|assumption]. constructor; [assumption|].
  rewrite Forall_forall in *. intros x Hx. apply filter_In in Hx as [Hx _]. auto.
Qed.

Lemma Permutation_filter_rows {A : Type} (p : A -> bool) l l' :
  Permutation l l' -> Permutation (filter p l) (filter p l').
Proof.
  induction 1; cbn.
  - constructor.
  - destruct (p x); [now constructor|assumption].
  - destruct (p x), (p y); try reflexivity; apply perm_swap.
  - etransitivity; eassumption.
Qed.

Lemma NoDup_map_filter {A B : Type} (f : A -> B) (p : A -> bool) l :
  NoDup (map f l) -> NoDup (map f (filter p l)).
Proof.
  induction l as [|a l IH]; cbn; intros H; [constructor|].
  inversion H as [|? ? Hnotin Hnd]; subst.
  destruct (p a); cbn; auto. constructor; auto.
  rewrite in_map_iff in *. intros (x & E & Hx). apply Hnotin.
  exists x. apply filter_In in Hx as [Hx _]. auto.
Qed.

(** A contract has one schedule row a month. *)
Lemma schedule_months_NoDup contracts pays id :
  NoDup (map Contract.contract_id contracts) ->
  NoDup (map Trend.month (rows_of_contract id (schedule contracts pays))).
Proof.
  intros Hnd.
  destruct (in_dec Z.eq_dec id (map Contract.contract_id contracts)) as [Hin | Hnotin].
  - apply in_map_iff in Hin as (c & <- & Hc).
    rewrite schedule_rows_of_contract by assumption.
    destruct (start_month c) as [s|] eqn:Hs; destruct (end_month c) as [e|] eqn:He.
    + rewrite (expected_rows_of_months c s e Hs He). apply period_range_NoDup.
    + rewrite expected_rows_of_null by auto. constructor.
    + rewrite expected_rows_of_null by auto. constructor.
    + rewrite expected_rows_of_null by auto. constructor.
  - unfold rows_of_contract. rewrite filter_none; [constructor|].
    intros r Hr. apply Z.eqb_neq. intros E. apply Hnotin.
    rewrite schedule_as_map in Hr. apply in_map_iff in Hr as (e & <- & He).
    destruct (merged_trend_row pays e) as [paid Hp]. rewrite Hp in E. cbn in E.
    apply in_flat_map in He as (c & Hc & He).
    apply expected_rows_of_contract_id in He. rewrite <- E, He. now apply in_map.
Qed.

Lemma StronglySorted_le_lt l :
  StronglySorted Z.le l -> NoDup l -> StronglySorted Z.lt l.
Proof.
  induction 1 as [|a l Hs IH Hall]; intros Hnd; constructor;
    inversion Hnd as [|? ? Hnotin Hnd']; subst; auto.
  rewrite Forall_forall in *. intros x Hx.
  assert (a <> x) by (intros ->; contradiction).
  specialize (Hall x Hx). lia.
Qed.

(** The sorted table lists the rows of a contract by strictly increasing
    month. *)
Lemma sorted_rows_month_order contracts pays id :
  NoDup (map Contract.contract_id contracts) ->
  StronglySorted Z.lt
    (map Trend.month
         (rows_of_contract id (TrendSort.sort (trend_df contracts pays)))).
Proof.
  intros Hnd. apply StronglySorted_le_lt.
  - pose proof (TrendSort.StronglySorted_sort (trend_df contracts pays)
                  TrendOrder_leb_trans) as Hs.
    apply (StronglySorted_filter _ (fun r => Trend.contract_id r =? id)) in Hs.
    fold (rows_of_contract id (TrendSort.sort (trend_df contracts pays))) in Hs.
    assert (Hid : Forall (fun r => Trend.contract_id r = id)
                    (rows_of_contract id (TrendSort.sort (trend_df contracts pays)))).
    { apply Forall_forall. intros r Hr. apply filter_In in Hr as [_ Hr].
      now apply Z.eqb_eq. }
    induction Hs as [|a l Hs IH Hall]; cbn [map]; constructor.
    + apply IH. now inversion Hid.
    + inversion Hid as [|? ? Ha Hl]; subst. rewrite Forall_forall in *.
      intros m Hm. apply in_map_iff in Hm as (b & <- & Hb).
      specialize (Hall b Hb). specialize (Hl b Hb).
      unfold TrendOrder.leb, trend_leb, is_true in Hall. rewrite Hl, Z.eqb_refl in Hall.
      now apply Z.leb_le.
  - apply (Permutation_NoDup
             (l := map Trend.month (rows_of_contract id (trend_df contracts pays)))).
    + apply Permutation_map, Permutation_filter_rows, TrendSort.Permuted_sort.
    + unfold trend_df, rows_of_contract.
      pose proof (schedule_months_NoDup contracts pays id Hnd) as H.
      unfold rows_of_contract in H.
      set (fin := fun r => isin (Trend.contract_id r) (financed_contracts contracts)).
      replace (filter (fun r => Trend.contract_id r =? id) (filter fin (schedule contracts pays)))
        with (filter fin (filter (fun r => Trend.contract_id r =? id) (schedule contracts pays))).
      * now apply NoDup_map_filter.
      * generalize (schedule contracts pays). intros l.
        induction l as [|r l IH]; cbn; [reflexivity|].
        destruct (Trend.contract_id r =? id) eqn:E1; destruct (fin r) eqn:E2;
          cbn; rewrite ?E1, ?E2, IH; reflexivity.
Qed.

(** C1. In the PAR table, the rows of a contract come by strictly
    increasing month; their [consec_missed] is the counter that starts at
    0, goes back to 0 on a month whose [total_paid] meets or exceeds
    [expected_payment] and goes up by 1 otherwise; every row's bucket is
    that of the table 0 Current, 1 PAR30, 2 PAR60, 3 PAR90, 4 and more
    PAR120.  The PAR table holds the rows of the financed schedule. *)
Theorem C1_consecutive_miss_counter_and_bucket raw payments contract :
  let rows := par_rows_of_contract contract (PAR_rows raw payments) in
  StronglySorted Z.lt (map (fun p => Trend.month (Par.row p)) rows)
  /\ map Par.consec_missed rows
     = spec_miss_counter 0 (map (fun p => payment_met (Par.row p)) rows)
  /\ Forall (fun p => 0 <= Par.consec_missed p
                      /\ Par.PAR_bucket p = spec_bucket (Par.consec_missed p)) rows
  /\ Permutation (financed_trend raw payments) (map Par.row (PAR_rows raw payments)).
Proof.
  cbv zeta. unfold PAR_rows, financed_trend.
  set (trend := trend_df (contracts_df raw) (payments_df raw payments)).
  pose proof (par_rows_of_contract_counter trend contract) as Hcount.
  split; [|split; [assumption|split]].
  - rewrite <- (map_map Par.row Trend.month), par_rows_of_contract_rows.
    apply sorted_rows_month_order, drop_duplicates_NoDup.
  - pose proof (spec_miss_counter_nonneg
                  (map (fun p => payment_met (Par.row p))
                       (par_rows_of_contract contract (par_df trend))) 0 ltac:(lia))
      as Hnn.
    rewrite <- Hcount in Hnn. rewrite Forall_forall in *.
    intros p Hp. assert (H0 : 0 <= Par.consec_missed p)
      by (apply Hnn; now apply in_map).
    split; [assumption|].
    apply filter_In in Hp as [Hp _]. unfold par_df in Hp.
    apply in_map_iff in Hp as (x & <- & _). cbn in *. now apply par_bucket_spec.
  - rewrite par_df_rows. apply TrendSort.Permuted_sort.
Qed.

(** ** Ratios at a zero denominator *)

(** The guard of line 164: where [Total_PAR] is not above 0 the percentage
    is 0. *)
Lemma par_pct_guarded amount Total_PAR :
  Qltb 0 Total_PAR = false -> is_zero (par_pct amount Total_PAR) = true.
Proof. unfold par_pct. intros ->. reflexivity. Qed.

(** Lines 106 and 116 divide without a guard: at a zero denominator the
    rate is NaN or an infinity, never a number. *)
Lemma unguarded_ratio_not_finite a b :
  Qeq_bool b 0 = true -> is_finite (fround2 (fmul (fdiv a b) 100)) = false.
Proof.
  unfold fdiv. intros ->. now destruct (Qcompare a 0).
Qed.

Lemma date_eqb_spec (a b : date) : date_eqb a b = true <-> a = b.
Proof.
  unfold date_eqb. rewrite !Bool.andb_true_iff, !Z.eqb_eq. split.
  - intros [[Hy Hm] Hd]. destruct a, b; cbn in *; congruence.
  - intros ->. auto.
Qed.

Lemma fpd_key_eqb_spec (a b : fpd_key) : fpd_key_eqb a b = true <-> a = b.
Proof.
  destruct a as [[c1 r1] f1], b as [[c2 r2] f2]. unfold fpd_key_eqb.
  rewrite !Bool.andb_true_iff, String.eqb_eq, Z.eqb_eq, date_eqb_spec. split.
  - intros [[-> ->] ->]. reflexivity.
  - intros E; inversion E; auto.
Qed.

(** The contract count of a group of [FPD_rate_trend] is at least 1: this
    denominator is never 0. *)
Lemma FPD_rate_denominator_positive fpd_final :
  Forall (fun g => 1 <= FpdRate.contracts g) (FPD_rate_trend_of fpd_final).
Proof.
  unfold FPD_rate_trend_of. apply Forall_forall. intros g Hg.
  apply in_map_iff in Hg as ([[c r] f] & <- & Hk). cbn [FpdRate.contracts].
  apply (proj1 (unique_In fpd_key_eqb fpd_key_eqb_spec _ _)) in Hk.
  unfold somes in Hk. apply in_flat_map in Hk as (o & Ho & Hk).
  apply in_map_iff in Ho as (x & <- & Hx).
  destruct (fpd_key_of x) as [k|] eqn:E; [|destruct Hk]. destruct Hk as [<- | []].
  assert (Hin : In x (filter (in_fpd_group k) fpd_final)).
  { apply filter_In. split; [assumption|]. unfold in_fpd_group. rewrite E.
    now apply fpd_key_eqb_spec. }
  destruct (filter (in_fpd_group k) fpd_final); [destruct Hin|]. cbn [List.length]. lia.
Qed.

(** C3, on the code: for a financed contract with a daily amount of 0 the
    summed expected payment of every month is 0; the collection rate and
    the repayment rate of these months are NaN, while the PAR percentages,
    over the same total, are 0. *)
Theorem C3_zero_denominator_rates :
  map Summary.expected_payment
      (Collection_Rate_Trend [zero_daily_contract] zero_daily_payments)
  = [ (0 # 100)%Q; (0 # 100)%Q; (0 # 100)%Q ]
  /\ map Summary.collection_rate
         (Collection_Rate_Trend [zero_daily_contract] zero_daily_payments)
     = [NaN; NaN; NaN]
  /\ map Repayment.repayment_rate
         (Repayment_Rate_Trend [zero_daily_contract] zero_daily_payments)
     = [NaN; NaN; NaN]
  /\ map (fun p => (Qeq_bool (ParPivot.Total_PAR p) 0,
                    forallb (fun b => is_zero (ParPivot.pct p b)) par_buckets))
         (PAR_Trend [zero_daily_contract] zero_daily_payments)
     = [ (true, true); (true, true); (true, true) ].
Proof. vm_compute. repeat split. Qed.

(** ** The inflows of the cash-flow table *)

Lemma trend_df_financed contracts pays r :
  In r (trend_df contracts pays) ->
  In r (schedule contracts pays)
  /\ exists c, In c contracts
               /\ Contract.contract_id c = Trend.contract_id r
               /\ is_financed c = true.
Proof.
  unfold trend_df. rewrite filter_In. intros [Hr Hfin]. split; [assumption|].
  unfold isin in Hfin. apply existsb_exists in Hfin as (id & Hid & E).
  apply Z.eqb_eq in E. subst id.
  apply (proj1 (unique_In Z.eqb Z.eqb_eq _ _)) in Hid.
  apply in_map_iff in Hid as (c & E & Hc). apply filter_In in Hc as [Hc Hf].
  now exists c.
Qed.

Lemma vintage_merge_row contracts trend v :
  In v (vintage_merge contracts trend) -> In (Vintage.row v) trend.
Proof.
  unfold vintage_merge. intros H. apply merge_left_In in H as (r & Hr & H).
  apply (Permutation_in _ (Permutation_sym (TrendSort.Permuted_sort trend))) in Hr.
  destruct H as [[-> _] | (c & _ & _ & ->)]; exact Hr.
Qed.

Lemma product_df_row contracts vdf p :
  In p (product_df contracts vdf) -> In (Product.row p) vdf.
Proof.
  unfold product_df. intros H. apply merge_left_In in H as (v & Hv & H).
  destruct H as [[-> _] | (c & _ & _ & ->)]; exact Hv.
Qed.

(** The rows summed into the inflows of the cash-flow table are schedule
    rows of FINANCED contracts that passed the months-on-book filter of
    line 196: the inflows group [trend_df], which lines 99 and 196 have
    reassigned. *)
Lemma inflow_rows_are_financed_and_on_book raw payments :
  Forall (fun p =>
            let r := Vintage.row (Product.row p) in
            In r (ScheduleEntry raw payments)
            /\ on_book (Product.row p) = true
            /\ exists c, In c (contracts_df raw)
                         /\ Contract.contract_id c = Trend.contract_id r
                         /\ is_financed c = true)
         (cash_flow_rows raw payments).
Proof.
  apply Forall_forall. intros p Hp. cbv zeta.
  unfold cash_flow_rows in Hp. apply product_df_row in Hp.
  unfold vintage_trend, vintage_df in Hp. apply filter_In in Hp as [Hp Hbook].
  apply vintage_merge_row in Hp. apply trend_df_financed in Hp as [Hs Hc].
  auto.
Qed.

(** C4, on the code.  With a CASH contract (contract value 300, 100 paid in
    January 2024) and a FINANCED contract of the same company and product
    (100 paid in January 2024), the schedule has the January rows of both,
    310 expected and 100 paid each; the January row of the cash-flow table
    has the contract value of the CASH contract as disbursement, and as
    inflows the amounts of the FINANCED contract alone: 310 expected and
    100 paid, where the claim has 620 and 200.  With one FINANCED contract
    registered on 2024-01-10 that pays 100 on 2024-01-20, the schedule has
    the row of January with the 100 paid, and the cash-flow table has 0
    paid in January. *)
Theorem C4_inflows_leave_out_other_contract_types :
  let contracts := [cash_contract; example_contract] in
  let payments := cash_payments ++ example_payments in
  map (fun r => (Trend.contract_id r, Qred (Trend.expected_payment r),
                 Qred (Trend.total_paid r)))
      (filter (fun r => Trend.month r =? january_2024)
              (ScheduleEntry contracts payments))
  = [ (3, 310%Q, 100%Q); (1, 310%Q, 100%Q) ]
  /\ map (fun kv => Qred (snd kv))
         (filter (fun kv => snd (fst kv) =? january_2024)
                 (expected_inflows contracts payments))
     = [ 310%Q ]
  /\ map (fun kv => Qred (snd kv))
         (filter (fun kv => snd (fst kv) =? january_2024)
                 (actual_inflows contracts payments))
     = [ 100%Q ]
  /\ map (fun r => (Qred (CashFlow.disbursed_amount r),
                    Qred (CashFlow.expected_payment r),
                    Qred (CashFlow.total_paid r)))
         (filter (fun r => CashFlow.month r =? january_2024)
                 (cash_flow contracts payments))
     = [ (300%Q, 310%Q, 100%Q) ]
  /\ map (fun r => (Trend.month r, Qred (Trend.total_paid r)))
         (ScheduleEntry [short_contract] short_payments)
     = [ (january_2024, 100%Q) ]
  /\ map (fun r => (CashFlow.month r, Qred (CashFlow.total_paid r)))
         (cash_flow [short_contract] short_payments)
     = [ (january_2024, 0%Q) ].
Proof. vm_compute. repeat split. Qed.

(** ** First payment default *)

Lemma filter_flat_map {A B : Type} (p : B -> bool) (f : A -> list B) l :
  filter p (flat_map f l) = flat_map (fun a => filter p (f a)) l.
Proof.
  induction l as [|a l IH]; cbn; [reflexivity|]. now rewrite filter_app, IH.
Qed.

Lemma flat_map_selects {A B : Type} (g : A -> list B) (q : A -> bool) (h : A -> B) l :
  (forall a, In a l -> g a = if q a then [h a] else []) ->
  flat_map g l = map h (filter q l).
Proof.
  induction l as [|a l IH]; intros H; cbn; [reflexivity|].
  rewrite (H a (or_introl eq_refl)), IH by (intros; apply H; now right).
  now destruct (q a).
Qed.

Lemma filter_only {A : Type} (p : A -> bool) (c : A) l :
  NoDup l -> In c l -> p c = true ->
  (forall x, In x l -> p x = true -> x = c) -> filter p l = [c].
Proof.
  induction l as [|a l IH]; intros Hnd Hin Hc Huniq; [destruct Hin|].
  inversion Hnd as [|? ? Hnotin Hnd']; subst. cbn.
  destruct Hin as [-> | Hin].
  - rewrite Hc. f_equal. apply filter_none. intros x Hx.
    destruct (p x) eqn:E; [|reflexivity].
    exfalso. apply Hnotin. rewrite <- (Huniq x (or_intror Hx) E). exact Hx.
  - destruct (p a) eqn:E.
    + exfalso. apply Hnotin. rewrite (Huniq a (or_introl eq_refl) E). exact Hin.
    + apply IH; auto. intros x Hx. apply Huniq. now right.
Qed.

Lemma NoDup_of_map {A B : Type} (f : A -> B) l : NoDup (map f l) -> NoDup l.
Proof.
  induction l as [|a l IH]; cbn; intros H; constructor;
    inversion H as [|? ? Hnotin Hnd]; subst; auto.
  intros Hin. apply Hnotin. now apply in_map.
Qed.

Section Contracts.
Variable contracts : list Contract.t.
Hypothesis ids_NoDup : NoDup (map Contract.contract_id contracts).

Lemma contract_of_id c c' :
  In c contracts -> In c' contracts ->
  Contract.contract_id c' = Contract.contract_id c -> c' = c.
Proof.
  clear -ids_NoDup. induction contracts as [|a l IH]; [intros []|].
  cbn in ids_NoDup. inversion ids_NoDup as [|? ? Hnotin Hnd]; subst.
  intros [-> | Hc] [-> | Hc'] E; auto.
  - exfalso. apply Hnotin. rewrite <- E. now apply in_map.
  - exfalso. apply Hnotin. rewrite E. now apply in_map.
Qed.

Lemma lookup_contract_In c :
  In c contracts -> lookup_contract contracts (Contract.contract_id c) = Some c.
Proof.
  intros Hc. unfold lookup_contract.
  rewrite (filter_only _ c); auto.
  - now apply NoDup_of_map in ids_NoDup.
  - apply Z.eqb_refl.
  - intros x Hx E. apply Z.eqb_eq in E. now apply contract_of_id.
Qed.

(** Line 64: every payment once, with the company of its contract. *)
Lemma payments_add_company_map payments :
  payments_add_company contracts payments
  = map (fun p => PaymentC.mk (Payment.contract_id p) (Payment.pay_month p)
                    (Payment.total_paid p)
                    (option_map Contract.company
                       (lookup_contract contracts (Payment.contract_id p))))
        payments.
Proof.
  unfold payments_add_company. rewrite merge_left_one_match.
  - apply map_ext. intros p. unfold merged_row, lookup_contract.
    now destruct (filter _ contracts).
  - intros p _.
    apply (filter_unique_key Z.eqb Z.eqb_eq Contract.contract_id), ids_NoDup.
Qed.

(** Line 179: every row of the sorted table once, with the columns of its
    contract. *)
Lemma vintage_merge_map trend :
  vintage_merge contracts trend
  = map (fun r => vintage_of r (lookup_contract contracts (Trend.contract_id r)))
        (TrendSort.sort trend).
Proof.
  unfold vintage_merge. rewrite merge_left_one_match.
  - apply map_ext. intros r. unfold merged_row, lookup_contract.
    now destruct (filter _ contracts).
  - intros r _.
    apply (filter_unique_key Z.eqb Z.eqb_eq Contract.contract_id), ids_NoDup.
Qed.

Lemma vintage_df_company trend v c :
  In v (vintage_df contracts trend) -> In c contracts ->
  Trend.contract_id (Vintage.row v) = Contract.contract_id c ->
  Vintage.company v = Some (Contract.company c)
  /\ Vintage.registration_date v = Contract.registration_date c.
Proof.
  unfold vintage_df. rewrite filter_In, vintage_merge_map, in_map_iff.
  intros [(r & <- & _) _] Hc E. cbn in E. rewrite E, lookup_contract_In by assumption.
  split; reflexivity.
Qed.

Lemma financed_In c : In c (financed contracts) <-> In c contracts /\ is_financed c = true.
Proof. apply filter_In. Qed.

Lemma financed_NoDup : NoDup (financed contracts).
Proof. apply NoDup_filter. now apply NoDup_of_map in ids_NoDup. Qed.
End Contracts.

(** The row of a key in a [groupby(...).sum()]: none when no row has the
    key, else one, with the sum over the rows of the key. *)
Lemma groupby_sum_lookup {A K : Type} (eqb : K -> K -> bool)
    (eqb_spec : forall x y, eqb x y = true <-> x = y)
    (key : A -> K) (val : A -> Q) rows k :
  let sum := Qsum (map val (filter (fun r => eqb k (key r)) rows)) in
  (filter (fun kv => eqb k (fst kv)) (groupby_sum eqb key val rows) = []
   /\ filter (fun r => eqb k (key r)) rows = [])
  \/ filter (fun kv => eqb k (fst kv)) (groupby_sum eqb key val rows) = [(k, sum)].
Proof.
  cbv zeta. unfold groupby_sum. rewrite filter_map_swap. cbn [fst].
  pose proof (unique_NoDup eqb eqb_spec (map key rows)) as Hnd.
  destruct (filter (fun a => eqb k a) (unique eqb (map key rows))) as [|a m] eqn:F.
  - left. split; [reflexivity|]. apply filter_none. intros r Hr.
    destruct (eqb k (key r)) eqn:E; [|reflexivity]. exfalso.
    assert (H : In (key r) (filter (fun a => eqb k a) (unique eqb (map key rows)))).
    { apply filter_In. split; [|assumption].
      apply (unique_In eqb eqb_spec). now apply in_map. }
    rewrite F in H. destruct H.
  - right. assert (Ha : In a (filter (fun a => eqb k a) (unique eqb (map key rows))))
      by (rewrite F; now left).
    apply filter_In in Ha as [Ha E]. apply eqb_spec in E. subst a.
    rewrite (filter_only (fun a => eqb k a) k) in F; auto.
    + inversion F; subst. reflexivity.
    + now apply eqb_spec.
    + intros x _ Ex. symmetry. now apply eqb_spec.
Qed.

Section Fpd.
Variable contracts : list Contract.t.
Hypothesis ids_NoDup : NoDup (map Contract.contract_id contracts).
Variable c : Contract.t.
Hypothesis c_In : In c contracts.
Hypothesis c_financed : is_financed c = true.
Variable f : date.
Hypothesis c_fpd_month : fpd_month c = Some f.

Lemma c_In_financed : In c (financed contracts).
Proof. now apply financed_In. Qed.

(** The payments summed into [fpd_total_paid] of the contract are its
    payments of the FPD month. *)
Lemma fpd_payments_of_contract payments :
  map (fun pc => PaymentC.total_paid (fst pc))
      (filter (fun pc => Contract.contract_id c =? PaymentC.contract_id (fst pc))
              (fpd_payments contracts (payments_add_company contracts payments)))
  = map Payment.total_paid
        (filter (pays_in_month (Contract.contract_id c) f) payments).
Proof.
  rewrite payments_add_company_map by assumption.
  unfold fpd_payments, merge_inner.
  induction payments as [|p payments IH]; [reflexivity|].
  cbn [map flat_map filter]. rewrite !filter_app, map_app, IH. clear IH.
  set (G := PaymentC.mk (Payment.contract_id p) (Payment.pay_month p)
              (Payment.total_paid p)
              (option_map Contract.company
                 (lookup_contract contracts (Payment.contract_id p)))).
  unfold pays_in_month at 2.
  destruct (Z.eqb_spec (Contract.contract_id c) (Payment.contract_id p)) as [E | E].
  - assert (HG : G = PaymentC.mk (Payment.contract_id p) (Payment.pay_month p)
                       (Payment.total_paid p) (Some (Contract.company c))).
    { unfold G. rewrite <- E, lookup_contract_In by assumption. reflexivity. }
    rewrite HG.
    rewrite (filter_only _ c).
    + cbn [map filter fst snd]. unfold paid_in_fpd_month, PaymentC.month.
      cbn [PaymentC.pay_month]. rewrite c_fpd_month.
      destruct (Payment.pay_month p) as [d|]; cbn [option_map opt_date_is andb].
      * destruct (date_eqb (to_timestamp (to_period d)) f); cbn; [|reflexivity].
        rewrite E, Z.eqb_refl. reflexivity.
      * reflexivity.
    + now apply financed_NoDup.
    + apply c_In_financed.
    + cbn. now rewrite E, Z.eqb_refl, String.eqb_refl.
    + intros x Hx Hm. cbn in Hm. apply financed_In in Hx as [Hx _].
      apply Bool.andb_true_iff in Hm as [Hm _]. apply Z.eqb_eq in Hm.
      apply (contract_of_id contracts ids_NoDup); auto. congruence.
  - rewrite filter_none; [reflexivity|].
    intros pc Hpc. apply filter_In in Hpc as [Hpc _].
    apply in_map_iff in Hpc as (x & <- & _). cbn. now apply Z.eqb_neq.
Qed.

(** The rows of [fpd_expected] of the contract are its rows of the
    filtered schedule at the FPD month. *)
Lemma fpd_expected_of_contract trend :
  filter (fun e => FpdExpected.contract_id e =? Contract.contract_id c)
         (fpd_expected contracts (vintage_df contracts trend))
  = map (fun v => FpdExpected.mk (Trend.contract_id (Vintage.row v))
                    (Trend.expected_payment (Vintage.row v))
                    (Vintage.company v) (Vintage.registration_date v)
                    (to_timestamp (Trend.month (Vintage.row v))))
        (schedule_rows_at (vintage_df contracts trend) (Contract.contract_id c) f).
Proof.
  unfold fpd_expected, merge_inner, schedule_rows_at. rewrite filter_flat_map.
  apply flat_map_selects. intros v Hv.
  destruct (Z.eqb_spec (Trend.contract_id (Vintage.row v)) (Contract.contract_id c))
    as [E | E]; cbn [andb].
  - destruct (vintage_df_company contracts ids_NoDup trend v c Hv c_In E) as [Hco _].
    destruct (date_eqb f (to_timestamp (Trend.month (Vintage.row v)))) eqn:D.
    + rewrite (filter_only _ c).
      * cbn. now rewrite E, Z.eqb_refl.
      * now apply financed_NoDup.
      * apply c_In_financed.
      * rewrite Hco, c_fpd_month. cbn. now rewrite E, Z.eqb_refl, String.eqb_refl, D.
      * intros x Hx Hm. apply financed_In in Hx as [Hx _].
        apply Bool.andb_true_iff in Hm as [Hm _].
        apply Bool.andb_true_iff in Hm as [Hm _]. apply Z.eqb_eq in Hm.
        apply (contract_of_id contracts ids_NoDup); auto. congruence.
    + rewrite (filter_none _ (financed contracts)); [reflexivity|]. intros x Hx.
      destruct (Z.eqb_spec (Trend.contract_id (Vintage.row v)) (Contract.contract_id x))
        as [Ex | Ex]; [|reflexivity].
      apply financed_In in Hx as [Hx _].
      assert (x = c) by (apply (contract_of_id contracts ids_NoDup); auto; congruence).
      subst x. rewrite c_fpd_month. cbn [opt_date_is]. rewrite D.
      apply Bool.andb_false_r.
  - apply filter_none. intros e He. apply in_map_iff in He as (x & <- & _).
    cbn. now apply Z.eqb_neq.
Qed.

Lemma fpd_paid_keys_NoDup pdf : NoDup (map fst (fpd_paid contracts pdf)).
Proof.
  unfold fpd_paid, groupby_sum. rewrite map_map. cbn [fst]. rewrite map_id.
  apply unique_NoDup, Z.eqb_eq.
Qed.

(** The rows of [fpd_final] of the contract: one per row of its filtered
    schedule at the FPD month, carrying that row's expected payment, the
    sum of the contract's payments of the FPD month, and the two flags
    computed from them. *)
Lemma fpd_final_of_contract payments trend :
  let paid := paid_in_month payments (Contract.contract_id c) f in
  map (fun r => (Fpd.expected_payment r, Fpd.fpd_total_paid r,
                 Fpd.FPD_flag r, Fpd.FPD_zero_flag r))
      (fpd_rows_of_contract (Contract.contract_id c)
         (fpd_final_of contracts (payments_add_company contracts payments)
            (vintage_df contracts trend)))
  = map (fun v => (Trend.expected_payment (Vintage.row v), paid,
                   Qltb paid (Trend.expected_payment (Vintage.row v)),
                   Qeq_bool paid 0))
        (schedule_rows_at (vintage_df contracts trend) (Contract.contract_id c) f).
Proof.
  cbv zeta. unfold fpd_final_of, fpd_rows_of_contract.
  rewrite merge_left_one_match.
  2:{ intros e _. apply (filter_unique_key Z.eqb Z.eqb_eq fst), fpd_paid_keys_NoDup. }
  rewrite filter_map_swap.
  rewrite (filter_ext _ (fun e => FpdExpected.contract_id e =? Contract.contract_id c)).
  2:{ intros e. unfold merged_row. now destruct (filter _ (fpd_paid _ _)). }
  rewrite fpd_expected_of_contract, !map_map.
  apply map_ext_in. intros v Hv.
  apply filter_In in Hv as [_ Hv]. apply Bool.andb_true_iff in Hv as [Hv _].
  apply Z.eqb_eq in Hv.
  unfold merged_row. cbn [FpdExpected.contract_id]. rewrite Hv.
  unfold paid_in_month. rewrite <- fpd_payments_of_contract.
  unfold fpd_paid.
  destruct (groupby_sum_lookup Z.eqb Z.eqb_eq
              (fun pc : PaymentC.t * Contract.t => PaymentC.contract_id (fst pc))
              (fun pc => PaymentC.total_paid (fst pc))
              (fpd_payments contracts (payments_add_company contracts payments))
              (Contract.contract_id c)) as [[-> ->] | ->]; reflexivity.
Qed.
End Fpd.

(** Lines 224 to 230 on a date of the calendar: the cutoff rule. *)
Lemma get_fpd_month_spec reg :
  valid_date reg = true -> get_fpd_month (Some reg) = Some (spec_fpd_month reg).
Proof.
  unfold valid_date. rewrite !Bool.andb_true_iff, !Z.leb_le.
  intros [[[Hm1 Hm2] Hd1] _].
  unfold get_fpd_month, spec_fpd_month, FPD_CUTOFF_DAY.
  destruct (day reg <=? 5); f_equal; apply month_begin_spec; lia.
Qed.

Lemma Qltb_lt a b : Qltb a b = true <-> (a < b)%Q.
Proof.
  unfold Qltb. rewrite Bool.negb_true_iff. split.
  - intros H. apply Qnot_le_lt. intros Hle. apply Qle_bool_iff in Hle. congruence.
  - intros H. destruct (Qle_bool b a) eqn:E; [|reflexivity].
    apply Qle_bool_iff in E. exfalso. now apply (Qlt_not_le a b).
Qed.

Lemma filter_filter_length {A : Type} (p q : A -> bool) l :
  (List.length (filter p (filter q l)) <= List.length (filter p l))%nat.
Proof.
  induction l as [|a l IH]; cbn; [lia|].
  destruct (q a), (p a) eqn:E; cbn; rewrite ?E; cbn; lia.
Qed.

Lemma StronglySorted_lt_NoDup l : StronglySorted Z.lt l -> NoDup l.
Proof.
  induction 1 as [|a l Hs IH Hall]; constructor; [|assumption].
  rewrite Forall_forall in Hall. intros Hin. specialize (Hall a Hin). lia.
Qed.

(** The filtered schedule has at most one row of a contract at a month. *)
Lemma schedule_rows_at_le1 contracts pays id f :
  NoDup (map Contract.contract_id contracts) ->
  (List.length (schedule_rows_at (vintage_df contracts (trend_df contracts pays)) id f)
   <= 1)%nat.
Proof.
  intros Hnd. unfold schedule_rows_at, vintage_df.
  etransitivity; [apply filter_filter_length|].
  rewrite vintage_merge_map by assumption.
  rewrite filter_map_swap, length_map. cbn [Vintage.row vintage_of].
  pose proof (StronglySorted_lt_NoDup _ (sorted_rows_month_order contracts pays id Hnd))
    as Hmonths.
  pose proof (filter_unique_key Z.eqb Z.eqb_eq Trend.month (to_period f) _ Hmonths)
    as Hle.
  etransitivity; [|exact Hle]. unfold rows_of_contract.
  set (sorted := TrendSort.sort (trend_df contracts pays)).
  clear. induction sorted as [|r l IH]; cbn [filter]; [cbn; lia|].
  destruct (Trend.contract_id r =? id); cbn [andb filter]; [|exact IH].
  destruct (date_eqb f (to_timestamp (Trend.month r))) eqn:D;
    destruct (to_period f =? Trend.month r) eqn:E; cbn [List.length]; try lia.
  exfalso. apply date_eqb_spec in D. apply Z.eqb_neq in E. apply E.
  rewrite D. apply to_period_to_timestamp.
Qed.

(** Every row of [fpd_final] comes from a financed contract and a row of
    the filtered schedule at the FPD month of that contract. *)
Lemma fpd_final_row_origin contracts pdf vdf r :
  In r (fpd_final_of contracts pdf vdf) ->
  exists c v,
    In c contracts /\ is_financed c = true
    /\ Contract.contract_id c = Fpd.contract_id r
    /\ fpd_month c = Some (Fpd.fpd_month r)
    /\ In v vdf
    /\ Trend.contract_id (Vintage.row v) = Contract.contract_id c
    /\ to_timestamp (Trend.month (Vintage.row v)) = Fpd.fpd_month r
    /\ Trend.expected_payment (Vintage.row v) = Fpd.expected_payment r.
Proof.
  unfold fpd_final_of. intros H. apply merge_left_In in H as (e & He & H).
  assert (Hr : Fpd.contract_id r = FpdExpected.contract_id e
               /\ Fpd.fpd_month r = FpdExpected.fpd_month e
               /\ Fpd.expected_payment r = FpdExpected.expected_payment e).
  { destruct H as [[-> _] | (p & _ & _ & ->)]; repeat split. }
  destruct Hr as (-> & -> & ->). clear H.
  unfold fpd_expected in He. apply merge_inner_In in He as (v & c & Hv & Hc & Hm & ->).
  apply financed_In in Hc as [Hc Hf].
  apply Bool.andb_true_iff in Hm as [Hm Hd].
  apply Bool.andb_true_iff in Hm as [Hid _]. apply Z.eqb_eq in Hid.
  unfold opt_date_is in Hd. destruct (fpd_month c) as [d|] eqn:E; [|discriminate].
  apply date_eqb_spec in Hd. subst d.
  exists c, v. cbn. auto 10.
Qed.

Lemma NoDup_by_filter {A : Type} (key : A -> Z) l :
  (forall k, (List.length (filter (fun a => Z.eqb (key a) k) l) <= 1)%nat) ->
  NoDup (map key l).
Proof.
  induction l as [|a l IH]; intros H; cbn; constructor.
  - intros Hin. apply in_map_iff in Hin as (b & E & Hb).
    specialize (H (key a)). cbn in H. rewrite Z.eqb_refl in H. cbn in H.
    assert (Hb' : In b (filter (fun x => key x =? key a) l))
      by (apply filter_In; split; [assumption|now apply Z.eqb_eq]).
    destruct (filter (fun x => key x =? key a) l); [destruct Hb'|cbn in H; lia].
  - apply IH. intros k. specialize (H k). cbn in H.
    destruct (key a =? k); cbn in H; lia.
Qed.

(** A contract has at most one row in [fpd_final]. *)
Lemma fpd_final_ids_NoDup raw payments :
  NoDup (map Fpd.contract_id (fpd_final raw payments)).
Proof.
  apply NoDup_by_filter. intros k.
  destruct (filter (fun a => Fpd.contract_id a =? k) (fpd_final raw payments))
    as [|r m] eqn:F; [cbn; lia|].
  assert (Hr : In r (filter (fun a => Fpd.contract_id a =? k) (fpd_final raw payments)))
    by (rewrite F; now left).
  apply filter_In in Hr as [Hr Hk]. apply Z.eqb_eq in Hk.
  unfold fpd_final in Hr.
  apply fpd_final_row_origin in Hr as (c & v & Hc & Hf & Hid & Hm & _).
  pose proof (drop_duplicates_NoDup raw) as Hnd. fold (contracts_df raw) in Hnd.
  pose proof (fpd_final_of_contract (contracts_df raw) Hnd c Hc Hf _ Hm payments
                (trend_df (contracts_df raw) (payments_df raw payments))) as Hrows.
  cbv zeta in Hrows. apply (f_equal (@List.length _)) in Hrows.
  rewrite !length_map in Hrows.
  rewrite <- F. unfold fpd_rows_of_contract in Hrows.
  rewrite Hid, Hk in Hrows.
  unfold fpd_final, vintage_trend, financed_trend, payments_df in *.
  rewrite Hrows. apply schedule_rows_at_le1. exact Hnd.
Qed.




(** C10. Every row of [fpd_final] is a financed contract together with a
    row of its schedule, as filtered by the months-on-book step, at its FPD
    month; a contract has at most one row; a financed contract has as many
    rows as its filtered schedule has at its FPD month, none when there is
    none, and so does not count.  The count [contracts] of a group of
    [FPD_rate_trend] is the number of rows of [fpd_final] in the group, the
    denominator of both rates; the numerators count the flagged rows among
    them. *)
Theorem C10_fpd_rate_counts_contracts_with_schedule_row raw payments :
  Forall (fun r =>
            exists c v,
              In c (contracts_df raw) /\ is_financed c = true
              /\ Contract.contract_id c = Fpd.contract_id r
              /\ fpd_month c = Some (Fpd.fpd_month r)
              /\ In v (vintage_trend raw payments)
              /\ Trend.contract_id (Vintage.row v) = Contract.contract_id c
              /\ to_timestamp (Trend.month (Vintage.row v)) = Fpd.fpd_month r
              /\ Trend.expected_payment (Vintage.row v) = Fpd.expected_payment r)
         (fpd_final raw payments)
  /\ NoDup (map Fpd.contract_id (fpd_final raw payments))
  /\ Forall (fun c =>
               List.length (fpd_rows_of_contract (Contract.contract_id c)
                              (fpd_final raw payments))
               = match fpd_month c with
                 | Some f => List.length
                               (schedule_rows_at (vintage_trend raw payments)
                                  (Contract.contract_id c) f)
                 | None => 0%nat
                 end)
            (financed (contracts_df raw))
  /\ Forall (fun g =>
               let rows :=
                 filter (in_fpd_group (FpdRate.company g, FpdRate.reg_month g,
                                       FpdRate.fpd_month g))
                        (fpd_final raw payments) in
               FpdRate.contracts g = Z.of_nat (List.length rows)
               /\ FpdRate.FPD_count g = count_true Fpd.FPD_flag rows
               /\ FpdRate.FPD_zero_count g = count_true Fpd.FPD_zero_flag rows
               /\ FpdRate.FPD_rate g
                  = rate (FpdRate.FPD_count g) (FpdRate.contracts g)
               /\ FpdRate.FPD_zero_rate g
                  = rate (FpdRate.FPD_zero_count g) (FpdRate.contracts g)
               /\ 1 <= FpdRate.contracts g)
            (FPD_Rate_Trend raw payments).
Proof.
  pose proof (drop_duplicates_NoDup raw) as Hnd. fold (contracts_df raw) in Hnd.
  split; [|split; [|split]].
  - apply Forall_forall. intros r Hr. exact (fpd_final_row_origin _ _ _ r Hr).
  - apply fpd_final_ids_NoDup.
  - apply Forall_forall. intros c Hc. apply financed_In in Hc as [Hc Hf].
    destruct (fpd_month c) as [f|] eqn:Hm.
    + pose proof (fpd_final_of_contract (contracts_df raw) Hnd c Hc Hf f Hm payments
                    (trend_df (contracts_df raw) (payments_df raw payments))) as Hrows.
      cbv zeta in Hrows. apply (f_equal (@List.length _)) in Hrows.
      rewrite !length_map in Hrows. exact Hrows.
    + destruct (fpd_rows_of_contract _ _) as [|r m] eqn:F; [reflexivity|]. exfalso.
      assert (Hr : In r (fpd_rows_of_contract (Contract.contract_id c)
                           (fpd_final raw payments))) by (rewrite F; now left).
      apply filter_In in Hr as [Hr Hk]. apply Z.eqb_eq in Hk.
      unfold fpd_final in Hr.
      apply fpd_final_row_origin in Hr as (c' & v & Hc' & _ & Hid & Hm' & _).
      assert (c' = c) by (apply (contract_of_id _ Hnd); auto; congruence).
      subst c'. congruence.
  - pose proof (FPD_rate_denominator_positive (fpd_final raw payments)) as Hpos.
    rewrite Forall_forall in *. intros g Hg. specialize (Hpos g Hg).
    unfold FPD_Rate_Trend, FPD_rate_trend_of in Hg.
    apply in_map_iff in Hg as ([[co r] f] & <- & _). cbv zeta.
    cbn [FpdRate.contracts FpdRate.company FpdRate.reg_month FpdRate.fpd_month
         FpdRate.FPD_count FpdRate.FPD_zero_count FpdRate.FPD_rate
         FpdRate.FPD_zero_rate] in *.
    do 5 (split; [reflexivity|]). exact Hpos.
Qed.

(** ** Projection and valuation *)

Section GroupKeys.
Context {K : Type} (eqb : K -> K -> bool).
Hypothesis eqb_spec : forall x y, eqb x y = true <-> x = y.

Lemma eqb_neq_false x y : x <> y -> eqb x y = false.
Proof.
  intros H. destruct (eqb x y) eqn:E; [|reflexivity].
  apply eqb_spec in E. contradiction.
Qed.

Lemma unique_repeat_app k n l :
  unique eqb (repeat k (S n) ++ l)
  = k :: filter (fun y => negb (eqb k y)) (unique eqb l).
Proof.
  induction n as [|n IH]; [reflexivity|].
  change (repeat k (S (S n)) ++ l) with (k :: (repeat k (S n) ++ l)).
  cbn [unique]. rewrite IH. cbn [filter].
  rewrite (proj2 (eqb_spec k k) eq_refl). cbn [negb]. f_equal.
  generalize (unique eqb l). intros m.
  induction m as [|a m IHm]; cbn; [reflexivity|].
  destruct (negb (eqb k a)) eqn:E; cbn; rewrite ?E, IHm; reflexivity.
Qed.

(** The group keys of rows that come in blocks, one block per key of a
    list without repetition: the keys whose block is not empty. *)
Lemma unique_blocks (n : K -> nat) ks :
  NoDup ks ->
  unique eqb (flat_map (fun k => repeat k (n k)) ks)
  = filter (fun k => negb (n k =? 0)%nat) ks.
Proof.
  induction ks as [|k ks IH]; intros Hnd; [reflexivity|].
  inversion Hnd as [|? ? Hnotin Hnd']; subst.
  cbn [flat_map filter]. destruct (n k) as [|m]; cbn [Nat.eqb negb].
  - cbn [repeat app]. now apply IH.
  - rewrite unique_repeat_app, IH by assumption. f_equal.
    apply filter_all. intros x Hx. apply filter_In in Hx as [Hx _].
    rewrite eqb_neq_false; [reflexivity|]. intros ->. contradiction.
Qed.

Lemma filter_flat_map_key {R : Type} (key : R -> K) (block : K -> list R) ks k :
  (forall k' r, In r (block k') -> key r = k') ->
  NoDup ks -> In k ks ->
  filter (fun r => eqb k (key r)) (flat_map block ks) = block k.
Proof.
  intros Hblock. induction ks as [|a ks IH]; intros Hnd Hin; [destruct Hin|].
  inversion Hnd as [|? ? Hnotin Hnd']; subst.
  cbn [flat_map]. rewrite filter_app. destruct Hin as [-> | Hin].
  - rewrite filter_all, filter_none, app_nil_r; [reflexivity| |].
    + intros r Hr. apply in_flat_map in Hr as (k' & Hk' & Hr).
      rewrite (Hblock _ _ Hr). apply eqb_neq_false. intros ->. contradiction.
    + intros r Hr. rewrite (Hblock _ _ Hr). now apply eqb_spec.
  - rewrite IH by assumption. rewrite filter_none; [reflexivity|].
    intros r Hr. rewrite (Hblock _ _ Hr). apply eqb_neq_false.
    intros ->. contradiction.
Qed.
End GroupKeys.

Lemma projection_months_NoDup : NoDup projection_months.
Proof.
  vm_compute. repeat (constructor; [cbn; intuition discriminate|]). constructor.
Qed.

(** The rows that the inner loop of line 327 appends for one month. *)
Lemma projection_block contracts month :
  flat_map (fun c =>
              if active c month
              then [Projection.mk month (Contract.contract_id c) (Contract.company c)
                      (Contract.daily_payment_amount_usd c
                       * inject_Z (days_in_month (year month) (Calendar.month month)))%Q]
              else [])
           contracts
  = map (fun c => Projection.mk month (Contract.contract_id c) (Contract.company c)
                    (Contract.daily_payment_amount_usd c
                     * inject_Z (days_in_month (year month) (Calendar.month month)))%Q)
        (filter (fun c => active c month) contracts).
Proof. apply flat_map_selects. intros c _. reflexivity. Qed.

Lemma has_active_filter contracts month :
  has_active contracts month
  = negb (List.length (filter (fun c => active c month) contracts) =? 0)%nat.
Proof.
  unfold has_active. induction contracts as [|c l IH]; cbn; [reflexivity|].
  destruct (active c month); cbn; [reflexivity|exact IH].
Qed.

(** The months of [monthly_projection]: the months of the window in which
    some contract is active, in window order. *)
Lemma monthly_projection_months contracts :
  map fst (monthly_projection contracts)
  = filter (has_active contracts) projection_months.
Proof.
  unfold monthly_projection, groupby_sum. rewrite !map_map. cbn [fst].
  rewrite map_id. unfold projection_rows.
  rewrite (filter_ext _ (fun month =>
             negb (List.length (filter (fun c => active c month) contracts) =? 0)%nat))
    by (intros; apply has_active_filter).
  rewrite <- (unique_blocks date_eqb date_eqb_spec
                (fun month => List.length (filter (fun c => active c month) contracts))
                projection_months projection_months_NoDup).
  f_equal. induction projection_months as [|m l IH]; [reflexivity|].
  cbn [flat_map]. rewrite map_app, IH. f_equal.
  rewrite projection_block, map_map. cbn [Projection.month].
  induction (filter (fun c => active c m) contracts) as [|c cs IHc];
    cbn; [reflexivity|]. now rewrite IHc.
Qed.

(** The amount of a month of [monthly_projection]. *)
Lemma monthly_projection_amounts contracts :
  Forall (fun kv => snd kv = projected_cashflow contracts (fst kv))
         (monthly_projection contracts).
Proof.
  apply Forall_forall. intros kv Hkv.
  assert (Hk : In (fst kv) projection_months).
  { assert (H : In (fst kv) (map fst (monthly_projection contracts)))
      by (now apply in_map).
    rewrite monthly_projection_months in H. now apply filter_In in H. }
  unfold monthly_projection, groupby_sum in Hkv. rewrite map_map in Hkv.
  apply in_map_iff in Hkv as (k & <- & _). cbn [fst snd] in *.
  unfold projected_cashflow, projection_rows. f_equal. f_equal.
  rewrite (filter_flat_map_key date_eqb date_eqb_spec Projection.month _ _ k);
    auto using projection_months_NoDup.
  - rewrite projection_block, map_map. reflexivity.
  - intros k' r Hr. rewrite projection_block in Hr.
    apply in_map_iff in Hr as (c & <- & _). reflexivity.
Qed.

Local Open Scope R_scope.

Lemma one_plus_monthly_discount :
  1 + monthly_discount = Rpower (1 + discount_rate) (1 / 12).
Proof. unfold monthly_discount. lra. Qed.

Lemma monthly_base_above_1 : 1 < 1 + monthly_discount.
Proof.
  rewrite one_plus_monthly_discount.
  rewrite <- (Rpower_O (1 + discount_rate)) at 1 by (unfold discount_rate; lra).
  apply Rpower_lt; unfold discount_rate; lra.
Qed.

(** Twelve months at the monthly rate compound to the annual rate. *)
Lemma monthly_discount_compounds : (1 + monthly_discount) ^ 12 = 1 + discount_rate.
Proof.
  rewrite <- Rpower_pow by (pose proof monthly_base_above_1; lra).
  rewrite one_plus_monthly_discount, Rpower_mult.
  replace (1 / 12 * INR 12) with 1 by (simpl; lra).
  apply Rpower_1. unfold discount_rate. lra.
Qed.

Lemma discount_factor_inv i : discount_factor i = / (1 + monthly_discount) ^ i.
Proof.
  unfold discount_factor. rewrite Rpower_Ropp, Rpower_pow; [reflexivity|].
  pose proof monthly_base_above_1. lra.
Qed.

Lemma discount_factor_decreasing i j :
  (i < j)%nat -> discount_factor j < discount_factor i.
Proof.
  intros H. unfold discount_factor. apply Rpower_lt; [apply monthly_base_above_1|].
  apply Ropp_lt_contravar. now apply lt_INR.
Qed.

(** Line 347: the factor of a row is given by its position in the table. *)
Lemma discounted_spec projection :
  map (fun d => (Discounted.month d, Discounted.expected_payment d))
      (discounted projection) = projection
  /\ map Discounted.discount_factor (discounted projection)
     = map discount_factor (seq 1 (List.length projection))
  /\ Forall (fun d => Discounted.discounted_cashflow d
                      = Q2R (Discounted.expected_payment d)
                        * Discounted.discount_factor d)
            (discounted projection).
Proof.
  unfold discounted. generalize 1%nat.
  induction projection as [|[m e] l IH]; intros k; cbn [List.length seq combine map].
  - repeat split. constructor.
  - destruct (IH (S k)) as (H1 & H2 & H3). cbn [Discounted.month
      Discounted.expected_payment Discounted.discount_factor].
    repeat split; try (f_equal; assumption).
    constructor; [reflexivity|assumption].
Qed.

Local Close Scope R_scope.

(** C7, on the code.  With one contract registered on 2025-08-15 for 90
    days at 10 a day, no contract is active on 2025-08-01 and the table of
    projected months has the three rows of September, October and November
    2025.  September 2025 is the second month of the 12-month window and
    is discounted with the factor of position 1, October with that of
    position 2, November with that of position 3, where the claim has the
    factors of positions 2, 3 and 4; the portfolio value is above the sum
    with the claim's factors. *)
Theorem C7_second_window_month_gets_first_factor :
  nth 1 projection_months projection_start = mkDate 2025 9 1
  /\ nth 2 projection_months projection_start = mkDate 2025 10 1
  /\ nth 3 projection_months projection_start = mkDate 2025 11 1
  /\ map (fun d => (Discounted.month d, Discounted.expected_payment d,
                    Discounted.discount_factor d))
         (discounted (monthly_projection (contracts_df [late_contract])))
     = [ (mkDate 2025 9 1, (30000 # 100)%Q, discount_factor 1);
         (mkDate 2025 10 1, (31000 # 100)%Q, discount_factor 2);
         (mkDate 2025 11 1, (30000 # 100)%Q, discount_factor 3) ]
  /\ discount_factor 1 <> discount_factor 2
  /\ (300 * discount_factor 2 + 310 * discount_factor 3
      + 300 * discount_factor 4 < Portfolio_Value [late_contract])%R.
Proof.
  assert (H : monthly_projection (contracts_df [late_contract])
              = [ (mkDate 2025 9 1, (30000 # 100)%Q);
                  (mkDate 2025 10 1, (31000 # 100)%Q);
                  (mkDate 2025 11 1, (30000 # 100)%Q) ])
    by (vm_compute; reflexivity).
  pose proof (discount_factor_decreasing 1 2 ltac:(lia)) as H12.
  pose proof (discount_factor_decreasing 2 3 ltac:(lia)) as H23.
  pose proof (discount_factor_decreasing 3 4 ltac:(lia)) as H34.
  split; [reflexivity|]. split; [reflexivity|]. split; [reflexivity|].
  split; [rewrite H; reflexivity|]. split; [lra|].
  unfold Portfolio_Value, portfolio_value. rewrite H.
  cbn [discounted List.length seq combine map Rsum fold_right
       Discounted.discounted_cashflow].
  replace (Q2R (30000 # 100)) with 300%R by (unfold Q2R; cbn; lra).
  replace (Q2R (31000 # 100)) with 310%R by (unfold Q2R; cbn; lra).
  lra.
Qed.

(** ** The merges that carry [company] *)

(** Both sides of the merge of line 179 have a column [company]: the
    merged table has none, whatever its rows. *)
Lemma merge_vintage_has_no_company contracts par :
  Frame.has_column "company"
    (fst (merge_vintage (contracts_frame contracts) (trend_frame par))) = false.
Proof. reflexivity. Qed.

Lemma merge_vintage_columns contracts par :
  Frame.columns (fst (merge_vintage (contracts_frame contracts) (trend_frame par)))
  = ["contract_id"; "company_x"; "month"; "expected_payment"; "total_paid";
     "missed_payment"; "consec_missed"; "PAR_bucket"; "vintage";
     "registration_date"; "contract_tenor_days"; "company_y"]%string.
Proof. reflexivity. Qed.

(** So the guard of line 186 holds and the join of lines 188 to 192 runs. *)
Lemma guarantee_company_after_merge_vintage contracts par :
  let C := contracts_frame contracts in
  let T1 := fst (merge_vintage C (trend_frame par)) in
  guarantee_company C T1
  = (Frame.merge_on "contract_id" (Frame.drop ["company"%string] T1)
       (Frame.select company_columns C),
     [Merged "trend_df" company_columns]).
Proof. reflexivity. Qed.

Lemma company_merges_log raw payments :
  snd (company_merges raw payments)
  = [ Merged "payments_df" company_columns;
      Merged "trend_df" vintage_columns;
      Merged "trend_df" company_columns ].
Proof. reflexivity. Qed.

Lemma select_company_rows contracts :
  Frame.rows (Frame.select company_columns (contracts_frame contracts))
  = map (fun c => [Frame.Int (Contract.contract_id c);
                   Frame.Str (Contract.company c)])
        contracts.
Proof.
  unfold Frame.select, contracts_frame. cbn [Frame.rows Frame.columns].
  rewrite map_map. apply map_ext. intros c. reflexivity.
Qed.

Lemma flat_map_of_map {A B C : Type} (f : B -> list C) (g : A -> B) l :
  flat_map f (map g l) = flat_map (fun a => f (g a)) l.
Proof. induction l as [|a l IH]; cbn; [reflexivity|]. now rewrite IH. Qed.

Lemma map_flat_map_rows {A B C : Type} (g : B -> C) (F : A -> list B)
    (h : A -> C) l :
  (forall a, In a l -> map g (F a) = [h a]) ->
  map g (flat_map F l) = map h l.
Proof.
  induction l as [|a l IH]; intros H; cbn [flat_map map]; [reflexivity|].
  rewrite map_app, (H a (or_introl eq_refl)), IH by (intros; apply H; now right).
  reflexivity.
Qed.

(** The column [company] of the payments after lines 64 to 68, on the
    column level, is the company that the record-level merge gives. *)
Lemma payments_company_column contracts payments :
  NoDup (map Contract.contract_id contracts) ->
  Frame.column "company"
    (fst (add_company_to_payments (contracts_frame contracts)
            (payments_frame payments)))
  = map (fun p => opt_cell Frame.Str (PaymentC.company p))
        (payments_add_company contracts payments).
Proof.
  intros Hnd. rewrite (payments_add_company_map contracts Hnd). rewrite map_map.
  cbn [PaymentC.company].
  unfold add_company_to_payments, Frame.column, Frame.merge_on. cbn [fst].
  rewrite select_company_rows.
  cbn [Frame.columns Frame.rows payments_frame Frame.select].
  rewrite flat_map_of_map. apply map_flat_map_rows. intros p _.
  rewrite filter_map_swap.
  rewrite (filter_ext _ (fun c => Payment.contract_id p =? Contract.contract_id c))
    by reflexivity.
  pose proof (filter_unique_key Z.eqb Z.eqb_eq Contract.contract_id
                (Payment.contract_id p) contracts Hnd) as Hle.
  unfold lookup_contract.
  destruct (filter (fun c => Payment.contract_id p =? Contract.contract_id c)
                   contracts) as [|c [|c' m]]; cbn in Hle; try lia; reflexivity.
Qed.

Lemma flat_map_singletons {A B : Type} (F : A -> list B) (h : A -> B) l :
  (forall a, In a l -> F a = [h a]) -> flat_map F l = map h l.
Proof.
  induction l as [|a l IH]; intros H; cbn [flat_map map]; [reflexivity|].
  rewrite (H a (or_introl eq_refl)), IH by (intros; apply H; now right).
  reflexivity.
Qed.

Lemma select_vintage_rows contracts :
  Frame.rows (Frame.select vintage_columns (contracts_frame contracts))
  = map (fun c => Frame.Int (Contract.contract_id c) :: vintage_cells (Some c))
        contracts.
Proof.
  unfold Frame.select, contracts_frame. cbn [Frame.rows Frame.columns].
  rewrite map_map. apply map_ext. intros c. reflexivity.
Qed.

(** The schedule after the merge of line 179, row by row. *)
Lemma merge_vintage_frame contracts par :
  NoDup (map Contract.contract_id contracts) ->
  fst (merge_vintage (contracts_frame contracts) (trend_frame par))
  = Frame.mk
      ["contract_id"; "company_x"; "month"; "expected_payment"; "total_paid";
       "missed_payment"; "consec_missed"; "PAR_bucket"; "vintage";
       "registration_date"; "contract_tenor_days"; "company_y"]%string
      (map (fun p => par_cells p
                     ++ vintage_cells
                          (lookup_contract contracts (Trend.contract_id (Par.row p))))
           par).
Proof.
  intros Hnd. unfold merge_vintage, Frame.merge_on. cbn [fst].
  f_equal. rewrite select_vintage_rows.
  cbn [Frame.rows Frame.columns trend_frame Frame.select].
  rewrite flat_map_of_map. apply flat_map_singletons. intros p _.
  rewrite filter_map_swap.
  rewrite (filter_ext _ (fun c => Trend.contract_id (Par.row p) =? Contract.contract_id c))
    by reflexivity.
  pose proof (filter_unique_key Z.eqb Z.eqb_eq Contract.contract_id
                (Trend.contract_id (Par.row p)) contracts Hnd) as Hle.
  unfold lookup_contract.
  destruct (filter _ contracts) as [|c [|c' m]]; cbn in Hle; try lia; reflexivity.
Qed.

(** The schedule after the join of lines 188 to 192, row by row: the
    company of the contract of the row comes last. *)
Lemma guarantee_company_frame contracts par :
  NoDup (map Contract.contract_id contracts) ->
  fst (guarantee_company (contracts_frame contracts)
         (fst (merge_vintage (contracts_frame contracts) (trend_frame par))))
  = Frame.mk
      ["contract_id"; "company_x"; "month"; "expected_payment"; "total_paid";
       "missed_payment"; "consec_missed"; "PAR_bucket"; "vintage";
       "registration_date"; "contract_tenor_days"; "company_y"; "company"]%string
      (map (fun p =>
              let c := lookup_contract contracts (Trend.contract_id (Par.row p)) in
              par_cells p ++ vintage_cells c
              ++ [opt_cell Frame.Str (option_map Contract.company c)])
           par).
Proof.
  intros Hnd. rewrite (merge_vintage_frame contracts par Hnd).
  unfold guarantee_company.
  change (company_missing _) with true. cbn [fst].
  unfold Frame.merge_on, Frame.drop. f_equal.
  rewrite select_company_rows.
  cbn [Frame.rows Frame.columns Frame.select].
  rewrite map_map, flat_map_of_map. apply flat_map_singletons. intros p _.
  rewrite filter_map_swap.
  rewrite (filter_ext _ (fun c => Trend.contract_id (Par.row p) =? Contract.contract_id c))
    by reflexivity.
  pose proof (filter_unique_key Z.eqb Z.eqb_eq Contract.contract_id
                (Trend.contract_id (Par.row p)) contracts Hnd) as Hle.
  unfold lookup_contract.
  destruct (filter _ contracts) as [|c [|c' m]]; cbn in Hle; try lia; reflexivity.
Qed.

Lemma schedule_company_column contracts par :
  NoDup (map Contract.contract_id contracts) ->
  Frame.column "company"
    (fst (guarantee_company (contracts_frame contracts)
            (fst (merge_vintage (contracts_frame contracts) (trend_frame par)))))
  = map (fun p => opt_cell Frame.Str
                    (option_map Contract.company
                       (lookup_contract contracts (Trend.contract_id (Par.row p)))))
        par.
Proof.
  intros Hnd. rewrite (guarantee_company_frame contracts par Hnd).
  unfold Frame.column. cbn [Frame.rows Frame.columns]. rewrite map_map.
  apply map_ext. intros p. reflexivity.
Qed.

Lemma schedule_company_agrees contracts trend :
  NoDup (map Contract.contract_id contracts) ->
  Frame.column "company"
    (fst (guarantee_company (contracts_frame contracts)
            (fst (merge_vintage (contracts_frame contracts)
                    (trend_frame (par_df trend))))))
  = map (fun v => opt_cell Frame.Str (Vintage.company v))
        (vintage_merge contracts trend).
Proof.
  intros Hnd. rewrite (schedule_company_column contracts _ Hnd).
  rewrite (vintage_merge_map contracts Hnd), <- par_df_rows, !map_map.
  reflexivity.
Qed.

(** C8, the claim as stated fails.  First, a payment of an unknown
    contract: after the join of lines 64 to 68 the payments hold no
    non-null company, and still the run joins the payments once, with no
    second attempt.  Second, the join that is done again is the one onto
    the schedule, and it is done again although the merged schedule holds
    the company of every row, under [company_x] and [company_y]. *)
Lemma C8_payments_join_is_not_retried :
  (let run := company_merges [example_contract] orphan_payments in
   Frame.has_column "company" (fst (fst run)) = true
   /\ Frame.all_null "company" (fst (fst run)) = true
   /\ merges_into "payments_df" (snd run) = 1%nat)
  /\ (let C := contracts_frame (contracts_df [example_contract]) in
      let T1 := fst (merge_vintage C
                       (trend_frame (PAR_rows [example_contract] example_payments))) in
      Frame.all_null "company_x" T1 = false
      /\ Frame.all_null "company_y" T1 = false
      /\ Frame.has_column "company" T1 = false
      /\ snd (guarantee_company C T1) = [Merged "trend_df" company_columns]
      /\ Frame.columns (fst (guarantee_company C T1)) <> Frame.columns T1).
Proof.
  split; cbv zeta.
  - vm_compute. repeat split.
  - repeat split; try (vm_compute; reflexivity).
    vm_compute. discriminate.
Qed.

(** C8, amended. Company is propagated from the contracts onto the payment
    rows by one left join on contract_id, never done again: a payment gets
    the company of its contract, or a null when no contract has its
    contract_id.  The join that is done again is the one of the vintage
    step onto the schedule: the merge of line 179 leaves no column
    [company] (both sides have one, so the merged table has [company_x]
    and [company_y]), the guard of line 186 holds, and the schedule is
    joined with the columns contract_id and company alone; in all, three
    joins carry the company, and the column [company] of the schedule is
    the company of the contract of each row.  The guard holds when the
    column is absent or entirely null. *)
Theorem C8_company_joins raw payments :
  let contracts := contracts_df raw in
  let C := contracts_frame contracts in
  let run := company_merges raw payments in
  let T1 := fst (merge_vintage C (trend_frame (PAR_rows raw payments))) in
  snd run = [ Merged "payments_df" company_columns;
              Merged "trend_df" vintage_columns;
              Merged "trend_df" company_columns ]
  /\ merges_into "payments_df" (snd run) = 1%nat
  /\ fst (fst run)
     = Frame.merge_on "contract_id" (payments_frame payments)
         (Frame.select company_columns C)
  /\ Frame.column "company" (fst (fst run))
     = map (fun p => opt_cell Frame.Str (PaymentC.company p))
           (payments_df raw payments)
  /\ map PaymentC.company (payments_df raw payments)
     = map (fun p => option_map Contract.company
                       (lookup_contract contracts (Payment.contract_id p)))
           payments
  /\ Frame.has_column "company" T1 = false
  /\ snd (fst run)
     = Frame.merge_on "contract_id" (Frame.drop ["company"%string] T1)
         (Frame.select company_columns C)
  /\ Frame.column "company" (snd (fst run))
     = map (fun v => opt_cell Frame.Str (Vintage.company v))
           (vintage_merge contracts (financed_trend raw payments))
  /\ (forall trend : Frame.t,
         company_missing trend
         = negb (Frame.has_column "company" trend)
           || Frame.all_null "company" trend)
  /\ (forall contracts_frame trend : Frame.t,
         guarantee_company contracts_frame trend
         = if company_missing trend
           then (Frame.merge_on "contract_id"
                   (Frame.drop ["company"%string] trend)
                   (Frame.select company_columns contracts_frame),
                 [Merged "trend_df" company_columns])
           else (trend, [])).
Proof.
  cbv zeta.
  pose proof (drop_duplicates_NoDup raw) as Hnd. fold (contracts_df raw) in Hnd.
  split; [reflexivity|]. split; [reflexivity|]. split; [reflexivity|].
  split; [exact (payments_company_column (contracts_df raw) payments Hnd)|].
  split.
  - unfold payments_df. rewrite (payments_add_company_map _ Hnd), map_map.
    reflexivity.
  - split; [reflexivity|]. split; [reflexivity|].
    split; [exact (schedule_company_agrees (contracts_df raw)
                     (financed_trend raw payments) Hnd)|].
    split; reflexivity.
Qed.

(* ------------------------------------------------------------------ *)
(** * Further properties of the pipeline *)

(** ** Dates and months *)

Lemma valid_date_ranges d :
  valid_date d = true ->
  1 <= month d <= 12 /\ 1 <= day d <= days_in_month (year d) (month d).
Proof.
  unfold valid_date. rewrite !Bool.andb_true_iff, !Z.leb_le. tauto.
Qed.

Lemma to_timestamp_to_period d :
  1 <= month d <= 12 -> to_timestamp (to_period d) = mkDate (year d) (month d) 1.
Proof.
  intros H. unfold to_timestamp, to_period, period_year, period_month.
  f_equal; Z.div_mod_to_equations; lia.
Qed.

(** A date is [day - 1] days after the first day of its month. *)
Lemma days_from_month_start d :
  1 <= month d <= 12 ->
  days_from_civil d = days_from_civil (to_timestamp (to_period d)) + day d - 1.
Proof.
  intros H. rewrite to_timestamp_to_period by assumption.
  destruct d as [y m dd]. rewrite !days_from_civil_unfold. cbn [year month day]. lia.
Qed.

Lemma days_in_month_bounds y m : 28 <= days_in_month y m <= 31.
Proof. unfold days_in_month. split_ifs; lia. Qed.

Lemma month_start_after p (n : nat) :
  days_from_civil (to_timestamp p) + 28 * Z.of_nat n
  <= days_from_civil (to_timestamp (p + Z.of_nat n)).
Proof.
  induction n as [|n IH]; [replace (p + Z.of_nat 0) with p by lia; lia|].
  replace (p + Z.of_nat (S n)) with (p + Z.of_nat n + 1) by lia.
  pose proof (days_in_month_spec (p + Z.of_nat n)) as Hd.
  pose proof (days_in_month_bounds (period_year (p + Z.of_nat n))
                (period_month (p + Z.of_nat n))) as Hb.
  unfold period_days_in_month in Hd. lia.
Qed.

(** Later months start later. *)
Lemma month_start_increasing p q :
  p < q ->
  days_from_civil (to_timestamp p) + 28 * (q - p) <= days_from_civil (to_timestamp q).
Proof.
  intros H. pose proof (month_start_after p (Z.to_nat (q - p))) as Hn.
  rewrite Z2Nat.id in Hn by lia. replace (p + (q - p)) with q in Hn by lia.
  exact Hn.
Qed.

Lemma period_of_date d :
  1 <= month d <= 12 ->
  period_year (to_period d) = year d /\ period_month (to_period d) = month d.
Proof.
  intros H. unfold period_year, period_month, to_period.
  split; Z.div_mod_to_equations; lia.
Qed.

(** A date of the calendar lies in the month of its period. *)
Lemma date_within_its_month d :
  valid_date d = true ->
  days_from_civil (to_timestamp (to_period d)) <= days_from_civil d
  /\ days_from_civil d < days_from_civil (to_timestamp (to_period d + 1)).
Proof.
  intros Hv. apply valid_date_ranges in Hv as [Hm Hd].
  pose proof (days_from_month_start d Hm) as Hs.
  pose proof (days_in_month_spec (to_period d)) as Hn.
  unfold period_days_in_month in Hn.
  destruct (period_of_date d Hm) as [Hy Hmo]. rewrite Hy, Hmo in Hn.
  lia.
Qed.

(** The period of a date grows with the date. *)
Lemma to_period_monotone a b :
  valid_date a = true -> valid_date b = true ->
  days_from_civil a <= days_from_civil b -> to_period a <= to_period b.
Proof.
  intros Ha Hb Hle.
  destruct (Z.le_gt_cases (to_period a) (to_period b)) as [H | H]; [assumption|].
  exfalso.
  pose proof (date_within_its_month a Ha) as [Ha1 _].
  pose proof (date_within_its_month b Hb) as [_ Hb2].
  destruct (Z.eq_dec (to_period b + 1) (to_period a)) as [E | E].
  - rewrite E in Hb2. lia.
  - pose proof (month_start_increasing (to_period b + 1) (to_period a) ltac:(lia)). lia.
Qed.

(** A month starts on or before a date exactly when it is the month of
    the date or an earlier one. *)
Lemma month_start_leb m d :
  valid_date d = true ->
  date_leb (to_timestamp m) d = true <-> m <= to_period d.
Proof.
  intros Hv. unfold date_leb. rewrite Z.leb_le.
  pose proof (date_within_its_month d Hv) as [H1 H2]. split; intros H.
  - destruct (Z.le_gt_cases m (to_period d)) as [Hle | Hgt]; [assumption|]. exfalso.
    destruct (Z.eq_dec m (to_period d + 1)) as [-> | E]; [lia|].
    pose proof (month_start_increasing (to_period d + 1) m ltac:(lia)). lia.
  - destruct (Z.eq_dec m (to_period d)) as [-> | E]; [assumption|].
    pose proof (month_start_increasing m (to_period d) ltac:(lia)). lia.
Qed.

(** ** Deduplication and the columns added to the contracts *)

Lemma filter_filter_implied {A : Type} (p q : A -> bool) l :
  (forall a, p a = true -> q a = true) ->
  filter p (filter q l) = filter p l.
Proof.
  intros H. induction l as [|a l IH]; cbn; [reflexivity|].
  destruct (p a) eqn:E.
  - rewrite (H a E). cbn. rewrite E, IH. reflexivity.
  - destruct (q a); cbn; rewrite ?E; exact IH.
Qed.

(** Line 38 keeps, of the rows of a contract_id, the first: after it every
    contract_id of the input names one contract, the first row of the input
    that has it. *)
Theorem drop_duplicates_keeps_first raw :
  NoDup (map Contract.contract_id (contracts_df raw))
  /\ forall id,
       lookup_contract (contracts_df raw) id
       = find (fun c => id =? Contract.contract_id c) raw.
Proof.
  split; [apply drop_duplicates_NoDup|].
  intros id. unfold contracts_df, lookup_contract.
  induction raw as [|c raw IH]; [reflexivity|].
  cbn [drop_duplicates find filter].
  destruct (id =? Contract.contract_id c) eqn:E; [reflexivity|].
  rewrite filter_filter_implied; [exact IH|].
  intros a Ha. apply Z.eqb_eq in Ha. apply Z.eqb_neq in E.
  apply Bool.negb_true_iff, Z.eqb_neq. congruence.
Qed.

Lemma month_begin_day n d : day (month_begin n d) = 1.
Proof. reflexivity. Qed.

(** Lines 51 and 52, and 224 to 230: [first_full_month] is the first day of
    the month after the registration month, also for a registration on the
    first of a month; it comes 1 to 31 days after the registration date;
    the FPD month is this month for a registration day up to 5, and the
    month after it otherwise. *)
Theorem first_full_month_and_fpd_month c reg :
  Contract.registration_date c = Some reg ->
  valid_date reg = true ->
  first_full_month c = Some (to_timestamp (to_period reg + 1))
  /\ days_from_civil reg < days_from_civil (to_timestamp (to_period reg + 1))
     <= days_from_civil reg + 31
  /\ fpd_month c
     = if day reg <=? 5 then first_full_month c
       else Some (to_timestamp (to_period reg + 2)).
Proof.
  intros Hreg Hv.
  assert (Hffm : first_full_month c = Some (to_timestamp (to_period reg + 1))).
  { unfold first_full_month. rewrite Hreg. cbn [option_map]. f_equal.
    pose proof (valid_date_ranges reg Hv) as [Hm Hd].
    assert (Hmb : month_begin 1 reg = to_timestamp (to_period reg + 1)).
    { rewrite <- (month_begin_spec 1 reg) by lia. reflexivity. }
    rewrite Hmb, to_period_to_timestamp. reflexivity. }
  split; [exact Hffm|]. split.
  - pose proof (date_within_its_month reg Hv) as [H1 H2].
    pose proof (days_in_month_spec (to_period reg)) as Hn.
    pose proof (days_in_month_bounds (period_year (to_period reg))
                  (period_month (to_period reg))) as Hb.
    unfold period_days_in_month in Hn. lia.
  - rewrite Hffm. unfold fpd_month. rewrite Hreg, get_fpd_month_spec by assumption.
    unfold spec_fpd_month. now destruct (day reg <=? 5).
Qed.

Lemma first_full_month_and_fpd_month_witness :
  first_full_month example_contract = Some (mkDate 2024 2 1)
  /\ fpd_month short_contract = Some (mkDate 2024 3 1).
Proof.
  destruct (first_full_month_and_fpd_month example_contract (mkDate 2024 1 1)
              eq_refl eq_refl) as (H1 & _ & _).
  destruct (first_full_month_and_fpd_month short_contract (mkDate 2024 1 10)
              eq_refl eq_refl) as (_ & _ & H2).
  split; [exact H1 | exact H2].
Defined.

(** Lines 55 to 58: the join keeps every contract once and in order; a
    contract's [total_paid] is the sum of the payments of its contract_id,
    0 when it has none, and [cumulative_paid] adds its down payment. *)
Theorem cumulative_paid_is_payments_plus_down_payment contracts payments :
  map Cumulative.contract (contracts_with_cumulative contracts payments) = contracts
  /\ Forall (fun x =>
               let c := Cumulative.contract x in
               Cumulative.total_paid x
               = Qsum (map Payment.total_paid
                           (filter (fun p => Contract.contract_id c
                                             =? Payment.contract_id p)
                                   payments))
               /\ Cumulative.cumulative_paid x
                  = (Cumulative.total_paid x + Contract.down_payment_usd c)%Q)
            (contracts_with_cumulative contracts payments).
Proof.
  unfold contracts_with_cumulative.
  rewrite merge_left_one_match.
  2:{ intros c _. apply (filter_unique_key Z.eqb Z.eqb_eq fst).
      unfold groupby_sum. rewrite map_map. cbn [fst]. rewrite map_id.
      apply unique_NoDup, Z.eqb_eq. }
  split.
  - rewrite map_map. rewrite <- (map_id contracts) at 2. apply map_ext.
    intros c. unfold merged_row. now destruct (filter _ (groupby_sum _ _ _ _)).
  - apply Forall_forall. intros x Hx. apply in_map_iff in Hx as (c & <- & _).
    unfold merged_row. cbv zeta.
    destruct (groupby_sum_lookup Z.eqb Z.eqb_eq Payment.contract_id
                Payment.total_paid payments (Contract.contract_id c))
      as [[E1 E2] | E1]; cbv beta zeta in *; rewrite E1;
      unfold cumulative_of;
      cbn [Cumulative.contract Cumulative.total_paid Cumulative.cumulative_paid
           fillna0 snd];
      rewrite ?E2; split; reflexivity.
Qed.

(** ** The schedule: payments of a row, contracts without a row *)

Lemma somes_In {A : Type} (x : A) l : In x (somes l) <-> In (Some x) l.
Proof.
  unfold somes. rewrite in_flat_map. split.
  - intros (o & Ho & Hx). destruct o as [a|]; [|destruct Hx].
    destruct Hx as [->|[]]. exact Ho.
  - intros H. exists (Some x). split; [exact H | now left].
Qed.

(** [np.rint] moves a number by at most one half. *)
Lemma rint_error q :
  (inject_Z (rint q) - (1 # 2) <= q <= inject_Z (rint q) + (1 # 2))%Q.
Proof.
  unfold rint.
  pose proof (Qfloor_le q) as H1. pose proof (Qlt_floor q) as H2.
  rewrite inject_Z_plus in H2. change (inject_Z 1) with 1%Q in H2.
  destruct (Qcompare_spec (q - inject_Z (Qfloor q)) (1 # 2)) as [E|E|E].
  - destruct (Z.even (Qfloor q)); rewrite ?inject_Z_plus;
      change (inject_Z 1) with 1%Q; split; Lqa.lra.
  - split; Lqa.lra.
  - rewrite inject_Z_plus. change (inject_Z 1) with 1%Q. split; Lqa.lra.
Qed.

(** [np.rint] stays between the whole numbers that bound its argument. *)
Lemma rint_range q lo hi :
  (inject_Z lo <= q <= inject_Z hi)%Q -> lo <= rint q <= hi.
Proof.
  intros [Hlo Hhi]. unfold rint.
  pose proof (Qfloor_le q) as H1. pose proof (Qlt_floor q) as H2.
  assert (Hf1 : lo <= Qfloor q).
  { apply Qfloor_resp_le in Hlo. now rewrite Qfloor_Z in Hlo. }
  assert (Hf2 : Qfloor q <= hi).
  { apply Qfloor_resp_le in Hhi. now rewrite Qfloor_Z in Hhi. }
  destruct (Z.eq_dec (Qfloor q) hi) as [E|E].
  - assert (Hq : (q - inject_Z (Qfloor q) < 1 # 2)%Q) by (rewrite E in *; Lqa.lra).
    apply (proj1 (Qlt_alt _ _)) in Hq. rewrite Hq. lia.
  - destruct (Qcompare (q - inject_Z (Qfloor q)) (1 # 2));
      try destruct (Z.even (Qfloor q)); lia.
Qed.

Lemma round2_scaled q : (round2 q * 100 == inject_Z (rint (q * 100)))%Q.
Proof.
  unfold round2. generalize (rint (q * 100)). intros n.
  unfold Qeq, Qmult, inject_Z. cbn [Qnum Qden]. lia.
Qed.

(** Rounding to cents moves an amount by at most half a cent. *)
Lemma round2_error q : (round2 q - (1 # 200) <= q <= round2 q + (1 # 200))%Q.
Proof.
  pose proof (rint_error (q * 100)) as H. rewrite <- round2_scaled in H.
  split; Lqa.lra.
Qed.

Lemma round2_range q : (0 <= q <= 100)%Q -> (0 <= round2 q <= 100)%Q.
Proof.
  intros H. pose proof (rint_range (q * 100) 0 10000) as Hr.
  assert (H' : (inject_Z 0 <= q * 100 <= inject_Z 10000)%Q).
  { change (inject_Z 0) with 0%Q. change (inject_Z 10000) with 10000%Q.
    split; Lqa.lra. }
  specialize (Hr H').
  unfold round2. revert Hr. generalize (rint (q * 100)). intros n Hn.
  unfold Qle. cbn [Qnum Qden]. lia.
Qed.

(** Rounding to cents a second time changes nothing. *)
Lemma round2_idem q : round2 (round2 q) = round2 q.
Proof.
  unfold round2. generalize (rint (q * 100)). intros n.
  f_equal. unfold rint.
  assert (Hf : Qfloor ((n # 100) * 100) = n).
  { unfold Qfloor, Qmult. cbn [Qnum Qden inject_Z].
    change (Z.pos (100 * 1)) with 100. apply Z.div_mul. lia. }
  rewrite Hf.
  assert (Hc : Qcompare ((n # 100) * 100 - inject_Z n) (1 # 2) = Lt).
  { apply (proj1 (Qlt_alt _ _)).
    unfold Qlt, Qminus, Qplus, Qopp, Qmult, inject_Z.
    cbn [Qnum Qden]. lia. }
  rewrite Hc. reflexivity.
Qed.

(** C6. Every row of the schedule carries, as expected payment, the daily
    amount of its contract times the number of days of the row's month,
    rounded to two decimals: a whole number of cents that is within half a
    cent of the product; that number of days is the length of the calendar
    month.  Which of two cents is taken when the product lies halfway is
    not stated: the program rounds the float64 of the product. *)
Theorem C6_expected_payment_is_daily_times_days raw payments r :
  In r (ScheduleEntry raw payments) ->
  exists c,
    In c (contracts_df raw)
    /\ Contract.contract_id c = Trend.contract_id r
    /\ (exists cents : Z, Trend.expected_payment r = (cents # 100)%Q)
    /\ (let product := Contract.daily_payment_amount_usd c
                        * inject_Z (period_days_in_month (Trend.month r)) in
        product - (1 # 200) <= Trend.expected_payment r <= product + (1 # 200))%Q
    /\ period_days_in_month (Trend.month r)
       = days_from_civil (to_timestamp (Trend.month r + 1))
         - days_from_civil (to_timestamp (Trend.month r)).
Proof.
  unfold ScheduleEntry. rewrite schedule_as_map, in_map_iff.
  intros (e & <- & He).
  destruct (merged_trend_row (payments_df raw payments) e) as [paid ->].
  unfold expected_rows in He. apply in_flat_map in He as (c & Hc & He).
  exists c. split; [assumption|].
  unfold expected_rows_of in He.
  destruct (start_month c), (end_month c); try (destruct He).
  apply in_map_iff in He as (m & <- & _).
  cbn [trend_of Trend.contract_id Trend.expected_payment Trend.month
       Expected.contract_id Expected.expected_payment Expected.month].
  split; [reflexivity|]. split; [|split].
  - eexists. unfold round2. reflexivity.
  - cbv zeta.
    pose proof (round2_error (Contract.daily_payment_amount_usd c
                              * inject_Z (period_days_in_month m))) as H.
    split; Lqa.lra.
  - symmetry. apply days_in_month_spec.
Qed.

Lemma C6_expected_payment_is_daily_times_days_witness :
  exists c,
    In c (contracts_df [example_contract])
    /\ Contract.contract_id c = 1
    /\ (exists cents : Z, (31000 # 100)%Q = (cents # 100)%Q)
    /\ (let product := Contract.daily_payment_amount_usd c
                        * inject_Z (period_days_in_month january_2024) in
        product - (1 # 200) <= 31000 # 100 <= product + (1 # 200))%Q
    /\ period_days_in_month january_2024
       = days_from_civil (to_timestamp (january_2024 + 1))
         - days_from_civil (to_timestamp january_2024).
Proof.
  apply (C6_expected_payment_is_daily_times_days [example_contract] example_payments
           (Trend.mk 1 "WakandaSolar" january_2024 (31000 # 100) (10000 # 100))).
  vm_compute. left. reflexivity.
Defined.

(** The row of a key in [actual_df]: none when no payment has the key, else
    one, with the rounded sum over the payments of the key. *)
Lemma actual_df_lookup pdf k :
  (filter (fun a => row_key_eqb k (fst a)) (actual_df pdf) = []
   /\ filter (has_key k) pdf = [])
  \/ filter (fun a => row_key_eqb k (fst a)) (actual_df pdf)
     = [(k, round2 (Qsum (map PaymentC.total_paid (filter (has_key k) pdf))))].
Proof.
  unfold actual_df. rewrite filter_map_swap. cbn [fst].
  pose proof (unique_NoDup row_key_eqb row_key_eqb_spec
                (somes (map actual_key pdf))) as Hnd.
  destruct (filter (fun a => row_key_eqb k a)
              (unique row_key_eqb (somes (map actual_key pdf)))) as [|a m] eqn:F.
  - left. split; [reflexivity|]. apply filter_none. intros p Hp.
    destruct (has_key k p) eqn:E; [|reflexivity]. exfalso.
    unfold has_key in E. destruct (actual_key p) as [k'|] eqn:Ek; [|discriminate].
    assert (H : In k' (filter (fun a => row_key_eqb k a)
                         (unique row_key_eqb (somes (map actual_key pdf))))).
    { apply filter_In. split; [|assumption].
      apply (unique_In row_key_eqb row_key_eqb_spec), somes_In.
      rewrite <- Ek. now apply in_map. }
    rewrite F in H. destruct H.
  - right.
    assert (Ha : In a (filter (fun a => row_key_eqb k a)
                         (unique row_key_eqb (somes (map actual_key pdf)))))
      by (rewrite F; now left).
    apply filter_In in Ha as [Ha E]. apply row_key_eqb_spec in E. subst a.
    rewrite (filter_only (fun a => row_key_eqb k a) k) in F; auto.
    + inversion F; subst. reflexivity.
    + now apply row_key_eqb_spec.
    + intros x _ Ex. symmetry. now apply row_key_eqb_spec.
Qed.

(** A payment, once its company is joined, has the key of a contract and a
    month exactly when it is a payment of the contract dated in the month. *)
Lemma has_key_of_payment contracts c m p :
  NoDup (map Contract.contract_id contracts) -> In c contracts ->
  has_key (Contract.contract_id c, Contract.company c, m)
    (PaymentC.mk (Payment.contract_id p) (Payment.pay_month p)
       (Payment.total_paid p)
       (option_map Contract.company
          (lookup_contract contracts (Payment.contract_id p))))
  = pays_in_period (Contract.contract_id c) m p.
Proof.
  intros Hnd Hc. unfold has_key, actual_key, pays_in_period, PaymentC.month.
  cbn [PaymentC.company PaymentC.pay_month PaymentC.contract_id].
  destruct (Z.eqb_spec (Contract.contract_id c) (Payment.contract_id p)) as [E|E].
  - rewrite <- E, (lookup_contract_In contracts Hnd c Hc). cbn [option_map].
    destruct (Payment.pay_month p) as [d|]; cbn [option_map andb]; [|reflexivity].
    unfold row_key_eqb. rewrite Z.eqb_refl, String.eqb_refl. reflexivity.
  - cbn [andb].
    destruct (lookup_contract contracts (Payment.contract_id p)); cbn [option_map];
      [|reflexivity].
    destruct (Payment.pay_month p) as [d|]; cbn [option_map]; [|reflexivity].
    unfold row_key_eqb. apply Z.eqb_neq in E. rewrite E. reflexivity.
Qed.

(** In the model a schedule row holds the rounding of the exact sum of the
    payments of its contract dated in its month. *)
Lemma schedule_total_paid_round2 raw payments r :
  In r (ScheduleEntry raw payments) ->
  Trend.total_paid r
  = round2 (paid_in_period payments (Trend.contract_id r) (Trend.month r)).
Proof.
  intros Hr. unfold ScheduleEntry in Hr.
  rewrite schedule_as_map in Hr. apply in_map_iff in Hr as (e & <- & He).
  unfold expected_rows in He. apply in_flat_map in He as (c & Hc & He).
  pose proof (drop_duplicates_NoDup raw) as Hnd. fold (contracts_df raw) in Hnd.
  assert (Hk : expected_key e
               = (Contract.contract_id c, Contract.company c, Expected.month e)).
  { unfold expected_rows_of in He.
    destruct (start_month c), (end_month c); try destruct He.
    apply in_map_iff in He as (m & <- & _). reflexivity. }
  assert (Hid : Expected.contract_id e = Contract.contract_id c)
    by (now inversion Hk).
  assert (Hsum : map PaymentC.total_paid
                   (filter (has_key (expected_key e)) (payments_df raw payments))
                 = map Payment.total_paid
                     (filter (pays_in_period (Contract.contract_id c)
                                (Expected.month e)) payments)).
  { unfold payments_df. rewrite (payments_add_company_map _ Hnd).
    rewrite filter_map_swap, map_map. cbn [PaymentC.total_paid]. f_equal.
    apply filter_ext. intros p. rewrite Hk.
    apply (has_key_of_payment _ c _ p Hnd Hc). }
  unfold merged_row, paid_in_period.
  destruct (actual_df_lookup (payments_df raw payments) (expected_key e))
    as [[E1 E2] | E1]; rewrite E1; unfold trend_of;
    cbn [Trend.total_paid Trend.contract_id Trend.month fillna0 snd];
    rewrite Hid, <- Hsum.
  - rewrite E2. reflexivity.
  - apply round2_idem.
Qed.

(** Lines 64 to 68 and 90 to 95: the [total_paid] of a schedule row is a
    whole number of cents within half a cent of the sum of the payments of
    its contract dated in its month, so 0 when there is none; payments of
    a contract_id of no contract, and payments without a date, enter no
    row.  Which of two cents is taken when the sum lies halfway is not
    stated: the program rounds the float64 of the sum. *)
Theorem schedule_total_paid_is_month_sum raw payments :
  Forall (fun r =>
            let paid :=
              paid_in_period payments (Trend.contract_id r) (Trend.month r) in
            (exists cents : Z, Trend.total_paid r = (cents # 100)%Q)
            /\ (paid - (1 # 200) <= Trend.total_paid r <= paid + (1 # 200))%Q)
         (ScheduleEntry raw payments).
Proof.
  apply Forall_forall. intros r Hr. cbv zeta.
  rewrite (schedule_total_paid_round2 raw payments r Hr). split.
  - eexists. unfold round2. reflexivity.
  - pose proof (round2_error (paid_in_period payments (Trend.contract_id r)
                                (Trend.month r))) as H.
    split; Lqa.lra.
Qed.

Lemma period_range_nil s e : period_range s e = [] <-> e < s.
Proof.
  unfold period_range. split.
  - intros H. apply (f_equal (@List.length _)) in H.
    rewrite length_map, length_seq in H. cbn in H. lia.
  - intros H. replace (Z.to_nat (e - s + 1)) with 0%nat by lia. reflexivity.
Qed.

(** The month of a date is before a month [m] exactly when the date is
    before the first day of [m]. *)
Lemma to_period_lt d m :
  valid_date d = true ->
  to_period d < m <-> days_from_civil d < days_from_civil (to_timestamp m).
Proof.
  intros Hv. pose proof (month_start_leb m d Hv) as H.
  unfold date_leb in H. rewrite Z.leb_le in H. lia.
Qed.

(** Lines 74 to 80: a contract has no schedule row exactly when its
    registration date plus its tenor falls before the first day of the
    registration month; a tenor of 0 days, or a negative one that stays
    within the month, still gives the row of the registration month. *)
Theorem schedule_empty_iff_end_before_month raw payments c reg n :
  In c (contracts_df raw) ->
  Contract.registration_date c = Some reg ->
  valid_date reg = true ->
  Contract.contract_tenor_days c = Some n ->
  rows_of_contract (Contract.contract_id c) (ScheduleEntry raw payments) = []
  <-> day reg + n < 1.
Proof.
  intros Hc Hreg Hv Hn.
  pose proof (drop_duplicates_NoDup raw) as Hnd. fold (contracts_df raw) in Hnd.
  pose proof (schedule_rows_of_contract (contracts_df raw)
                (payments_df raw payments) c Hnd Hc) as Hrows.
  fold (ScheduleEntry raw payments) in Hrows.
  rewrite (expected_rows_of_months c (to_period reg)
             (to_period (add_days reg n))) in Hrows.
  2:{ unfold start_month. now rewrite Hreg. }
  2:{ unfold end_month. now rewrite Hreg, Hn. }
  destruct (add_days_spec reg n) as [Hd Hva].
  pose proof (valid_date_ranges reg Hv) as [Hm _].
  pose proof (days_from_month_start reg Hm) as Hs.
  pose proof (to_period_lt (add_days reg n) (to_period reg) Hva) as Hlt.
  pose proof (period_range_nil (to_period reg) (to_period (add_days reg n))) as Hnil.
  rewrite <- Hrows in Hnil. split.
  - intros H. rewrite H in Hnil. cbn [map] in Hnil.
    pose proof (proj1 Hnil eq_refl). lia.
  - intros H. apply map_eq_nil with (f := Trend.month). apply Hnil. lia.
Qed.

Lemma schedule_empty_iff_end_before_month_witness :
  rows_of_contract (Contract.contract_id example_contract)
    (ScheduleEntry [example_contract] example_payments) = []
  <-> 1 + 90 < 1.
Proof.
  apply (schedule_empty_iff_end_before_month [example_contract] example_payments
           example_contract (mkDate 2024 1 1) 90);
    [now left | reflexivity | reflexivity | reflexivity].
Defined.

(** ** The months-on-book filter *)

(** The contract of a row kept by the filter of line 196, and what the
    filter says of the row's month. *)
Lemma on_book_row_origin raw payments v :
  In v (vintage_trend raw payments) ->
            exists c reg n,
              In c (contracts_df raw) /\ is_financed c = true
              /\ Contract.contract_id c = Trend.contract_id (Vintage.row v)
              /\ Contract.registration_date c = Some reg
              /\ Contract.contract_tenor_days c = Some n
              /\ days_from_civil reg
                 <= days_from_civil (to_timestamp (Trend.month (Vintage.row v)))
                 < days_from_civil reg + 30 * (n / 30 + 1).
Proof.
  intros Hv. unfold vintage_trend, vintage_df in Hv.
  apply filter_In in Hv as [Hv Hb].
  pose proof (drop_duplicates_NoDup raw) as Hnd. fold (contracts_df raw) in Hnd.
  pose proof (vintage_merge_row _ _ _ Hv) as Hr.
  apply trend_df_financed in Hr as (_ & c & Hc & Hid & Hf).
  rewrite (vintage_merge_map _ Hnd) in Hv. apply in_map_iff in Hv as (r & <- & _).
  cbn [Vintage.row vintage_of] in Hid |- *.
  unfold on_book, vintage_of in Hb.
  cbn [Vintage.months_on_book Vintage.tenor_months] in Hb.
  rewrite <- Hid, (lookup_contract_In _ Hnd c Hc) in Hb.
  unfold months_on_book, tenor_months, days_between in Hb.
  destruct (Contract.registration_date c) as [reg|] eqn:Hreg;
    cbn [option_map] in Hb; [|discriminate].
  destruct (Contract.contract_tenor_days c) as [n|] eqn:Hn;
    cbn [option_map] in Hb; [|discriminate].
  exists c, reg, n. repeat (split; [assumption || reflexivity|]).
  apply andb_prop in Hb as [H1 H2].
  apply Z.geb_le in H1. apply Z.leb_le in H2.
  revert H1 H2.
  generalize (days_from_civil (to_timestamp (Trend.month r))).
  generalize (days_from_civil reg). intros a b H1 H2.
  Z.div_mod_to_equations. lia.
Qed.

(** Lines 179 to 196: every row the filter keeps belongs to a financed
    contract with a registration date and a tenor, and its month begins on
    or after the registration date and less than [30 * (tenor // 30 + 1)]
    days after it. *)
Theorem months_on_book_window raw payments :
  Forall (fun v =>
            exists c reg n,
              In c (contracts_df raw) /\ is_financed c = true
              /\ Contract.contract_id c = Trend.contract_id (Vintage.row v)
              /\ Contract.registration_date c = Some reg
              /\ Contract.contract_tenor_days c = Some n
              /\ days_from_civil reg
                 <= days_from_civil (to_timestamp (Trend.month (Vintage.row v)))
                 < days_from_civil reg + 30 * (n / 30 + 1))
         (vintage_trend raw payments).
Proof.
  apply Forall_forall. intros v Hv. now apply (on_book_row_origin raw payments).
Qed.

(** Lines 194 to 196: of a contract registered after the first day of a
    month, the row of the registration month has [months_on_book = -1]
    and is dropped; it reaches no vintage, product, FPD or cash-flow
    table. *)
Theorem registration_month_is_dropped raw payments c reg :
  In c (contracts_df raw) ->
  Contract.registration_date c = Some reg ->
  valid_date reg = true ->
  1 < day reg ->
  schedule_rows_at (vintage_trend raw payments) (Contract.contract_id c)
    (to_timestamp (to_period reg)) = [].
Proof.
  intros Hc Hreg Hv Hday.
  pose proof (drop_duplicates_NoDup raw) as Hnd. fold (contracts_df raw) in Hnd.
  unfold schedule_rows_at. apply filter_none. intros v Hin.
  destruct (Z.eqb_spec (Trend.contract_id (Vintage.row v)) (Contract.contract_id c))
    as [Hid|]; [|reflexivity].
  cbn [andb]. apply not_true_is_false. intros Hm.
  apply date_eqb_spec in Hm.
  destruct (on_book_row_origin raw payments v Hin)
    as (c' & reg' & n & Hc' & _ & Hid' & Hreg' & _ & Hlo & _).
  assert (c' = c) by (apply (contract_of_id _ Hnd); congruence). subst c'.
  assert (reg' = reg) by congruence. subst reg'.
  rewrite <- Hm in Hlo.
  pose proof (valid_date_ranges reg Hv) as [Hmo _].
  pose proof (days_from_month_start reg Hmo). lia.
Qed.

Lemma registration_month_is_dropped_witness :
  schedule_rows_at (vintage_trend [short_contract] short_payments)
    (Contract.contract_id short_contract) (mkDate 2024 1 1) = [].
Proof.
  apply (registration_month_is_dropped [short_contract] short_payments
           short_contract (mkDate 2024 1 10));
    [now left | reflexivity | reflexivity | reflexivity].
Defined.

(** ** Portfolio at risk: counters, totals, the cut at the latest payment *)

Lemma spec_miss_counter_bound met : forall missed i x,
  0 <= missed ->
  nth_error (spec_miss_counter missed met) i = Some x ->
  0 <= x <= missed + Z.of_nat i + 1.
Proof.
  induction met as [|b met IH]; intros missed i x Hm H;
    cbn [spec_miss_counter] in H.
  - destruct i; discriminate.
  - destruct i as [|i]; cbn [nth_error] in H.
    + inversion H; subst. destruct b; lia.
    + apply IH in H; [|destruct b; lia]. destruct b; lia.
Qed.

Lemma par_df_bucket trend p :
  In p (par_df trend) -> Par.PAR_bucket p = par_bucket (Par.consec_missed p).
Proof.
  unfold par_df. intros H. apply in_map_iff in H as (x & <- & _). reflexivity.
Qed.

(** Lines 121 to 144: on the [i]-th schedule row of a contract, counted
    from 0, the counter of missed months is at most [i + 1]; so no contract
    is in PAR120 before its fourth schedule month, whatever was paid. *)
Theorem PAR_counter_bounded_by_position raw payments contract i p :
  nth_error (par_rows_of_contract contract (PAR_rows raw payments)) i = Some p ->
  0 <= Par.consec_missed p <= Z.of_nat i + 1
  /\ ((i < 3)%nat -> Par.PAR_bucket p <> PAR120).
Proof.
  intros H. unfold PAR_rows in H.
  set (trend := financed_trend raw payments) in *.
  assert (Hb : 0 <= Par.consec_missed p <= Z.of_nat i + 1).
  { pose proof (map_nth_error Par.consec_missed _ _ H) as Hn.
    rewrite par_rows_of_contract_counter in Hn.
    apply spec_miss_counter_bound in Hn; lia. }
  split; [exact Hb|]. intros Hi.
  apply nth_error_In, filter_In in H as [H _].
  rewrite (par_df_bucket _ _ H). unfold par_bucket.
  destruct (Par.consec_missed p >=? 4) eqn:E; [lia|].
  destruct (Par.consec_missed p =? 3); [discriminate|].
  destruct (Par.consec_missed p =? 2); [discriminate|].
  destruct (Par.consec_missed p =? 1); discriminate.
Qed.

Lemma PAR_counter_bounded_by_position_witness :
  exists p,
    nth_error (par_rows_of_contract 1 (PAR_rows [example_contract] example_payments))
      2 = Some p
    /\ 0 <= Par.consec_missed p <= 3
    /\ Par.PAR_bucket p <> PAR120.
Proof.
  eexists. split; [vm_compute; reflexivity|].
  match goal with
  | |- context [Par.consec_missed ?p] =>
      destruct (PAR_counter_bounded_by_position [example_contract]
                  example_payments 1 2%nat p) as [H1 H2];
        [vm_compute; reflexivity|]
  end.
  split; [exact H1 | apply H2; lia].
Defined.

Lemma Qsum_Permutation l l' : Permutation l l' -> (Qsum l == Qsum l')%Q.
Proof.
  induction 1; cbn [Qsum fold_right] in *.
  - reflexivity.
  - fold (Qsum l). fold (Qsum l'). rewrite IHPermutation. reflexivity.
  - ring.
  - etransitivity; eassumption.
Qed.

Lemma par_amount_cons p par k b :
  par_amount (p :: par) k b
  = if cm_key_eqb k (trend_cm_key (Par.row p))
       && PAR_bucket_eqb b (Par.PAR_bucket p)
    then (Trend.expected_payment (Par.row p) + par_amount par k b)%Q
    else par_amount par k b.
Proof.
  unfold par_amount. cbn [filter].
  destruct (cm_key_eqb k (trend_cm_key (Par.row p))
            && PAR_bucket_eqb b (Par.PAR_bucket p)); reflexivity.
Qed.

(** The five bucket amounts of a company and a month add up to the expected
    payments of all the rows of the company and the month. *)
Lemma par_amount_total par k :
  (Qsum (map (par_amount par k) par_buckets)
   == Qsum (map (fun p => Trend.expected_payment (Par.row p))
                (filter (fun p => cm_key_eqb k (trend_cm_key (Par.row p))) par)))%Q.
Proof.
  unfold par_buckets. cbn [map Qsum fold_right].
  induction par as [|p par IH].
  - reflexivity.
  - rewrite !par_amount_cons. cbn [filter].
    destruct (cm_key_eqb k (trend_cm_key (Par.row p))); cbn [andb].
    + cbn [map Qsum fold_right]. fold (Qsum (map (fun p => Trend.expected_payment (Par.row p))
                (filter (fun p => cm_key_eqb k (trend_cm_key (Par.row p))) par))).
      rewrite <- IH.
      destruct (Par.PAR_bucket p); cbn [PAR_bucket_eqb]; ring.
    + exact IH.
Qed.

(** Lines 145 to 161: [Total_PAR] of a company and a month is the summed
    [expected_payment] of all the financed schedule rows of the company and
    the month, the rows in bucket Current included: it is the expected
    amount of the month, not an amount at risk. *)
Theorem Total_PAR_is_expected_of_month raw payments :
  Forall (fun g =>
            (ParPivot.Total_PAR g
             == Qsum (map Trend.expected_payment
                        (filter (fun r => cm_key_eqb
                                            (ParPivot.company g, ParPivot.month g)
                                            (trend_cm_key r))
                                (financed_trend raw payments))))%Q)
         (PAR_Trend raw payments).
Proof.
  apply Forall_forall. intros g Hg. unfold PAR_Trend, par_pivot in Hg.
  apply in_map_iff in Hg as (k & <- & _).
  cbn [ParPivot.Total_PAR ParPivot.company ParPivot.month].
  rewrite par_amount_total. destruct k as [c m]. cbn [fst snd].
  set (trend := financed_trend raw payments).
  rewrite <- (map_map Par.row Trend.expected_payment).
  rewrite <- (filter_map_swap Par.row
                (fun r => cm_key_eqb (c, m) (trend_cm_key r))).
  rewrite par_df_rows. apply Qsum_Permutation, Permutation_map.
  apply Permutation_filter_rows, Permutation_sym, TrendSort.Permuted_sort.
Qed.

Lemma max_date_fold l : forall acc m,
  fold_left (fun acc o =>
               match acc, o with
               | None, _ => o
               | Some _, None => acc
               | Some a, Some d => if date_leb a d then Some d else acc
               end) l acc = Some m ->
  (acc = Some m \/ In (Some m) l)
  /\ forall d, acc = Some d \/ In (Some d) l ->
               days_from_civil d <= days_from_civil m.
Proof.
  induction l as [|o l IH]; intros acc m H; cbn [fold_left] in H.
  - subst acc. split; [now left|]. intros d [E|[]]. inversion E. lia.
  - apply IH in H as [H1 H2]. destruct acc as [a|].
    + destruct o as [d0|].
      * unfold date_leb in *. destruct (Z.leb_spec (days_from_civil a) (days_from_civil d0)).
        -- split.
           ++ destruct H1 as [H1|H1]; right; [left; exact H1 | right; exact H1].
           ++ intros d [E|[E|E]].
              ** inversion E; subst.
                 pose proof (H2 d0 (or_introl eq_refl)). lia.
              ** apply H2. left. exact E.
              ** apply H2. now right.
        -- split.
           ++ destruct H1 as [H1|H1]; [left; exact H1 | right; right; exact H1].
           ++ intros d [E|[E|E]].
              ** apply H2. now left.
              ** inversion E; subst.
                 pose proof (H2 a (or_introl eq_refl)). lia.
              ** apply H2. now right.
      * split.
        -- destruct H1 as [H1|H1]; [left; exact H1 | right; right; exact H1].
        -- intros d [E|[E|E]]; [apply H2; now left | discriminate | apply H2; now right].
    + split.
      * destruct H1 as [H1|H1]; right; [left; exact H1 | right; exact H1].
      * intros d [E|[E|E]]; [discriminate | apply H2; now left | apply H2; now right].
Qed.

(** Lines 149 and 150: every row of the PAR table has a month that begins
    on or before the latest payment date, taken over all the payments,
    those of contracts outside the table included; without a dated payment
    the table is empty. *)
Theorem PAR_Trend_ends_at_latest_payment raw payments :
  Forall (fun g =>
            exists p d,
              In p payments /\ Payment.pay_month p = Some d
              /\ (forall p' d', In p' payments -> Payment.pay_month p' = Some d' ->
                                days_from_civil d' <= days_from_civil d)
              /\ days_from_civil (to_timestamp (ParPivot.month g))
                 <= days_from_civil d)
         (PAR_Trend raw payments).
Proof.
  apply Forall_forall. intros g Hg. unfold PAR_Trend, par_pivot in Hg.
  apply in_map_iff in Hg as (k & <- & Hk). apply filter_In in Hk as [_ Hk].
  cbn [ParPivot.month].
  pose proof (drop_duplicates_NoDup raw) as Hnd. fold (contracts_df raw) in Hnd.
  assert (Hm : map PaymentC.pay_month (payments_df raw payments)
               = map Payment.pay_month payments).
  { unfold payments_df. rewrite (payments_add_company_map _ Hnd), map_map.
    reflexivity. }
  rewrite Hm in Hk. unfold leb_opt_date in Hk.
  destruct (max_date (map Payment.pay_month payments)) as [d|] eqn:E;
    [|discriminate].
  unfold max_date in E. apply max_date_fold in E as [[E|E] H2]; [discriminate|].
  apply in_map_iff in E as (p & Hp & Hin).
  exists p, d. split; [exact Hin|]. split; [exact Hp|]. split.
  - intros p' d' Hin' Hp'. apply H2. right. rewrite <- Hp'. now apply in_map.
  - unfold date_leb in Hk. now apply Z.leb_le in Hk.
Qed.

(** ** Rounding and the percentages *)

Lemma count_true_range {A : Type} (f : A -> bool) l :
  0 <= count_true f l <= Z.of_nat (List.length l).
Proof.
  unfold count_true. pose proof (filter_length_le f l). lia.
Qed.

(** A rate of [count] out of [n], with [n] at least 1, is a number from 0
    to 100. *)
Lemma rate_range count n :
  0 <= count <= n -> 1 <= n ->
  exists q, rate count n = Fin q /\ (0 <= q <= 100)%Q.
Proof.
  intros Hc Hn. unfold rate, fdiv.
  assert (Hz : Qeq_bool (inject_Z n) 0 = false).
  { apply not_true_is_false. intros H. apply Qeq_bool_eq in H.
    unfold Qeq, inject_Z in H. cbn [Qnum Qden] in H. lia. }
  rewrite Hz. cbn [fmul fround2]. eexists. split; [reflexivity|].
  apply round2_range.
  assert (H0 : (0 <= inject_Z count)%Q) by (unfold Qle; cbn; lia).
  assert (H1 : (inject_Z count <= inject_Z n)%Q) by (unfold Qle; cbn; lia).
  assert (H2 : (0 < inject_Z n)%Q) by (unfold Qlt; cbn; lia).
  split.
  - apply Qmult_le_0_compat; [|discriminate].
    apply Qle_shift_div_l; [assumption|]. Lqa.lra.
  - setoid_replace 100%Q with (1 * 100)%Q at 2 by reflexivity.
    apply Qmult_le_compat_r; [|discriminate].
    apply Qle_shift_div_r; [assumption|]. Lqa.lra.
Qed.

(** Lines 262 to 277: in every group of the FPD table the two counts lie
    between 0 and the number of contracts, which is at least 1, and the two
    rates are numbers from 0 to 100: this division never meets a zero. *)
Theorem FPD_rates_within_0_and_100 raw payments :
  Forall (fun g =>
            1 <= FpdRate.contracts g
            /\ 0 <= FpdRate.FPD_count g <= FpdRate.contracts g
            /\ 0 <= FpdRate.FPD_zero_count g <= FpdRate.contracts g
            /\ exists q q0,
                 FpdRate.FPD_rate g = Fin q /\ FpdRate.FPD_zero_rate g = Fin q0
                 /\ (0 <= q <= 100)%Q /\ (0 <= q0 <= 100)%Q)
         (FPD_Rate_Trend raw payments).
Proof.
  unfold FPD_Rate_Trend. generalize (fpd_final raw payments). intros fpd.
  pose proof (FPD_rate_denominator_positive fpd) as Hpos.
  rewrite Forall_forall in *. intros g Hg. specialize (Hpos g Hg).
  unfold FPD_rate_trend_of in Hg. apply in_map_iff in Hg as (k & <- & _).
  destruct k as [[c r] f].
  cbn [FpdRate.contracts FpdRate.FPD_count FpdRate.FPD_zero_count
       FpdRate.FPD_rate FpdRate.FPD_zero_rate] in *.
  set (grp := filter (in_fpd_group (c, r, f)) fpd) in *.
  pose proof (count_true_range Fpd.FPD_flag grp) as H1.
  pose proof (count_true_range Fpd.FPD_zero_flag grp) as H2.
  destruct (rate_range _ _ H1 Hpos) as (q & Eq & Hq).
  destruct (rate_range _ _ H2 Hpos) as (q0 & Eq0 & Hq0).
  split; [exact Hpos|]. split; [exact H1|]. split; [exact H2|].
  exists q, q0. auto.
Qed.

(** Lines 162 to 167: in a row of the PAR table whose [Total_PAR] is above
    0 the five percentages are numbers that add up to 100 within 0.025,
    the rounding of five terms; in every other row all five are 0. *)
Theorem PAR_percentages_add_up raw payments :
  Forall (fun g =>
            if Qltb 0 (ParPivot.Total_PAR g)
            then exists q : PAR_bucket -> Q,
                   (forall b, ParPivot.pct g b = Fin (q b))
                   /\ (100 - (25 # 1000)
                       <= q PAR30 + q PAR60 + q PAR90 + q PAR120 + q Current
                       <= 100 + (25 # 1000))%Q
            else forall b, is_zero (ParPivot.pct g b) = true)
         (PAR_Trend raw payments).
Proof.
  apply Forall_forall. intros g Hg. unfold PAR_Trend, par_pivot in Hg.
  apply in_map_iff in Hg as (k & <- & _).
  cbn [ParPivot.Total_PAR ParPivot.pct].
  set (amount := par_amount (par_df (financed_trend raw payments)) k).
  set (T := Qsum (map amount par_buckets)).
  destruct (Qltb 0 T) eqn:E.
  2:{ intros b. now apply par_pct_guarded. }
  apply Qltb_lt in E.
  assert (Hz : Qeq_bool T 0 = false).
  { apply not_true_is_false. intros H. apply Qeq_bool_eq in H. Lqa.lra. }
  exists (fun b => round2 (amount b / T * 100)). split.
  - intros b. unfold par_pct, fdiv.
    replace (Qltb 0 T) with true by (symmetry; now apply Qltb_lt).
    rewrite Hz. reflexivity.
  - assert (HT : (T == amount PAR30 + amount PAR60 + amount PAR90
                       + amount PAR120 + amount Current)%Q).
    { unfold T, par_buckets. cbn [map Qsum fold_right]. ring. }
    assert (Hsum : (amount PAR30 / T * 100 + amount PAR60 / T * 100
                    + amount PAR90 / T * 100 + amount PAR120 / T * 100
                    + amount Current / T * 100 == 100)%Q).
    { transitivity ((amount PAR30 + amount PAR60 + amount PAR90
                     + amount PAR120 + amount Current) / T * 100)%Q.
      - field. intros H. Lqa.lra.
      - rewrite <- HT. field. intros H. Lqa.lra. }
    pose proof (round2_error (amount PAR30 / T * 100)).
    pose proof (round2_error (amount PAR60 / T * 100)).
    pose proof (round2_error (amount PAR90 / T * 100)).
    pose proof (round2_error (amount PAR120 / T * 100)).
    pose proof (round2_error (amount Current / T * 100)).
    split; Lqa.lra.
Qed.

(** ** The valuation between the discounted and the nominal cash flow *)

Lemma round2_nonneg q : (0 <= q)%Q -> (0 <= round2 q)%Q.
Proof.
  intros H.
  pose proof (rint_range (q * 100) 0 (Qceiling (q * 100))) as Hr.
  assert (H' : (inject_Z 0 <= q * 100 <= inject_Z (Qceiling (q * 100)))%Q).
  { split; [change (inject_Z 0) with 0%Q; Lqa.lra | apply Qle_ceiling]. }
  apply Hr in H'. unfold round2. revert H'. generalize (rint (q * 100)).
  intros n Hn. unfold Qle. cbn [Qnum Qden]. lia.
Qed.

Lemma Qsum_nonneg l : Forall (fun q => (0 <= q)%Q) l -> (0 <= Qsum l)%Q.
Proof.
  induction 1 as [|q l Hq _ IH]; cbn [Qsum fold_right].
  - apply Qle_refl.
  - fold (Qsum l). Lqa.lra.
Qed.

Lemma projected_cashflow_nonneg contracts month :
  Forall (fun c => (0 <= Contract.daily_payment_amount_usd c)%Q) contracts ->
  (0 <= projected_cashflow contracts month)%Q.
Proof.
  intros H. unfold projected_cashflow. apply round2_nonneg, Qsum_nonneg.
  apply Forall_forall. intros q Hq. apply in_map_iff in Hq as (c & <- & Hc).
  apply filter_In in Hc as [Hc _]. rewrite Forall_forall in H.
  apply Qmult_le_0_compat; [now apply H|].
  pose proof (days_in_month_bounds (year month) (Calendar.month month)).
  unfold Qle. cbn [Qnum Qden inject_Z]. lia.
Qed.

Local Open Scope R_scope.

Lemma discount_factor_range i :
  (1 <= i <= 12)%nat -> / (1 + discount_rate) <= discount_factor i < 1.
Proof.
  intros Hi.
  assert (H12 : discount_factor 12 = / (1 + discount_rate))
    by (now rewrite discount_factor_inv, monthly_discount_compounds).
  assert (H0 : discount_factor 0 = 1).
  { rewrite discount_factor_inv. cbn [pow]. apply Rinv_1. }
  split.
  - rewrite <- H12. destruct (Nat.eq_dec i 12) as [->|Hne]; [apply Rle_refl|].
    apply Rlt_le, discount_factor_decreasing. lia.
  - rewrite <- H0. apply discount_factor_decreasing. lia.
Qed.

(** The rows numbered from [s] on, none beyond 12: each discounted amount
    lies between the amount over [1 + discount_rate] and the amount. *)
Lemma discounted_sum_bounds l : forall s,
  Forall (fun kv : date * Q => 0 <= Q2R (snd kv)) l ->
  (1 <= s)%nat -> (s + List.length l <= 13)%nat ->
  let flows :=
    map (fun x : date * Q * nat =>
           let '((m, e), i) := x in Q2R e * discount_factor i)
        (combine l (seq s (List.length l))) in
  Rsum (map (fun kv => Q2R (snd kv)) l) * / (1 + discount_rate)
  <= Rsum flows <= Rsum (map (fun kv => Q2R (snd kv)) l).
Proof.
  induction l as [|[m e] l IH]; intros s Hl Hs Hlen; cbv zeta; unfold Rsum;
    cbn [List.length seq combine map fold_right].
  - rewrite Rmult_0_l. lra.
  - inversion Hl as [|? ? He Hl']; subst. cbn [snd] in He.
    cbn [List.length] in Hlen.
    specialize (IH (S s) Hl' ltac:(lia) ltac:(lia)). cbv zeta in IH.
    unfold Rsum in IH. cbn [snd].
    pose proof (discount_factor_range s ltac:(lia)) as Hf.
    assert (H1 : Q2R e * / (1 + discount_rate) <= Q2R e * discount_factor s)
      by (apply Rmult_le_compat_l; lra).
    assert (H2 : Q2R e * discount_factor s <= Q2R e * 1)
      by (apply Rmult_le_compat_l; lra).
    revert IH H1 H2. generalize (/ (1 + discount_rate)). intros k IH H1 H2.
    lra.
Qed.

Local Close Scope R_scope.

(** Lines 322 to 350: when no daily amount is negative, the portfolio value
    lies between the projected cash flows of the window divided by 1.15 and
    their plain sum: at most twelve rows are discounted, each by a factor
    from 1/1.15 up to, but not reaching, 1. *)
Theorem portfolio_value_between_discounted_and_nominal raw :
  Forall (fun c => (0 <= Contract.daily_payment_amount_usd c)%Q)
         (contracts_df raw) ->
  let nominal :=
    Rsum (map (fun kv => Q2R (snd kv)) (monthly_projection (contracts_df raw))) in
  (nominal / (1 + 15 / 100) <= Portfolio_Value raw <= nominal)%R.
Proof.
  intros Hd. cbv zeta. unfold Portfolio_Value, portfolio_value, discounted.
  rewrite map_map.
  set (projection := monthly_projection (contracts_df raw)).
  assert (Hnn : Forall (fun kv : date * Q => (0 <= Q2R (snd kv))%R) projection).
  { pose proof (monthly_projection_amounts (contracts_df raw)) as Ha.
    fold projection in Ha. rewrite Forall_forall in Ha.
    apply Forall_forall. intros kv Hkv.
    rewrite (Ha kv Hkv), <- RMicromega.Q2R_0. apply Qreals.Qle_Rle.
    now apply projected_cashflow_nonneg. }
  assert (Hlen : (1 + List.length projection <= 13)%nat).
  { rewrite <- (length_map fst). unfold projection.
    rewrite monthly_projection_months.
    pose proof (filter_length_le (has_active (contracts_df raw)) projection_months)
      as Hl.
    change (List.length projection_months) with 12%nat in Hl. lia. }
  pose proof (discounted_sum_bounds projection 1 Hnn ltac:(lia) Hlen) as H.
  cbv zeta in H. unfold Rdiv. fold discount_rate.
  assert (Hext : map (fun x : date * Q * nat =>
                        Discounted.discounted_cashflow
                          (let '(m, e, i) := x in
                           Discounted.mk m e (discount_factor i)
                             (Q2R e * discount_factor i)%R))
                     (combine projection (seq 1 (List.length projection)))
                 = map (fun x : date * Q * nat =>
                          let '(m, e, i) := x in (Q2R e * discount_factor i)%R)
                       (combine projection (seq 1 (List.length projection)))).
  { apply map_ext. intros [[m e] i]. reflexivity. }
  rewrite Hext. exact H.
Qed.

Lemma portfolio_value_between_discounted_and_nominal_witness :
  let nominal :=
    Rsum (map (fun kv => Q2R (snd kv))
              (monthly_projection (contracts_df [late_contract]))) in
  (nominal / (1 + 15 / 100) <= Portfolio_Value [late_contract] <= nominal)%R.
Proof.
  apply (portfolio_value_between_discounted_and_nominal [late_contract]).
  repeat constructor. discriminate.
Defined.

(** ** Collection rate and repayment rate: the rows and the running sums *)

Lemma cm_key_eqb_spec (a b : cm_key) : cm_key_eqb a b = true <-> a = b.
Proof.
  unfold cm_key_eqb. destruct a as [c m], b as [d n]. cbn [fst snd].
  rewrite Bool.andb_true_iff, String.eqb_eq, Z.eqb_eq. split.
  - intros [-> ->]. reflexivity.
  - intros E. inversion E. auto.
Qed.

(** The summary rows before the cut of line 110 carry the keys of the
    groups, one row a key. *)
Lemma summary_keys trend ks :
  map (fun s => (Summary.company s, Summary.month s))
      (map (summary_of_group trend) ks) = ks.
Proof.
  rewrite map_map. rewrite <- (map_id ks) at 2. apply map_ext.
  intros [c m]. reflexivity.
Qed.

Lemma trend_summary_keys_NoDup trend :
  NoDup (map (fun s => (Summary.company s, Summary.month s)) (trend_summary trend)).
Proof.
  unfold trend_summary. apply NoDup_map_filter. rewrite summary_keys.
  apply unique_NoDup, cm_key_eqb_spec.
Qed.

(** Lines 101 to 110: the collection-rate table has one row for each
    company and month of the financed schedule up to December 2025, and
    no other row. *)
Theorem collection_rate_rows raw payments :
  NoDup (map (fun s => (Summary.company s, Summary.month s))
             (Collection_Rate_Trend raw payments))
  /\ forall company month,
       In (company, month)
          (map (fun s => (Summary.company s, Summary.month s))
               (Collection_Rate_Trend raw payments))
       <-> (exists r, In r (financed_trend raw payments)
                      /\ Trend.company r = company /\ Trend.month r = month)
           /\ month <= to_period (mkDate 2025 12 1).
Proof.
  unfold Collection_Rate_Trend. generalize (financed_trend raw payments).
  intros trend. split; [apply trend_summary_keys_NoDup|].
  intros c m. unfold trend_summary. rewrite in_map_iff. split.
  - intros (s & Hk & Hs). apply filter_In in Hs as [Hs Hm].
    apply in_map_iff in Hs as (k & <- & Hk').
    cbn [Summary.company Summary.month] in Hk, Hm. destruct k as [c' m'].
    cbn [fst snd] in Hk, Hm. inversion Hk; subst c' m'.
    apply (proj1 (unique_In cm_key_eqb cm_key_eqb_spec _ _)) in Hk'.
    apply in_map_iff in Hk' as (r & Hr & Hin). inversion Hr. subst c m.
    split.
    + exists r. auto.
    + apply (month_start_leb _ reporting_horizon eq_refl) in Hm. exact Hm.
  - intros [(r & Hin & <- & <-) Hm].
    exists (summary_of_group trend (trend_cm_key r)). split; [reflexivity|].
    apply filter_In. split.
    + apply in_map, (proj2 (unique_In cm_key_eqb cm_key_eqb_spec _ _)).
      now apply in_map.
    + cbn [Summary.month summary_of_group trend_cm_key snd].
      apply (month_start_leb _ reporting_horizon eq_refl). exact Hm.
Qed.

Lemma ascii_compare_lt_trans a b c :
  Ascii.compare a b = Lt -> Ascii.compare b c = Lt -> Ascii.compare a c = Lt.
Proof.
  unfold Ascii.compare. rewrite !N.compare_lt_iff. lia.
Qed.

Lemma string_compare_trans a : forall b c,
  String.compare a b <> Gt -> String.compare b c <> Gt -> String.compare a c <> Gt.
Proof.
  induction a as [|x a IH]; intros [|y b] [|z c]; cbn [String.compare];
    try congruence.
  destruct (Ascii.compare x y) eqn:Exy; try congruence;
    destruct (Ascii.compare y z) eqn:Eyz; try congruence.
  - apply Ascii.compare_eq_iff in Exy, Eyz. subst y z.
    assert (E : Ascii.compare x x = Eq).
    { unfold Ascii.compare. apply N.compare_refl. }
    rewrite E. apply IH.
  - apply Ascii.compare_eq_iff in Exy. subst y. rewrite Eyz. congruence.
  - apply Ascii.compare_eq_iff in Eyz. subst z. rewrite Exy. congruence.
  - rewrite (ascii_compare_lt_trans x y z Exy Eyz). congruence.
Qed.

Lemma string_leb_trans a b c :
  String.leb a b = true -> String.leb b c = true -> String.leb a c = true.
Proof.
  unfold String.leb. intros H1 H2.
  pose proof (string_compare_trans a b c) as H.
  destruct (String.compare a b), (String.compare b c), (String.compare a c);
    try discriminate; try reflexivity; exfalso; apply H; congruence.
Qed.

Lemma summary_leb_trans :
  Relations_1.Transitive (fun a b => is_true (summary_leb a b)).
Proof.
  intros a b c. unfold summary_leb, is_true.
  destruct (String.eqb_spec (Summary.company a) (Summary.company b)) as [Eab|Nab];
    destruct (String.eqb_spec (Summary.company b) (Summary.company c)) as [Ebc|Nbc];
    destruct (String.eqb_spec (Summary.company a) (Summary.company c)) as [Eac|Nac];
    try congruence; try lia.
  - intros H1 H2. exfalso. apply Nab. apply String.leb_antisym; [assumption|].
    now rewrite Eac.
  - apply string_leb_trans.
Qed.

Lemma StronglySorted_split {A : Type} (R : A -> A -> Prop) pre r post :
  StronglySorted R (pre ++ r :: post) ->
  Forall (fun s => R s r) pre /\ Forall (R r) post.
Proof.
  induction pre as [|a pre IH]; cbn [app]; intros H.
  - apply StronglySorted_inv in H as [_ H]. split; [constructor | exact H].
  - apply StronglySorted_inv in H as [Hs Ha]. destruct (IH Hs) as [H1 H2].
    split; [|exact H2]. constructor; [|exact H1].
    rewrite Forall_forall in Ha. apply Ha, in_elt.
Qed.

Lemma Qsum_app l l' : (Qsum (l ++ l') == Qsum l + Qsum l')%Q.
Proof.
  induction l as [|q l IH]; cbn [app Qsum fold_right].
  - fold (Qsum l'). ring.
  - fold (Qsum (l ++ l')). fold (Qsum l). rewrite IH. ring.
Qed.

(** The two running sums of line 114 and 115, row by row: the sum over the
    rows that stand before the row and have its key, plus the row's own
    value. *)
Lemma group_cumsum_rows {A K : Type} (eqb : K -> K -> bool) (key : A -> K)
    (val1 val2 : A -> Q) rows : forall before,
  Forall (fun x : A * Q * Q =>
            let '(r, q1, q2) := x in
            exists pre post,
              rows = pre ++ r :: post
              /\ q1 = (Qsum (map val1 (filter (fun b => eqb (key r) (key b))
                                              (before ++ pre))) + val1 r)%Q
              /\ q2 = (Qsum (map val2 (filter (fun b => eqb (key r) (key b))
                                              (before ++ pre))) + val2 r)%Q)
         (combine (combine rows (group_cumsum eqb key val1 before rows))
                  (group_cumsum eqb key val2 before rows)).
Proof.
  induction rows as [|r rows IH]; intros before;
    cbn [group_cumsum combine]; constructor.
  - exists [], rows. rewrite app_nil_r. auto.
  - specialize (IH (before ++ [r])). eapply Forall_impl; [|exact IH].
    intros [[s q1] q2] (pre & post & -> & H1 & H2).
    exists (r :: pre), post. rewrite <- app_assoc in H1, H2.
    cbn [app] in *. auto.
Qed.

(** In a table sorted by company and month that has one row for a company
    and a month, the rows of the company of a row that stand before it are
    the rows of the company with an earlier month. *)
Lemma sorted_company_rows_before pre r post :
  StronglySorted (fun a b => is_true (summary_leb a b)) (pre ++ r :: post) ->
  NoDup (map (fun s => (Summary.company s, Summary.month s)) (pre ++ r :: post)) ->
  filter (fun t => String.eqb (Summary.company r) (Summary.company t)
                   && (Summary.month t <=? Summary.month r))
         (pre ++ r :: post)
  = filter (fun b => String.eqb (Summary.company r) (Summary.company b)) pre
    ++ [r].
Proof.
  intros Hs Hnd. apply StronglySorted_split in Hs as [Hpre Hpost].
  rewrite filter_app. cbn [filter].
  rewrite String.eqb_refl, Z.leb_refl. cbn [andb]. f_equal.
  - apply filter_ext_in. intros s Hin. rewrite Forall_forall in Hpre.
    specialize (Hpre s Hin). unfold summary_leb, is_true in Hpre.
    rewrite String.eqb_sym in Hpre.
    destruct (String.eqb (Summary.company r) (Summary.company s));
      [|reflexivity].
    rewrite Hpre. reflexivity.
  - f_equal. apply filter_none. intros s Hin. rewrite Forall_forall in Hpost.
    specialize (Hpost s Hin). unfold summary_leb, is_true in Hpost.
    destruct (String.eqb_spec (Summary.company r) (Summary.company s)) as [E|];
      [|reflexivity].
    cbn [andb]. apply Z.leb_gt.
    assert (Summary.month s <> Summary.month r); [|lia].
    intros Em. rewrite map_app in Hnd. cbn [map] in Hnd.
    apply NoDup_remove_2 in Hnd. apply Hnd, in_or_app. right.
    apply in_map_iff. exists s. split; [congruence | exact Hin].
Qed.

(** Lines 113 to 117: the repayment table holds the rows of the
    collection-rate table; the cumulative amounts of a row are the sums of
    the rounded amounts of the rows of its company up to its month. *)
Theorem repayment_cumulative_sums raw payments :
  Permutation (Collection_Rate_Trend raw payments)
              (map Repayment.row (Repayment_Rate_Trend raw payments))
  /\ Forall (fun x =>
               let s := Repayment.row x in
               let upto :=
                 filter (fun t => String.eqb (Summary.company s) (Summary.company t)
                                  && (Summary.month t <=? Summary.month s))
                        (Collection_Rate_Trend raw payments) in
               (Repayment.cum_total_paid x
                == Qsum (map Summary.total_paid upto))%Q
               /\ (Repayment.cum_expected_payment x
                   == Qsum (map Summary.expected_payment upto))%Q)
            (Repayment_Rate_Trend raw payments).
Proof.
  unfold Repayment_Rate_Trend, Collection_Rate_Trend, repayment_trend.
  generalize (financed_trend raw payments). intros trend. cbv zeta.
  set (summary := trend_summary trend).
  set (sorted := SummarySort.sort summary).
  assert (Hperm : Permutation summary sorted) by apply SummarySort.Permuted_sort.
  assert (Hs : StronglySorted (fun a b => is_true (summary_leb a b)) sorted)
    by apply SummarySort.StronglySorted_sort, summary_leb_trans.
  assert (Hnd : NoDup (map (fun s => (Summary.company s, Summary.month s)) sorted)).
  { eapply Permutation_NoDup; [apply Permutation_map, Hperm|].
    apply trend_summary_keys_NoDup. }
  pose proof (group_cumsum_rows String.eqb Summary.company Summary.total_paid
                Summary.expected_payment sorted []) as Hrows.
  split.
  - rewrite map_map.
    assert (E : map (fun x : Summary.t * Q * Q =>
                       Repayment.row (let '(s, cp, ce) := x in
                                      Repayment.mk s cp ce
                                        (fround2 (fmul (fdiv cp ce) 100))))
                    (combine (combine sorted
                                (group_cumsum String.eqb Summary.company
                                   Summary.total_paid [] sorted))
                             (group_cumsum String.eqb Summary.company
                                Summary.expected_payment [] sorted))
                = sorted).
    { clear. generalize (@nil Summary.t). induction sorted as [|s l IH];
        intros before; cbn [group_cumsum combine map]; [reflexivity|].
      f_equal. apply IH. }
    rewrite E. exact Hperm.
  - apply Forall_forall. intros x Hx. apply in_map_iff in Hx as (y & <- & Hy).
    rewrite Forall_forall in Hrows. specialize (Hrows y Hy).
    destruct y as [[s cp] ce]. destruct Hrows as (pre & post & E & H1 & H2).
    cbn [app] in H1, H2.
    cbn [Repayment.row Repayment.cum_total_paid Repayment.cum_expected_payment].
    rewrite E in Hs, Hnd.
    pose proof (sorted_company_rows_before pre s post Hs Hnd) as Hf.
    rewrite <- E in Hf.
    assert (Hp : Permutation
                   (filter (fun t => String.eqb (Summary.company s) (Summary.company t)
                                     && (Summary.month t <=? Summary.month s))
                           summary)
                   (filter (fun b => String.eqb (Summary.company s)
                                       (Summary.company b)) pre ++ [s])).
    { rewrite <- Hf. now apply Permutation_filter_rows. }
    split.
    + rewrite (Qsum_Permutation _ _ (Permutation_map Summary.total_paid Hp)).
      rewrite map_app, Qsum_app, H1. cbn [map Qsum fold_right]. ring.
    + rewrite (Qsum_Permutation _ _ (Permutation_map Summary.expected_payment Hp)).
      rewrite map_app, Qsum_app, H2. cbn [map Qsum fold_right]. ring.
Qed.

(** ** Vintage analysis and product summary: every row in one group *)

Lemma Qsum_ext {A : Type} (f g : A -> Q) l :
  (forall a, In a l -> (f a == g a)%Q) -> (Qsum (map f l) == Qsum (map g l))%Q.
Proof.
  induction l as [|a l IH]; intros H; cbn [map Qsum fold_right].
  - reflexivity.
  - fold (Qsum (map f l)). fold (Qsum (map g l)).
    rewrite (H a (or_introl eq_refl)), IH; [reflexivity|].
    intros x Hx. apply H. now right.
Qed.

Lemma Qsum_plus {A : Type} (f g : A -> Q) l :
  (Qsum (map (fun a => f a + g a) l) == Qsum (map f l) + Qsum (map g l))%Q.
Proof.
  induction l as [|a l IH]; cbn [map Qsum fold_right].
  - ring.
  - fold (Qsum (map (fun a => (f a + g a)%Q) l)). fold (Qsum (map f l)).
    fold (Qsum (map g l)). rewrite IH. ring.
Qed.

Lemma Qsum_zero {A : Type} (l : list A) : (Qsum (map (fun _ => 0) l) == 0)%Q.
Proof.
  induction l as [|a l IH]; cbn [map Qsum fold_right]; [reflexivity|].
  fold (Qsum (map (fun _ : A => 0%Q) l)). rewrite IH. ring.
Qed.

Section Groups.
Context {A K : Type} (eqb : K -> K -> bool).
Hypothesis eqb_spec : forall x y, eqb x y = true <-> x = y.
Variable key : A -> option K.
Variable val : A -> Q.

Lemma Qsum_indicator (k0 : K) (v : Q) ks :
  NoDup ks -> In k0 ks ->
  (Qsum (map (fun k => if eqb k k0 then v else 0) ks) == v)%Q.
Proof.
  induction 1 as [|k ks Hk Hnd IH]; intros Hin; [destruct Hin|].
  cbn [map Qsum fold_right].
  fold (Qsum (map (fun k => if eqb k k0 then v else 0%Q) ks)).
  destruct Hin as [->|Hin].
  - rewrite (proj2 (eqb_spec k0 k0) eq_refl).
    rewrite (Qsum_ext _ (fun _ => 0%Q)), Qsum_zero; [ring|].
    intros a Ha. destruct (eqb a k0) eqn:E; [|reflexivity].
    apply eqb_spec in E. subst a. contradiction.
  - destruct (eqb k k0) eqn:E.
    + apply eqb_spec in E. subst k. contradiction.
    + rewrite (IH Hin). ring.
Qed.

(** Summed over a list of distinct keys that holds every key of the table,
    the group sums are the sum over the rows that have a key. *)
Lemma group_sums_total ks rows :
  NoDup ks ->
  (forall r k, In r rows -> key r = Some k -> In k ks) ->
  (Qsum (map (fun k => Qsum (map val (filter (in_group eqb key k) rows))) ks)
   == Qsum (map val (filter (has_group key) rows)))%Q.
Proof.
  intros Hnd. induction rows as [|r rows IH]; intros Hks.
  - cbn [filter map]. apply Qsum_zero.
  - assert (IH' := IH (fun r' k Hr => Hks r' k (or_intror Hr))). clear IH.
    cbn [filter]. unfold has_group at 1, in_group at 1.
    destruct (key r) as [k0|] eqn:Ek.
    + cbn [map Qsum fold_right].
      fold (Qsum (map val (filter (has_group key) rows))). rewrite <- IH'.
      rewrite <- (Qsum_indicator k0 (val r) ks Hnd
                    (Hks r k0 (or_introl eq_refl) Ek)).
      rewrite <- Qsum_plus. apply Qsum_ext. intros k _.
      destruct (eqb k k0); cbn [map Qsum fold_right]; [reflexivity|ring].
    + exact IH'.
Qed.

Lemma group_sums_of_table rows :
  (forall r, In r rows -> key r <> None) ->
  (Qsum (map (fun k => Qsum (map val (filter (in_group eqb key k) rows)))
             (unique eqb (somes (map key rows))))
   == Qsum (map val rows))%Q.
Proof.
  intros Hsome. rewrite group_sums_total.
  - rewrite filter_all; [reflexivity|]. intros r Hr. unfold has_group.
    specialize (Hsome r Hr). now destruct (key r).
  - now apply unique_NoDup.
  - intros r k Hr Hk. apply (proj2 (unique_In eqb eqb_spec _ _)), somes_In.
    rewrite <- Hk. now apply in_map.
Qed.
End Groups.

Lemma vintage_key_eqb_spec (a b : vintage_key) : vintage_key_eqb a b = true <-> a = b.
Proof.
  destruct a as [[c v] m], b as [[d w] n]. unfold vintage_key_eqb.
  rewrite !Bool.andb_true_iff, String.eqb_eq, !Z.eqb_eq. split.
  - intros [[-> ->] ->]. reflexivity.
  - intros E. inversion E. auto.
Qed.

Lemma product_key_eqb_spec (a b : product_key) : product_key_eqb a b = true <-> a = b.
Proof.
  destruct a as [[[c m] n] f], b as [[[c' m'] n'] f']. unfold product_key_eqb.
  rewrite !Bool.andb_true_iff, !String.eqb_eq, Z.eqb_eq. split.
  - intros [[[-> ->] ->] ->]. reflexivity.
  - intros E. inversion E. auto.
Qed.

(** A row kept by the filter of line 196 has a company, a vintage and a
    number of months on book. *)
Lemma vintage_trend_row_key raw payments v :
  In v (vintage_trend raw payments) -> vintage_key_of v <> None.
Proof.
  intros Hv.
  pose proof (drop_duplicates_NoDup raw) as Hnd. fold (contracts_df raw) in Hnd.
  destruct (on_book_row_origin raw payments v Hv)
    as (c & reg & n & Hc & _ & Hid & Hreg & _ & _).
  unfold vintage_trend in Hv.
  destruct (vintage_df_company _ Hnd _ v c Hv Hc (eq_sym Hid)) as [Hco Hrd].
  unfold vintage_trend, vintage_df in Hv. apply filter_In in Hv as [Hv Hb].
  rewrite (vintage_merge_map _ Hnd) in Hv. apply in_map_iff in Hv as (r & <- & _).
  unfold vintage_key_of. rewrite Hco.
  unfold on_book in Hb. unfold vintage_of in *.
  cbn [Vintage.vintage Vintage.months_on_book Vintage.tenor_months
       Vintage.registration_date] in *.
  rewrite Hrd, Hreg in *. cbn [option_map months_on_book].
  discriminate.
Qed.

(** Lines 198 to 203: the vintage table has one row for a company, a
    vintage and a number of months on book, and every row kept by the
    months-on-book filter is summed into exactly one of them: the rows'
    expected payments, and their paid amounts, add up to those of the
    filtered schedule. *)
Theorem vintage_analysis_accounts_for_every_row raw payments :
  NoDup (map (fun g => (VintageAnalysis.company g, VintageAnalysis.vintage g,
                        VintageAnalysis.months_on_book g))
             (vintage_analysis raw payments))
  /\ (Qsum (map VintageAnalysis.expected_payment (vintage_analysis raw payments))
      == Qsum (map (fun v => Trend.expected_payment (Vintage.row v))
                   (vintage_trend raw payments)))%Q
  /\ (Qsum (map VintageAnalysis.total_paid (vintage_analysis raw payments))
      == Qsum (map (fun v => Trend.total_paid (Vintage.row v))
                   (vintage_trend raw payments)))%Q.
Proof.
  unfold vintage_analysis, vintage_analysis_of.
  pose proof (vintage_trend_row_key raw payments) as Hkey.
  set (vdf := vintage_trend raw payments) in *.
  rewrite !map_map. split; [|split].
  - erewrite map_ext; [rewrite map_id; apply unique_NoDup, vintage_key_eqb_spec|].
    intros [[c vi] m]. reflexivity.
  - rewrite <- (group_sums_of_table vintage_key_eqb vintage_key_eqb_spec
                  vintage_key_of _ vdf Hkey).
    apply Qsum_ext. intros [[c vi] m] _. reflexivity.
  - rewrite <- (group_sums_of_table vintage_key_eqb vintage_key_eqb_spec
                  vintage_key_of _ vdf Hkey).
    apply Qsum_ext. intros [[c vi] m] _. reflexivity.
Qed.

(** Lines 206 to 219: without the product columns the product summary is
    empty.  With them it has one row for a company, a month and a product,
    and every row of the merged table that has a company and both product
    names is summed into exactly one of them, a row with a null among them
    into none: the rows' expected payments, and their paid amounts, add up
    to those of the rows that have a key. *)
Theorem product_summary_accounts_for_rows_with_a_key pdf :
  product_summary_of false pdf = []
  /\ NoDup (map (fun g => (ProductSummary.company g, ProductSummary.month g,
                           ProductSummary.baseunit_productname g,
                           ProductSummary.product_family g))
                (product_summary_of true pdf))
  /\ (Qsum (map ProductSummary.expected_payment (product_summary_of true pdf))
      == Qsum (map (fun p => Trend.expected_payment (Vintage.row (Product.row p)))
                   (filter (has_group product_key_of) pdf)))%Q
  /\ (Qsum (map ProductSummary.total_paid (product_summary_of true pdf))
      == Qsum (map (fun p => Trend.total_paid (Vintage.row (Product.row p)))
                   (filter (has_group product_key_of) pdf)))%Q.
Proof.
  split; [reflexivity|]. unfold product_summary_of, product_groups.
  pose proof (unique_NoDup product_key_eqb product_key_eqb_spec
                (somes (map product_key_of pdf))) as Hnd.
  assert (Hks : forall (r : Product.t) k, In r pdf -> product_key_of r = Some k ->
                  In k (unique product_key_eqb (somes (map product_key_of pdf)))).
  { intros r k Hr Hk.
    apply (proj2 (unique_In product_key_eqb product_key_eqb_spec _ _)), somes_In.
    rewrite <- Hk. now apply in_map. }
  rewrite !map_map. split; [|split].
  - erewrite map_ext; [rewrite map_id; exact Hnd|].
    intros [[[c m] n] f]. reflexivity.
  - rewrite <- (group_sums_total product_key_eqb product_key_eqb_spec
                  product_key_of _ _ pdf Hnd Hks).
    apply Qsum_ext. intros [[[c m] n] f] _. reflexivity.
  - rewrite <- (group_sums_total product_key_eqb product_key_eqb_spec
                  product_key_of _ _ pdf Hnd Hks).
    apply Qsum_ext. intros [[[c m] n] f] _. reflexivity.
Qed.

(** ** The cash-flow table *)

Lemma flow_key_eqb_spec (a b : flow_key) : flow_key_eqb a b = true <-> a = b.
Proof.
  destruct a as [[[c f] n] m], b as [[[c' f'] n'] m']. unfold flow_key_eqb.
  rewrite !Bool.andb_true_iff, !String.eqb_eq, Z.eqb_eq. split.
  - intros [[[-> ->] ->] ->]. reflexivity.
  - intros E. inversion E. auto.
Qed.

Lemma NoDup_map_In_eq {A B : Type} (f : A -> B) l x y :
  NoDup (map f l) -> In x l -> In y l -> f x = f y -> x = y.
Proof.
  induction l as [|a l IH]; intros Hnd Hx Hy E; [destruct Hx|].
  cbn [map] in Hnd. inversion Hnd as [|? ? Hn Hnd']; subst.
  destruct Hx as [->|Hx], Hy as [->|Hy]; auto.
  - exfalso. apply Hn. rewrite E. now apply in_map.
  - exfalso. apply Hn. rewrite <- E. now apply in_map.
Qed.

Section KeyedTables.
Context {K : Type} (eqb : K -> K -> bool).
Hypothesis eqb_spec : forall x y, eqb x y = true <-> x = y.

(** In a table that has a key once, the rows of the key of a row are that
    row. *)
Lemma filter_key_of_row {A : Type} (key : A -> K) l a :
  NoDup (map key l) -> In a l -> filter (fun b => eqb (key a) (key b)) l = [a].
Proof.
  intros Hnd Ha. apply filter_only.
  - now apply NoDup_of_map in Hnd.
  - exact Ha.
  - now apply eqb_spec.
  - intros x Hx E. apply eqb_spec in E.
    now apply (NoDup_map_In_eq key l x a Hnd Hx Ha).
Qed.

Lemma filter_key_absent {A : Type} (key : A -> K) l k :
  ~ In k (map key l) -> filter (fun b => eqb k (key b)) l = [].
Proof.
  intros H. apply filter_none. intros a Ha.
  apply not_true_is_false. intros E. apply eqb_spec in E. apply H.
  rewrite E. now apply in_map.
Qed.

Lemma filter_key_present {A : Type} (key : A -> K) l k :
  In k (map key l) -> filter (fun b => eqb k (key b)) l <> [].
Proof.
  intros H E. apply in_map_iff in H as (a & <- & Ha).
  assert (Hin : In a (filter (fun b => eqb (key a) (key b)) l)).
  { apply filter_In. split; [exact Ha | now apply eqb_spec]. }
  rewrite E in Hin. destruct Hin.
Qed.

Section OuterKeyed.
Context {X B Y : Type} (kx : X -> K) (kb : B -> K) (ky : Y -> K).
Variable both : X -> B -> Y.
Variable left_only : X -> Y.
Variable right_only : B -> Y.
Hypothesis ky_both : forall x b, ky (both x b) = kx x.
Hypothesis ky_left : forall x, ky (left_only x) = kx x.
Hypothesis ky_right : forall b, ky (right_only b) = kb b.
Variable left : list X.
Variable right : list B.
Hypothesis left_keys : NoDup (map kx left).
Hypothesis right_keys : NoDup (map kb right).

(** A row of an outer merge of two tables with distinct keys comes from a
    left row, with the right row of its key where there is one, or from a
    right row whose key no left row has. *)
Lemma merge_outer_In y :
  In y (merge_outer (fun x b => eqb (kx x) (kb b)) both left_only right_only
          left right) ->
  (exists x, In x left /\ ky y = kx x
             /\ ((filter (fun b => eqb (kx x) (kb b)) right = []
                  /\ y = left_only x)
                 \/ exists b, filter (fun b => eqb (kx x) (kb b)) right = [b]
                              /\ y = both x b))
  \/ (exists b, In b right /\ ky y = kb b
                /\ ~ In (kb b) (map kx left)
                /\ y = right_only b).
Proof.
  unfold merge_outer. intros H. apply in_app_or in H as [H|H].
  - left. rewrite merge_left_one_match in H.
    2:{ intros x _. now apply (filter_unique_key eqb eqb_spec kb). }
    apply in_map_iff in H as (x & <- & Hx). exists x. split; [exact Hx|].
    unfold merged_row.
    pose proof (filter_unique_key eqb eqb_spec kb (kx x) right right_keys) as Hlen.
    destruct (filter (fun b => eqb (kx x) (kb b)) right) as [|b [|b' l]].
    + split; [apply ky_left|]. left. auto.
    + split; [apply ky_both|]. right. exists b. auto.
    + cbn [List.length] in Hlen. lia.
  - right. apply in_map_iff in H as (b & <- & Hb).
    apply filter_In in Hb as [Hb Hn]. exists b. split; [exact Hb|].
    split; [apply ky_right|]. split; [|reflexivity].
    intros Hin. apply in_map_iff in Hin as (x & E & Hx).
    apply Bool.negb_true_iff in Hn.
    assert (Ht : existsb (fun a => eqb (kx a) (kb b)) left = true).
    { apply existsb_exists. exists x. split; [exact Hx | now apply eqb_spec]. }
    congruence.
Qed.

Lemma merge_outer_keys :
  map ky (merge_outer (fun x b => eqb (kx x) (kb b)) both left_only right_only
            left right)
  = map kx left
    ++ map kb (filter (fun b => negb (existsb (fun a => eqb (kx a) (kb b)) left))
                      right).
Proof.
  unfold merge_outer. rewrite map_app. f_equal.
  - rewrite merge_left_one_match.
    2:{ intros x _. now apply (filter_unique_key eqb eqb_spec kb). }
    rewrite map_map. apply map_ext. intros x. unfold merged_row.
    destruct (filter (fun b => eqb (kx x) (kb b)) right); auto.
  - rewrite map_map. apply map_ext. intros b. apply ky_right.
Qed.

Lemma merge_outer_keys_NoDup :
  NoDup (map ky (merge_outer (fun x b => eqb (kx x) (kb b)) both left_only
                   right_only left right)).
Proof.
  rewrite merge_outer_keys. apply NoDup_app.
  - exact left_keys.
  - now apply NoDup_map_filter.
  - intros k Hk Hin. apply in_map_iff in Hin as (b & <- & Hb).
    apply filter_In in Hb as [_ Hn]. apply Bool.negb_true_iff in Hn.
    apply in_map_iff in Hk as (x & E & Hx).
    assert (Ht : existsb (fun a => eqb (kx a) (kb b)) left = true).
    { apply existsb_exists. exists x. split; [exact Hx | now apply eqb_spec]. }
    congruence.
Qed.

Lemma merge_outer_keys_In k :
  In k (map ky (merge_outer (fun x b => eqb (kx x) (kb b)) both left_only
                  right_only left right))
  <-> In k (map kx left) \/ In k (map kb right).
Proof.
  rewrite merge_outer_keys, in_app_iff. split.
  - intros [H|H]; [now left|]. right.
    apply in_map_iff in H as (b & <- & Hb). apply filter_In in Hb as [Hb _].
    now apply in_map.
  - intros [H|H]; [now left|].
    apply in_map_iff in H as (b & <- & Hb).
    destruct (existsb (fun a => eqb (kx a) (kb b)) left) eqn:Ex.
    + apply existsb_exists in Ex as (x & Hx & E). apply eqb_spec in E.
      left. rewrite <- E. now apply in_map.
    + right. apply in_map, filter_In. split; [exact Hb|]. now rewrite Ex.
Qed.
End OuterKeyed.

Section GroupTable.
Context {A : Type}.
Variable key : A -> option K.
Variable val : A -> Q.
Variable rows : list A.

(** The keys of a [groupby] are distinct, and are the keys of the rows. *)
Lemma group_table_keys :
  NoDup (unique eqb (somes (map key rows)))
  /\ forall k, In k (unique eqb (somes (map key rows)))
               <-> exists r, In r rows /\ key r = Some k.
Proof.
  split; [now apply unique_NoDup|]. intros k.
  rewrite (unique_In eqb eqb_spec), somes_In, in_map_iff.
  split; intros (r & H1 & H2); exists r; auto.
Qed.

(** The row of a key in a [groupby(...).sum()] whose keys may be null. *)
Lemma group_table_lookup k :
  let table :=
    map (fun k => (k, Qsum (map val (filter (in_group eqb key k) rows))))
        (unique eqb (somes (map key rows))) in
  (filter (fun kv => eqb k (fst kv)) table = []
   /\ filter (in_group eqb key k) rows = [])
  \/ filter (fun kv => eqb k (fst kv)) table
     = [(k, Qsum (map val (filter (in_group eqb key k) rows)))].
Proof.
  cbv zeta. rewrite filter_map_swap. cbn [fst].
  destruct group_table_keys as [Hnd Hin].
  destruct (filter (fun a => eqb k a) (unique eqb (somes (map key rows))))
    as [|a m] eqn:F.
  - left. split; [reflexivity|]. apply filter_none. intros r Hr.
    unfold in_group. destruct (key r) as [k'|] eqn:Ek; [|reflexivity].
    apply not_true_is_false. intros E.
    assert (H : In k' (filter (fun a => eqb k a)
                         (unique eqb (somes (map key rows))))).
    { apply filter_In. split; [|exact E]. apply Hin. eauto. }
    rewrite F in H. destruct H.
  - right.
    assert (Ha : In a (filter (fun a => eqb k a)
                         (unique eqb (somes (map key rows)))))
      by (rewrite F; now left).
    apply filter_In in Ha as [Ha E]. apply eqb_spec in E. subst a.
    rewrite (filter_only (fun a => eqb k a) k) in F; auto.
    + inversion F; subst. reflexivity.
    + now apply eqb_spec.
    + intros x _ Ex. symmetry. now apply eqb_spec.
Qed.
End GroupTable.
End KeyedTables.

Section LexFacts.
Context {A B : Type} (eqA lebA : A -> A -> bool) (lebB : B -> B -> bool).
Hypothesis eqA_spec : forall x y, eqA x y = true <-> x = y.
Hypothesis lebA_trans :
  forall x y z, lebA x y = true -> lebA y z = true -> lebA x z = true.
Hypothesis lebA_antisym : forall x y, lebA x y = true -> lebA y x = true -> x = y.
Hypothesis lebB_trans :
  forall x y z, lebB x y = true -> lebB y z = true -> lebB x z = true.
Hypothesis lebB_antisym : forall x y, lebB x y = true -> lebB y x = true -> x = y.

Lemma lex_leb_trans a b c :
  lex_leb eqA lebA lebB a b = true -> lex_leb eqA lebA lebB b c = true ->
  lex_leb eqA lebA lebB a c = true.
Proof.
  unfold lex_leb.
  destruct (eqA (fst a) (fst b)) eqn:Eab.
  - apply eqA_spec in Eab. rewrite Eab.
    destruct (eqA (fst b) (fst c)); [apply lebB_trans | auto].
  - destruct (eqA (fst b) (fst c)) eqn:Ebc.
    + apply eqA_spec in Ebc. rewrite <- Ebc, Eab. auto.
    + destruct (eqA (fst a) (fst c)) eqn:Eac; [|apply lebA_trans].
      apply eqA_spec in Eac. rewrite <- Eac. intros H1 H2.
      pose proof (lebA_antisym _ _ H1 H2) as E.
      apply eqA_spec in E. congruence.
Qed.

Lemma lex_leb_antisym a b :
  lex_leb eqA lebA lebB a b = true -> lex_leb eqA lebA lebB b a = true -> a = b.
Proof.
  unfold lex_leb. destruct a as [a1 a2], b as [b1 b2]. cbn [fst snd].
  destruct (eqA a1 b1) eqn:E.
  - apply eqA_spec in E. subst b1. rewrite (proj2 (eqA_spec a1 a1) eq_refl).
    intros H1 H2. f_equal. now apply lebB_antisym.
  - intros H1 H2. destruct (eqA b1 a1) eqn:E'.
    + apply eqA_spec in E'. subst b1.
      rewrite (proj2 (eqA_spec a1 a1) eq_refl) in E. discriminate.
    + pose proof (lebA_antisym _ _ H1 H2) as E3. apply eqA_spec in E3.
      congruence.
Qed.
End LexFacts.

Lemma product_leb_trans x y z :
  product_leb x y = true -> product_leb y z = true -> product_leb x z = true.
Proof.
  unfold product_leb. apply lex_leb_trans.
  - apply string2_eqb_spec.
  - apply lex_leb_trans; [apply String.eqb_eq | apply string_leb_trans
                          | apply String.leb_antisym | apply string_leb_trans].
  - apply lex_leb_antisym; [apply String.eqb_eq | apply String.leb_antisym
                            | apply String.leb_antisym].
  - apply string_leb_trans.
Qed.

Lemma product_leb_antisym x y :
  product_leb x y = true -> product_leb y x = true -> x = y.
Proof.
  unfold product_leb. apply lex_leb_antisym.
  - apply string2_eqb_spec.
  - apply lex_leb_antisym; [apply String.eqb_eq | apply String.leb_antisym
                            | apply String.leb_antisym].
  - apply String.leb_antisym.
Qed.

Lemma flow_leb_trans : Relations_1.Transitive (fun a b => is_true (flow_leb a b)).
Proof.
  intros a b c. unfold flow_leb, flow_key_leb, is_true. apply lex_leb_trans.
  - apply product_eqb_spec.
  - apply product_leb_trans.
  - apply product_leb_antisym.
  - intros x y z. rewrite !Z.leb_le. lia.
Qed.

Section SortedGroups.
Context {A G : Type} (geqb : G -> G -> bool).
Hypothesis geqb_spec : forall x y, geqb x y = true <-> x = y.
Variable group : A -> G.
Variable pos : A -> Z.
Variable R : A -> A -> Prop.
Hypothesis R_pos : forall a b, R a b -> group a = group b -> pos a <= pos b.

(** In a table sorted by group and position that has no two rows of the
    same group and position, the rows of the group of a row that stand
    before it are the rows of the group with a lower position. *)
Lemma sorted_group_rows_before pre r post :
  StronglySorted R (pre ++ r :: post) ->
  NoDup (map (fun a => (group a, pos a)) (pre ++ r :: post)) ->
  filter (fun t => geqb (group r) (group t) && (pos t <=? pos r))
         (pre ++ r :: post)
  = filter (fun b => geqb (group r) (group b)) pre ++ [r].
Proof.
  intros Hs Hnd. apply StronglySorted_split in Hs as [Hpre Hpost].
  rewrite filter_app. cbn [filter].
  rewrite (proj2 (geqb_spec (group r) (group r)) eq_refl), Z.leb_refl.
  cbn [andb]. f_equal.
  - apply filter_ext_in. intros s Hin. rewrite Forall_forall in Hpre.
    specialize (Hpre s Hin).
    destruct (geqb (group r) (group s)) eqn:E; [|reflexivity].
    apply geqb_spec in E. cbn [andb]. apply Z.leb_le. now apply R_pos.
  - f_equal. apply filter_none. intros s Hin. rewrite Forall_forall in Hpost.
    specialize (Hpost s Hin).
    destruct (geqb (group r) (group s)) eqn:E; [|reflexivity].
    apply geqb_spec in E. cbn [andb]. apply Z.leb_gt.
    pose proof (R_pos r s Hpost E).
    assert (pos s <> pos r); [|lia].
    intros Em. rewrite map_app in Hnd. cbn [map] in Hnd.
    apply NoDup_remove_2 in Hnd. apply Hnd, in_or_app. right.
    apply in_map_iff. exists s. split; [congruence | exact Hin].
Qed.
End SortedGroups.

Lemma group_cumsum_length {A K : Type} (eqb : K -> K -> bool) (key : A -> K)
    (val : A -> Q) rows : forall before,
  List.length (group_cumsum eqb key val before rows) = List.length rows.
Proof.
  induction rows as [|r rows IH]; intros before; cbn [group_cumsum List.length];
    [reflexivity|]. now rewrite IH.
Qed.

Lemma map_fst_combine {A B : Type} (l : list A) : forall l' : list B,
  List.length l' = List.length l -> map fst (combine l l') = l.
Proof.
  induction l as [|a l IH]; intros [|b l'] H; cbn [combine map];
    try reflexivity; try discriminate.
  cbn [fst]. f_equal. apply IH. cbn [List.length] in H. lia.
Qed.

(** The running sum of line 317, row by row. *)
Lemma group_cumsum_row {A K : Type} (eqb : K -> K -> bool) (key : A -> K)
    (val : A -> Q) rows : forall before,
  Forall (fun x : A * Q =>
            exists pre post,
              rows = pre ++ fst x :: post
              /\ snd x = (Qsum (map val (filter (fun b => eqb (key (fst x)) (key b))
                                                (before ++ pre)))
                          + val (fst x))%Q)
         (combine rows (group_cumsum eqb key val before rows)).
Proof.
  induction rows as [|r rows IH]; intros before;
    cbn [group_cumsum combine]; constructor.
  - exists [], rows. rewrite app_nil_r. auto.
  - specialize (IH (before ++ [r])). eapply Forall_impl; [|exact IH].
    intros [s q] (pre & post & -> & H1).
    exists (r :: pre), post. rewrite <- app_assoc in H1. cbn [app] in *. auto.
Qed.

Lemma StronglySorted_map {A B : Type} (f : A -> B) (R : B -> B -> Prop) l :
  StronglySorted (fun a b => R (f a) (f b)) l -> StronglySorted R (map f l).
Proof.
  induction 1 as [|a l Hs IH Hall]; cbn [map]; constructor; [exact IH|].
  rewrite Forall_forall in *. intros b Hb.
  apply in_map_iff in Hb as (x & <- & Hx). now apply Hall.
Qed.

Lemma amount_of_row table kv :
  NoDup (map fst table) -> In kv table -> amount_of table (fst kv) = Some (snd kv).
Proof.
  intros Hnd Hin. unfold amount_of.
  now rewrite (filter_key_of_row flow_key_eqb flow_key_eqb_spec fst table kv Hnd Hin).
Qed.

Lemma amount_of_absent table k :
  ~ In k (map fst table) -> amount_of table k = None.
Proof.
  intros H. unfold amount_of.
  now rewrite (filter_key_absent flow_key_eqb flow_key_eqb_spec fst table k H).
Qed.

(** The amount of a key in a table made by [groupby(...).sum()], nulls
    filled with 0: the sum over the rows of the key. *)
Lemma amount_of_groups {A : Type} (key : A -> option flow_key) (val : A -> Q)
    rows k :
  fillna0
    (amount_of
       (map (fun k => (k, Qsum (map val (filter (in_group flow_key_eqb key k) rows))))
            (unique flow_key_eqb (somes (map key rows)))) k)
  = Qsum (map val (filter (in_group flow_key_eqb key k) rows)).
Proof.
  unfold amount_of.
  destruct (group_table_lookup flow_key_eqb flow_key_eqb_spec key val rows k)
    as [[E1 E2] | E1]; cbv zeta in E1; rewrite E1.
  - rewrite E2. reflexivity.
  - reflexivity.
Qed.

Section FlowTables.
Variables d e a : list (flow_key * Q).
Hypothesis d_keys : NoDup (map fst d).
Hypothesis e_keys : NoDup (map fst e).
Hypothesis a_keys : NoDup (map fst a).

Lemma flow_merge1_row x :
  In x (flow_merge1 d e) ->
  Flow.disbursed_amount x = amount_of d (Flow.key x)
  /\ Flow.expected_payment x = amount_of e (Flow.key x).
Proof.
  unfold flow_merge1. intros H.
  apply (merge_outer_In flow_key_eqb flow_key_eqb_spec fst fst Flow.key) in H;
    try reflexivity; try exact e_keys.
  destruct H as [(x0 & Hx0 & Hk & [[Hf ->] | (b & Hf & ->)])
                | (b & Hb & Hk & Hout & ->)];
    cbn [Flow.key Flow.disbursed_amount Flow.expected_payment].
  - rewrite (amount_of_row d x0 d_keys Hx0). unfold amount_of. now rewrite Hf.
  - rewrite (amount_of_row d x0 d_keys Hx0). unfold amount_of. now rewrite Hf.
  - rewrite (amount_of_absent d _ Hout), (amount_of_row e b e_keys Hb). auto.
Qed.

Lemma flow_merge1_keys :
  NoDup (map Flow.key (flow_merge1 d e))
  /\ forall k, In k (map Flow.key (flow_merge1 d e))
               <-> In k (map fst d) \/ In k (map fst e).
Proof.
  unfold flow_merge1. split.
  - apply (merge_outer_keys_NoDup flow_key_eqb flow_key_eqb_spec fst fst Flow.key);
      try reflexivity; assumption.
  - apply (merge_outer_keys_In flow_key_eqb flow_key_eqb_spec fst fst Flow.key);
      try reflexivity; assumption.
Qed.

Lemma flow_merge2_row y :
  In y (flow_merge2 (flow_merge1 d e) a) ->
  Flow.disbursed_amount y = amount_of d (Flow.key y)
  /\ Flow.expected_payment y = amount_of e (Flow.key y)
  /\ Flow.total_paid y = amount_of a (Flow.key y).
Proof.
  unfold flow_merge2. intros H. destruct flow_merge1_keys as [Hnd Hin].
  apply (merge_outer_In flow_key_eqb flow_key_eqb_spec Flow.key fst Flow.key) in H;
    try reflexivity; try exact a_keys.
  destruct H as [(x0 & Hx0 & Hk & [[Hf ->] | (b & Hf & ->)])
                | (b & Hb & Hk & Hout & ->)];
    cbn [Flow.key Flow.disbursed_amount Flow.expected_payment Flow.total_paid].
  - destruct (flow_merge1_row x0 Hx0) as [H1 H2].
    split; [exact H1|]. split; [exact H2|]. unfold amount_of. now rewrite Hf.
  - destruct (flow_merge1_row x0 Hx0) as [H1 H2].
    split; [exact H1|]. split; [exact H2|]. unfold amount_of. now rewrite Hf.
  - rewrite (amount_of_row a b a_keys Hb).
    rewrite !amount_of_absent; [auto| |].
    + intros Hi. apply Hout, Hin. now right.
    + intros Hi. apply Hout, Hin. now left.
Qed.

Lemma flow_merge2_keys :
  NoDup (map Flow.key (flow_merge2 (flow_merge1 d e) a))
  /\ forall k, In k (map Flow.key (flow_merge2 (flow_merge1 d e) a))
               <-> In k (map fst d) \/ In k (map fst e) \/ In k (map fst a).
Proof.
  destruct flow_merge1_keys as [Hnd Hin]. unfold flow_merge2. split.
  - apply (merge_outer_keys_NoDup flow_key_eqb flow_key_eqb_spec Flow.key fst
             Flow.key); try reflexivity; assumption.
  - intros k.
    rewrite (merge_outer_keys_In flow_key_eqb flow_key_eqb_spec Flow.key fst
               Flow.key); try reflexivity; try assumption.
    rewrite Hin. tauto.
Qed.
End FlowTables.

Lemma cash_flow_row_key x q : CashFlow.key (cash_flow_row x q) = Flow.key x.
Proof.
  unfold cash_flow_row. now destruct (Flow.key x) as [[[c f] n] m].
Qed.

Lemma cash_flow_of_rows d e a r :
  In r (cash_flow_of d e a) ->
  exists x q, In x (flow_merge2 (flow_merge1 d e) a) /\ r = cash_flow_row x q.
Proof.
  unfold cash_flow_of. intros H. apply in_map_iff in H as ([x q] & <- & Hxq).
  apply in_combine_l in Hxq. exists x, q. split; [|reflexivity].
  eapply Permutation_in; [apply Permutation_sym, FlowSort.Permuted_sort|].
  exact Hxq.
Qed.

Lemma cash_flow_of_keys d e a :
  map CashFlow.key (cash_flow_of d e a)
  = map Flow.key (FlowSort.sort (flow_merge2 (flow_merge1 d e) a)).
Proof.
  unfold cash_flow_of. rewrite map_map.
  erewrite map_ext; [|intros xq; apply cash_flow_row_key].
  rewrite <- (map_map fst Flow.key), map_fst_combine; [reflexivity|].
  apply group_cumsum_length.
Qed.

Lemma disbursements_keys contracts : NoDup (map fst (disbursements_of contracts)).
Proof.
  unfold disbursements_of. rewrite map_map. cbn [fst]. rewrite map_id.
  apply unique_NoDup, flow_key_eqb_spec.
Qed.

Lemma inflows_keys val pdf : NoDup (map fst (inflows_of val pdf)).
Proof.
  unfold inflows_of. rewrite map_map. cbn [fst]. rewrite map_id.
  apply unique_NoDup, flow_key_eqb_spec.
Qed.

(** Lines 282 to 314: a row of the cash-flow table carries, for its
    company, product and month, the contract values of the contracts of
    every type registered in the month, the expected and the paid amounts
    of the financed schedule rows of the month that passed the
    months-on-book filter, each 0 where there is none, and the paid amount
    less the contract values as net cash flow. *)
Theorem cash_flow_row_amounts raw payments :
  Forall (fun r =>
            let k := CashFlow.key r in
            CashFlow.disbursed_amount r
            = Qsum (map Contract.contract_value_usd
                        (filter (in_disbursement_group k) (contracts_df raw)))
            /\ CashFlow.expected_payment r
               = Qsum (map (fun p => Trend.expected_payment
                                       (Vintage.row (Product.row p)))
                           (filter (in_flow_group k) (cash_flow_rows raw payments)))
            /\ CashFlow.total_paid r
               = Qsum (map (fun p => Trend.total_paid
                                       (Vintage.row (Product.row p)))
                           (filter (in_flow_group k) (cash_flow_rows raw payments)))
            /\ CashFlow.net_cash_flow r
               = (CashFlow.total_paid r - CashFlow.disbursed_amount r)%Q)
         (cash_flow raw payments).
Proof.
  apply Forall_forall. intros r Hr. unfold cash_flow in Hr.
  apply cash_flow_of_rows in Hr as (x & q & Hx & ->).
  apply flow_merge2_row in Hx as (H1 & H2 & H3);
    try apply disbursements_keys; try apply inflows_keys.
  cbv zeta. rewrite cash_flow_row_key. unfold cash_flow_row.
  destruct (Flow.key x) as [[[c f] n] m] eqn:Ek.
  cbn [CashFlow.disbursed_amount CashFlow.expected_payment CashFlow.total_paid
       CashFlow.net_cash_flow].
  rewrite H1, H2, H3. unfold net_of. rewrite H1, H3, ?Ek.
  split; [|split; [|split]].
  - exact (amount_of_groups contract_flow_key Contract.contract_value_usd
             (contracts_df raw) (c, f, n, m)).
  - exact (amount_of_groups flow_key_of
             (fun p => Trend.expected_payment (Vintage.row (Product.row p)))
             (cash_flow_rows raw payments) (c, f, n, m)).
  - exact (amount_of_groups flow_key_of
             (fun p => Trend.total_paid (Vintage.row (Product.row p)))
             (cash_flow_rows raw payments) (c, f, n, m)).
  - reflexivity.
Qed.

(** Lines 282 to 311: the cash-flow table has one row for each company,
    product and month in which a contract of any type was registered or a
    filtered schedule row falls, and no other row; its rows stand in the
    order of company, product family, product name and month. *)
Theorem cash_flow_keys raw payments :
  let keys := map CashFlow.key (cash_flow raw payments) in
  NoDup keys
  /\ StronglySorted (fun a b => flow_key_leb a b = true) keys
  /\ forall k,
       In k keys
       <-> (exists c, In c (contracts_df raw) /\ contract_flow_key c = Some k)
           \/ (exists p, In p (cash_flow_rows raw payments)
                         /\ flow_key_of p = Some k).
Proof.
  cbv zeta. unfold cash_flow. rewrite cash_flow_of_keys.
  set (d := disbursements raw).
  set (e := expected_inflows raw payments).
  set (a := actual_inflows raw payments).
  assert (Hd : NoDup (map fst d)) by apply disbursements_keys.
  assert (He : NoDup (map fst e)) by apply inflows_keys.
  assert (Ha : NoDup (map fst a)) by apply inflows_keys.
  destruct (flow_merge2_keys d e a Hd He Ha) as [Hnd Hin].
  pose proof (FlowSort.Permuted_sort (flow_merge2 (flow_merge1 d e) a)) as Hp.
  split; [|split].
  - eapply Permutation_NoDup; [apply Permutation_map, Hp | exact Hnd].
  - apply StronglySorted_map.
    apply (FlowSort.StronglySorted_sort _ flow_leb_trans).
  - intros k.
    assert (Hk : In k (map Flow.key (FlowSort.sort (flow_merge2 (flow_merge1 d e) a)))
                 <-> In k (map Flow.key (flow_merge2 (flow_merge1 d e) a))).
    { split; apply Permutation_in, Permutation_map;
        [apply Permutation_sym|]; exact Hp. }
    rewrite Hk, Hin.
    assert (Hdk : In k (map fst d)
                  <-> exists c, In c (contracts_df raw)
                                /\ contract_flow_key c = Some k).
    { unfold d, disbursements, disbursements_of. rewrite map_map. cbn [fst].
      rewrite map_id.
      apply (group_table_keys flow_key_eqb flow_key_eqb_spec contract_flow_key). }
    assert (Hek : forall val,
               In k (map fst (inflows_of val (cash_flow_rows raw payments)))
               <-> exists p, In p (cash_flow_rows raw payments)
                             /\ flow_key_of p = Some k).
    { intros val. unfold inflows_of. rewrite map_map. cbn [fst]. rewrite map_id.
      apply (group_table_keys flow_key_eqb flow_key_eqb_spec flow_key_of). }
    unfold e, a, expected_inflows, actual_inflows. rewrite Hdk, !Hek. tauto.
Qed.

(** Lines 311 to 317: the cumulative net cash flow of a row is the sum of
    the net cash flows of the rows of its company and product up to its
    month. *)
Theorem cash_flow_cumulative raw payments :
  Forall (fun r =>
            (CashFlow.cumulative_net_cash_flow r
             == Qsum (map CashFlow.net_cash_flow
                        (filter (fun t => product_eqb (CashFlow.product r)
                                            (CashFlow.product t)
                                          && (CashFlow.month t <=? CashFlow.month r))
                                (cash_flow raw payments))))%Q)
         (cash_flow raw payments).
Proof.
  unfold cash_flow.
  set (d := disbursements raw).
  set (e := expected_inflows raw payments).
  set (a := actual_inflows raw payments).
  assert (Hd : NoDup (map fst d)) by apply disbursements_keys.
  assert (He : NoDup (map fst e)) by apply inflows_keys.
  assert (Ha : NoDup (map fst a)) by apply inflows_keys.
  destruct (flow_merge2_keys d e a Hd He Ha) as [Hnd _].
  unfold cash_flow_of.
  set (sorted := FlowSort.sort (flow_merge2 (flow_merge1 d e) a)).
  assert (Hs : StronglySorted (fun x y => is_true (flow_leb x y)) sorted)
    by apply (FlowSort.StronglySorted_sort _ flow_leb_trans).
  assert (Hnd' : NoDup (map (fun x => (fst (Flow.key x), snd (Flow.key x))) sorted)).
  { erewrite map_ext; [|intros x; symmetry; apply surjective_pairing].
    eapply Permutation_NoDup; [|exact Hnd].
    apply Permutation_map, FlowSort.Permuted_sort. }
  set (cum := group_cumsum product_eqb (fun x => fst (Flow.key x)) net_of [] sorted).
  pose proof (group_cumsum_row product_eqb (fun x => fst (Flow.key x)) net_of
                sorted []) as Hrows.
  fold cum in Hrows.
  assert (Hfst : map fst (combine sorted cum) = sorted)
    by (apply map_fst_combine, group_cumsum_length).
  apply Forall_forall. intros r Hr. apply in_map_iff in Hr as ([x q] & <- & Hxq).
  rewrite Forall_forall in Hrows.
  destruct (Hrows (x, q) Hxq) as (pre & post & E & Hq). cbn [fst snd app] in *.
  rewrite filter_map_swap, map_map.
  assert (Hsum : map (fun xq : Flow.t * Q =>
                        CashFlow.net_cash_flow (cash_flow_row (fst xq) (snd xq)))
                     (filter (fun xq : Flow.t * Q =>
                                product_eqb (CashFlow.product (cash_flow_row x q))
                                  (CashFlow.product
                                     (cash_flow_row (fst xq) (snd xq)))
                                && (CashFlow.month (cash_flow_row (fst xq) (snd xq))
                                    <=? CashFlow.month (cash_flow_row x q)))
                             (combine sorted cum))
                 = map net_of
                     (filter (fun t => product_eqb (fst (Flow.key x))
                                         (fst (Flow.key t))
                                       && (snd (Flow.key t) <=? snd (Flow.key x)))
                             sorted)).
  { rewrite <- Hfst at 2. rewrite filter_map_swap, map_map.
    assert (Hp : forall y c, CashFlow.product (cash_flow_row y c) = fst (Flow.key y)
                             /\ CashFlow.month (cash_flow_row y c) = snd (Flow.key y)
                             /\ CashFlow.net_cash_flow (cash_flow_row y c) = net_of y).
    { intros y c. unfold cash_flow_row.
      destruct (Flow.key y) as [[[c0 f] n] m]. auto. }
    destruct (Hp x q) as (Hx1 & Hx2 & _). rewrite Hx1, Hx2.
    erewrite filter_ext.
    - apply map_ext. intros xq. apply Hp.
    - intros xq. destruct (Hp (fst xq) (snd xq)) as (H1 & H2 & _).
      now rewrite H1, H2. }
  rewrite Hsum. cbn [CashFlow.cumulative_net_cash_flow].
  assert (Hc : CashFlow.cumulative_net_cash_flow (cash_flow_row x q) = q).
  { unfold cash_flow_row. now destruct (Flow.key x) as [[[c0 f] n] m]. }
  rewrite Hc, E.
  rewrite E in Hs, Hnd'.
  rewrite (sorted_group_rows_before product_eqb product_eqb_spec
             (fun x => fst (Flow.key x)) (fun x => snd (Flow.key x))
             (fun x y => is_true (flow_leb x y))).
  - rewrite map_app, Qsum_app, Hq. cbn [map Qsum fold_right]. ring.
  - intros u v Huv Eg. cbv beta in *.
    unfold is_true, flow_leb, flow_key_leb, lex_leb in Huv.
    apply product_eqb_spec in Eg.
    match type of Huv with
    | (if ?b then _ else _) = true =>
        replace b with true in Huv by (symmetry; exact Eg)
    end.
    now apply Z.leb_le.
  - exact Hs.
  - exact Hnd'.
Qed.

(** ** Which contracts the FPD table covers *)

Lemma isin_financed contracts c :
  In c contracts -> is_financed c = true ->
  isin (Contract.contract_id c) (financed_contracts contracts) = true.
Proof.
  intros Hc Hf. unfold isin, financed_contracts. apply existsb_exists.
  exists (Contract.contract_id c). split; [|apply Z.eqb_refl].
  apply (proj2 (unique_In Z.eqb Z.eqb_eq _ _)), in_map, filter_In. auto.
Qed.

(** The months of the schedule rows of a contract. *)
Lemma schedule_row_month raw payments c reg n r :
  In c (contracts_df raw) ->
  Contract.registration_date c = Some reg ->
  Contract.contract_tenor_days c = Some n ->
  Trend.contract_id r = Contract.contract_id c ->
  In r (ScheduleEntry raw payments) ->
  to_period reg <= Trend.month r <= to_period (add_days reg n).
Proof.
  intros Hc Hreg Hn Hid Hr.
  pose proof (drop_duplicates_NoDup raw) as Hnd. fold (contracts_df raw) in Hnd.
  pose proof (schedule_rows_of_contract (contracts_df raw)
                (payments_df raw payments) c Hnd Hc) as Hrows.
  fold (ScheduleEntry raw payments) in Hrows.
  rewrite (expected_rows_of_months c (to_period reg)
             (to_period (add_days reg n))) in Hrows.
  2:{ unfold start_month. now rewrite Hreg. }
  2:{ unfold end_month. now rewrite Hreg, Hn. }
  apply period_range_In. rewrite <- Hrows. apply in_map.
  unfold rows_of_contract. apply filter_In. split; [exact Hr|].
  now apply Z.eqb_eq.
Qed.

Lemma schedule_row_at_month raw payments c reg n m :
  In c (contracts_df raw) ->
  Contract.registration_date c = Some reg ->
  Contract.contract_tenor_days c = Some n ->
  to_period reg <= m <= to_period (add_days reg n) ->
  exists r, In r (ScheduleEntry raw payments)
            /\ Trend.contract_id r = Contract.contract_id c
            /\ Trend.month r = m.
Proof.
  intros Hc Hreg Hn Hm.
  pose proof (drop_duplicates_NoDup raw) as Hnd. fold (contracts_df raw) in Hnd.
  pose proof (schedule_rows_of_contract (contracts_df raw)
                (payments_df raw payments) c Hnd Hc) as Hrows.
  fold (ScheduleEntry raw payments) in Hrows.
  rewrite (expected_rows_of_months c (to_period reg)
             (to_period (add_days reg n))) in Hrows.
  2:{ unfold start_month. now rewrite Hreg. }
  2:{ unfold end_month. now rewrite Hreg, Hn. }
  apply period_range_In in Hm. rewrite <- Hrows in Hm.
  apply in_map_iff in Hm as (r & Hmr & Hr).
  unfold rows_of_contract in Hr. apply filter_In in Hr as [Hr Hid].
  apply Z.eqb_eq in Hid. eauto.
Qed.

(** Lines 194 to 196 and 224 to 259: a financed contract with a
    registration date and a tenor has one row in the FPD table when its
    registration date plus its tenor reaches the first day of its FPD
    month, and none otherwise; a contract without a row is counted in no
    FPD rate. *)
Theorem fpd_row_iff_tenor_reaches_fpd_month raw payments c reg n :
  In c (contracts_df raw) ->
  is_financed c = true ->
  Contract.registration_date c = Some reg ->
  valid_date reg = true ->
  Contract.contract_tenor_days c = Some n ->
  List.length (fpd_rows_of_contract (Contract.contract_id c)
                 (fpd_final raw payments))
  = if days_from_civil (spec_fpd_month reg) <=? days_from_civil reg + n
    then 1%nat else 0%nat.
Proof.
  intros Hc Hf Hreg Hv Hn.
  pose proof (drop_duplicates_NoDup raw) as Hnd. fold (contracts_df raw) in Hnd.
  assert (Hm : fpd_month c = Some (spec_fpd_month reg)).
  { unfold fpd_month. rewrite Hreg. now apply get_fpd_month_spec. }
  pose proof (fpd_final_of_contract (contracts_df raw) Hnd c Hc Hf _ Hm payments
                (financed_trend raw payments)) as Hrows.
  cbv zeta in Hrows. apply (f_equal (@List.length _)) in Hrows.
  rewrite !length_map in Hrows.
  fold (vintage_trend raw payments) in Hrows.
  fold (payments_df raw payments) in Hrows.
  fold (fpd_final raw payments) in Hrows. rewrite Hrows. clear Hrows.
  pose proof (schedule_rows_at_le1 (contracts_df raw) (payments_df raw payments)
                (Contract.contract_id c) (spec_fpd_month reg) Hnd) as Hle.
  fold (financed_trend raw payments) in Hle.
  fold (vintage_trend raw payments) in Hle.
  destruct (add_days_spec reg n) as [Hd Hva].
  pose proof (valid_date_ranges reg Hv) as [Hmo Hday].
  pose proof (days_from_month_start reg Hmo) as Hs.
  set (k := if day reg <=? 5 then 1 else 2).
  assert (Hk : 1 <= k <= 2) by (unfold k; destruct (day reg <=? 5); lia).
  assert (Hf' : spec_fpd_month reg = to_timestamp (to_period reg + k))
    by reflexivity.
  pose proof (month_start_increasing (to_period reg) (to_period reg + k)
                ltac:(lia)) as Hinc.
  pose proof (days_in_month_spec (to_period reg)) as Hdim.
  pose proof (days_in_month_bounds (period_year (to_period reg))
                (period_month (to_period reg))) as Hb.
  pose proof (date_within_its_month reg Hv) as [_ Hnext].
  pose proof (month_start_increasing (to_period reg) (to_period reg + 1)
                ltac:(lia)) as Hinc1.
  assert (Hlater : days_from_civil reg
                   < days_from_civil (to_timestamp (to_period reg + k))).
  { destruct (Z.eq_dec k 1) as [->|]; [exact Hnext|].
    replace k with 2 by lia.
    pose proof (month_start_increasing (to_period reg + 1) (to_period reg + 2)
                  ltac:(lia)). lia. }
  rewrite Hf' in *.
  destruct (Z.leb_spec (days_from_civil (to_timestamp (to_period reg + k)))
              (days_from_civil reg + n)) as [Hreach|Hshort].
  - (* the row is there *)
    assert (Hrange : to_period reg <= to_period reg + k
                     <= to_period (add_days reg n)).
    { split; [lia|]. apply (month_start_leb _ _ Hva). unfold date_leb.
      apply Z.leb_le. lia. }
    destruct (schedule_row_at_month raw payments c reg n _ Hc Hreg Hn Hrange)
      as (r & Hr & Hid & Hmr).
    assert (Hin : In (vintage_of r (Some c))
                     (schedule_rows_at (vintage_trend raw payments)
                        (Contract.contract_id c)
                        (to_timestamp (to_period reg + k)))).
    { unfold schedule_rows_at. apply filter_In. split.
      - unfold vintage_trend, vintage_df. apply filter_In. split.
        + rewrite (vintage_merge_map _ Hnd). apply in_map_iff. exists r. split.
          * now rewrite Hid, (lookup_contract_In _ Hnd c Hc).
          * eapply Permutation_in; [apply TrendSort.Permuted_sort|].
            unfold financed_trend, trend_df. apply filter_In. split; [exact Hr|].
            rewrite Hid. now apply isin_financed.
        + unfold on_book, vintage_of.
          cbn [Vintage.months_on_book Vintage.tenor_months].
          rewrite Hreg, Hn. unfold months_on_book, tenor_months, days_between.
          cbn [option_map]. rewrite Hmr.
          apply andb_true_intro. split; [apply Z.geb_le | apply Z.leb_le].
          * apply Z.div_pos; lia.
          * apply Z.div_le_mono; lia.
      - cbn [Vintage.row vintage_of]. rewrite Hid, Z.eqb_refl, Hmr. cbn [andb].
        now apply date_eqb_spec. }
    destruct (schedule_rows_at (vintage_trend raw payments)
                (Contract.contract_id c) (to_timestamp (to_period reg + k)))
      as [|v [|v' l]]; [destruct Hin | reflexivity | cbn [List.length] in Hle; lia].
  - (* the schedule ends before the FPD month *)
    destruct (schedule_rows_at (vintage_trend raw payments)
                (Contract.contract_id c) (to_timestamp (to_period reg + k)))
      as [|v l] eqn:E; [reflexivity|]. exfalso.
    assert (Hin : In v (schedule_rows_at (vintage_trend raw payments)
                          (Contract.contract_id c)
                          (to_timestamp (to_period reg + k))))
      by (rewrite E; now left).
    unfold schedule_rows_at in Hin. apply filter_In in Hin as [Hin Hcond].
    apply andb_prop in Hcond as [Hid Hdate].
    apply Z.eqb_eq in Hid. apply date_eqb_spec in Hdate.
    unfold vintage_trend, vintage_df in Hin. apply filter_In in Hin as [Hin _].
    apply vintage_merge_row, trend_df_financed in Hin as [Hin _].
    fold (ScheduleEntry raw payments) in Hin.
    pose proof (schedule_row_month raw payments c reg n _ Hc Hreg Hn Hid Hin)
      as [_ Hup].
    apply (month_start_leb _ _ Hva) in Hup. unfold date_leb in Hup.
    apply Z.leb_le in Hup. rewrite <- Hdate in Hup. lia.
Qed.

Lemma fpd_row_iff_tenor_reaches_fpd_month_witness :
  List.length (fpd_rows_of_contract 4 (fpd_final [short_contract] short_payments))
  = 0%nat
  /\ List.length (fpd_rows_of_contract 1
                    (fpd_final [example_contract] example_payments))
     = 1%nat.
Proof.
  split.
  - exact (fpd_row_iff_tenor_reaches_fpd_month [short_contract] short_payments
             short_contract (mkDate 2024 1 10) 20
             (or_introl eq_refl) eq_refl eq_refl eq_refl eq_refl).
  - exact (fpd_row_iff_tenor_reaches_fpd_month [example_contract] example_payments
             example_contract (mkDate 2024 1 1) 90
             (or_introl eq_refl) eq_refl eq_refl eq_refl eq_refl).
Defined.
